(** * Look-aside balancer of the proxy: selection, scoring, in-flight ledger
    and health probe of [internal/proxy/look_aside_balancer.go].

    The balancer object is embedded as a record of finite maps and one finite
    set; every exported method becomes a function from the state before the
    call to the state after it and the returned value.  Go's [int64] is [Z]
    with the two's-complement wrap-around written out, Go's [float64] is the
    IEEE 754 binary64 format of the standard library's [SpecFloat]
    (precision 53, infinity exponent 1024), each operation rounded on its
    own.  The wall clock read by [time.Now().UnixMilli()] is an explicit
    argument [now], one reading per call.

    Each method is taken as one atomic step on the shared state; the
    interleaving of concurrent callers, the rate-limited log lines and the
    [ProxyWorkLoadScore] gauge are outside the embedding. *)

From Stdlib Require Import ZArith Lia Bool String.
From Stdlib.Floats Require Import SpecFloat.
From stdpp Require Import gmap list.

Local Open Scope Z_scope.

(** ** Machine integers *)

Module Int64.

Definition min_signed : Z := - 2 ^ 63.
Definition max_signed : Z := 2 ^ 63 - 1.

(** Reduction of a mathematical integer to its [int64] representative. *)
Definition wrap (z : Z) : Z := (z + 2 ^ 63) mod 2 ^ 64 - 2 ^ 63.

Definition add (x y : Z) : Z := wrap (x + y).
Definition sub (x y : Z) : Z := wrap (x - y).

Definition in_range (z : Z) : Prop := min_signed <= z <= max_signed.

End Int64.

(** ** Double precision floats *)

Module Float64.

Definition prec : Z := 53.
Definition emax : Z := 1024.

Definition float64 : Type := spec_float.

(** [float64(z)] for an [int64] [z]: round to nearest, ties to even. *)
Definition of_int (z : Z) : float64 := binary_normalize prec emax z 0 false.

Definition mul (x y : float64) : float64 := SFmul prec emax x y.
Definition add (x y : float64) : float64 := SFadd prec emax x y.
Definition sub (x y : float64) : float64 := SFsub prec emax x y.
Definition ltb (x y : float64) : bool := SFltb x y.

Definition zero : float64 := S754_zero false.
Definition pos_infinity : float64 := S754_infinity false.

(** [math.MaxFloat64], the largest finite double: (2^53 - 1) * 2^971. *)
Definition MaxFloat64 : float64 := S754_finite false (2 ^ 53 - 1) 971.

(** [math.Pow(x, 3.0)].  The exponent has no fractional part, so Go's
    implementation runs its square-and-multiply loop on the mantissa of [x]:
    one squaring and one multiplication, each rounded, the powers of two
    being carried exactly.  On the integer-valued arguments passed by the
    balancer (magnitude at most 2^63) this is [x * (x * x)]. *)
Definition pow3 (x : float64) : float64 := mul x (mul x x).

(** The double 1.0 = 2^52 * 2^-52. *)
Definition one : float64 := S754_finite false (2 ^ 52) (-52).

Definition is_nan (x : float64) : bool :=
  match x with S754_nan => true | _ => false end.

(** *** Notions used to reason about doubles *)

(** Number of binary digits of a mantissa. *)
Definition digits (p : positive) : Z := Zpos (digits2_pos p).

(** [|x| < 2^K] for a double that is zero or finite; infinities and NaN are
    excluded. *)
Definition bounded_by (K : Z) (x : float64) : Prop :=
  match x with
  | S754_zero _ => True
  | S754_finite _ m e => Zpos m < 2 ^ (K - e)
  | _ => False
  end.

(** The sign bit of a double that has one. *)
Definition sign_is (s : bool) (x : float64) : Prop :=
  match x with
  | S754_zero s' | S754_finite s' _ _ | S754_infinity s' => s' = s
  | S754_nan => False
  end.

Definition is_finite (x : float64) : bool :=
  match x with
  | S754_zero _ | S754_finite _ _ _ => true
  | _ => false
  end.

(** A non-NaN double is ranked by a triple compared lexicographically:
    class (infinities outermost, zeros in the middle), then exponent, then
    mantissa, the last two negated for negative numbers. *)
Definition key (x : float64) : Z * Z * Z :=
  match x with
  | S754_nan => (0, 0, 0)
  | S754_zero _ => (0, 0, 0)
  | S754_infinity s => (if s then -2 else 2, 0, 0)
  | S754_finite s m e => if s then (-1, - e, - Zpos m) else (1, e, Zpos m)
  end.

Definition lex_lt (a b : Z * Z * Z) : Prop :=
  a.1.1 < b.1.1
  ∨ (a.1.1 = b.1.1 ∧ (a.1.2 < b.1.2 ∨ (a.1.2 = b.1.2 ∧ a.2 < b.2))).

(** The mantissa of the normalised double equal to the integer [p], for [p]
    of at most 53 binary digits: [p] shifted left until it has 53 digits. *)
Definition mant (p : positive) : positive :=
  (shl_align p 0 (digits p - 53)).1.

(** The double equal to the integer [z], for [|z| < 2^53]. *)
Definition canon (z : Z) : float64 :=
  match z with
  | Z0 => S754_zero false
  | Zpos p => S754_finite false (mant p) (digits p - 53)
  | Zneg p => S754_finite true (mant p) (digits p - 53)
  end.

(** *** Notions used to reason about rounding *)

(** [q + r / P] rounded to the nearest integer, ties to even, for
    [0 ≤ r < P]. *)
Definition rne (q r P : Z) : Z :=
  if 2 * r <? P then q
  else if P <? 2 * r then q + 1
  else if Z.even q then q else q + 1.

(** [m / 2^n] rounded to the nearest integer, ties to even. *)
Definition rounded (m n : Z) : Z := rne (m / 2 ^ n) (m mod 2 ^ n) (2 ^ n).

(** A mantissa rounded at 53 digits is at most 2^53; when it is 2^53 the
    double is written with mantissa 2^52, one exponent up. *)
Definition renorm (q G : Z) : Z * Z :=
  if q <? 2 ^ 53 then (q, G) else (2 ^ 52, G + 1).

(** Mantissa and exponent of the double nearest to [m * 2^e], when that
    number is in the normal range. *)
Definition round_pair (m : positive) (e : Z) : Z * Z :=
  let D := digits m + e in
  let ez := Z.min e (D - 53) in
  renorm (rounded (Zpos m * 2 ^ (e - ez)) (D - 53 - ez)) (D - 53).

(** The order of positive normal doubles on (mantissa, exponent) pairs. *)
Definition pair_le (a b : Z * Z) : Prop :=
  a.2 < b.2 ∨ (a.2 = b.2 ∧ a.1 ≤ b.1).

(** A normal double of sign [s] with [2^(lo-1) ≤ |x| < 2^hi]: its mantissa
    has 53 digits. *)
Definition normal (s : bool) (lo hi : Z) (x : float64) : Prop :=
  ∃ c E, x = S754_finite s c E ∧ digits c = 53 ∧ lo ≤ E + 53 ≤ hi.

(** A zero, or a normal double of either sign with [|x| < 2^h]. *)
Definition small (h : Z) (x : float64) : Prop :=
  match x with
  | S754_zero _ => True
  | S754_finite s c E => normal s (-500) h (S754_finite s c E)
  | _ => False
  end.

(** What [k] right shifts of the mantissa [m] leave in the shift record: the
    quotient by [2^k], and in the round and sticky bits the position of the
    remainder with respect to one half. *)
Definition shr_inv (m k : Z) (rec : shr_record) : Prop :=
  0 ≤ shr_m rec
  ∧ 0 ≤ m - shr_m rec * 2 ^ k < 2 ^ k
  ∧ match shr_r rec, shr_s rec with
    | false, false => m - shr_m rec * 2 ^ k = 0
    | false, true => 0 < 2 * (m - shr_m rec * 2 ^ k) < 2 ^ k
    | true, false => 2 * (m - shr_m rec * 2 ^ k) = 2 ^ k
    | true, true => 2 ^ k < 2 * (m - shr_m rec * 2 ^ k)
    end.

(** [z * 2^e] is zero or in the normal range of doubles. *)
Definition normal_range (z e : Z) : Prop :=
  match z with
  | Z0 => True
  | Zpos p | Zneg p => -1021 ≤ digits p + e ≤ 1023
  end.

(** The double 2^206 = (2^62)^3 * 2^20. *)
Definition two_pow_206 : float64 := S754_finite false (2 ^ 52) 154.

End Float64.

Import Float64.

(** ** Data model *)

(** [internalpb.CostAggregation]; the three fields are [int64] in the
    protobuf message, which is why [calculateScore] converts them with
    [float64(...)]. *)
Record CostAggregation : Type := mkCost {
  ResponseTime : Z;
  ServiceTime : Z;
  TotalNQ : Z
}.

(** The four containers of [LookAsideBalancer].  A value of [metricsMap] is a
    pointer and can be [nil], hence the [option].  A value of
    [executingTaskTotalNQ] is a pointer to an atomic counter owned by the map;
    it is represented by the counter's content. *)
Record LookAsideBalancer : Type := mkBalancer {
  metricsMap : gmap Z (option CostAggregation);
  metricsUpdateTs : gmap Z Z;
  executingTaskTotalNQ : gmap Z Z;
  unreachableQueryNodes : gset Z
}.

Definition NewLookAsideBalancer : LookAsideBalancer :=
  mkBalancer ∅ ∅ ∅ ∅.

Definition set_executingTaskTotalNQ (b : LookAsideBalancer) (m : gmap Z Z)
  : LookAsideBalancer :=
  mkBalancer (metricsMap b) (metricsUpdateTs b) m (unreachableQueryNodes b).

(** Duration constants, already converted by [.Milliseconds()]. *)
Definition checkQueryNodeHealthInterval : Z := 500.
Definition CostMetricsExpireTime : Z := 1000.

(** Errors a call can end with.  [NilDereference] stands for the run-time
    panic of calling a method on a [nil] counter. *)
Inductive error : Type :=
  | ErrServiceUnavailable (msg : string)
  | NilDereference.

(** ** Scoring *)

Definition isNodeCostMetricsTooOld (now : Z) (b : LookAsideBalancer) (node : Z) : bool :=
  match metricsUpdateTs b !! node with
  | None => false
  | Some lastUpdateTs =>
      if lastUpdateTs =? 0 then false
      else CostMetricsExpireTime <? Int64.sub now lastUpdateTs
  end.

Definition calculateScore (now : Z) (b : LookAsideBalancer) (node : Z)
    (cost : option CostAggregation) (executingNQ : Z) : float64 :=
  match cost with
  | None => pow3 (of_int (Int64.add 1 executingNQ))
  | Some c =>
      if (ResponseTime c =? 0) || (ServiceTime c =? 0) then
        pow3 (of_int (Int64.add 1 executingNQ))
      else if (executingNQ =? 0) && (TotalNQ c =? 0) && isNodeCostMetricsTooOld now b node then
        zero
      else
        let executeSpeed := sub (of_int (ResponseTime c)) (of_int (ServiceTime c)) in
        let workload :=
          mul (pow3 (of_int (Int64.add (Int64.add 1 (TotalNQ c)) executingNQ)))
              (of_int (ServiceTime c)) in
        if ltb workload zero then MaxFloat64
        else add executeSpeed workload
  end.

(** ** Selection *)

(** [cost, _ := b.metricsMap.Get(node)]: the zero value [nil] when absent. *)
Definition getCost (b : LookAsideBalancer) (node : Z) : option CostAggregation :=
  default None (metricsMap b !! node).

(** Lines 99-103: fetch the node's counter, creating a zero counter when the
    ledger has none; the second component is [executingNQ.Load()]. *)
Definition getOrCreateCounter (b : LookAsideBalancer) (node : Z) : LookAsideBalancer * Z :=
  match executingTaskTotalNQ b !! node with
  | Some v => (b, v)
  | None => (set_executingTaskTotalNQ b (<[node := 0]> (executingTaskTotalNQ b)), 0)
  end.

(** The body of the [for] loop of [SelectNode], threaded over the balancer and
    the two loop variables [targetNode] and [targetScore]. *)
Fixpoint selectLoop (now : Z) (availableNodes : list Z)
    (b : LookAsideBalancer) (targetNode : Z) (targetScore : float64)
    : LookAsideBalancer * Z * float64 :=
  match availableNodes with
  | [] => (b, targetNode, targetScore)
  | node :: rest =>
      if decide (node ∈ unreachableQueryNodes b) then
        selectLoop now rest b targetNode targetScore
      else
        let cost := getCost b node in
        let '(b1, executingNQ) := getOrCreateCounter b node in
        let score := calculateScore now b1 node cost executingNQ in
        if (targetNode =? -1) || ltb score targetScore then
          selectLoop now rest b1 node score
        else
          selectLoop now rest b1 targetNode targetScore
  end.

Definition SelectNode (now : Z) (b : LookAsideBalancer)
    (availableNodes : list Z) (cost : Z) : LookAsideBalancer * (error + Z) :=
  let '(b1, targetNode, _) := selectLoop now availableNodes b (-1) MaxFloat64 in
  if targetNode =? -1 then
    (b1, inl (ErrServiceUnavailable "all available nodes are unreachable"))
  else
    match executingTaskTotalNQ b1 !! targetNode with
    | None => (b1, inl NilDereference)
    | Some totalNQ =>
        (set_executingTaskTotalNQ b1
           (<[targetNode := Int64.add totalNQ cost]> (executingTaskTotalNQ b1)),
         inr targetNode)
    end.

Definition CancelWorkload (b : LookAsideBalancer) (node nq : Z) : LookAsideBalancer :=
  match executingTaskTotalNQ b !! node with
  | Some totalNQ =>
      set_executingTaskTotalNQ b (<[node := Int64.sub totalNQ nq]> (executingTaskTotalNQ b))
  | None => b
  end.

Definition UpdateCostMetrics (now : Z) (b : LookAsideBalancer) (node : Z)
    (cost : option CostAggregation) : LookAsideBalancer :=
  mkBalancer (<[node := cost]> (metricsMap b))
             (<[node := now]> (metricsUpdateTs b))
             (executingTaskTotalNQ b)
             (unreachableQueryNodes b).

(** ** Health probe *)

(** [commonpb.StateCode]. *)
Inductive StateCode : Type :=
  | Initializing | Healthy | Abnormal | StandBy | Stopping.

#[global] Instance StateCode_eq_dec : EqDecision StateCode.
Proof. solve_decision. Defined.

Definition StateCode_eqb (a b : StateCode) : bool :=
  match a, b with
  | Initializing, Initializing | Healthy, Healthy | Abnormal, Abnormal
  | StandBy, StandBy | Stopping, Stopping => true
  | _, _ => false
  end.

(** What the collaborators answer during one probe: [GetClient] fails, or it
    yields a client whose [GetComponentStates] fails or replies with a state
    code. *)
Inductive ProbeAnswer : Type :=
  | GetClientFailed
  | GetComponentStatesFailed
  | ComponentStates (code : StateCode).

#[global] Instance ProbeAnswer_eq_dec : EqDecision ProbeAnswer.
Proof. solve_decision. Defined.

(** The function submitted to the pool for one node by [checkQueryNodeHealthLoop];
    [now] is the clock at the moment the time stamp is refreshed. *)
Definition probeNode (now : Z) (answer : ProbeAnswer) (b : LookAsideBalancer) (node : Z)
  : LookAsideBalancer :=
  let setUnreachable :=
    mkBalancer (metricsMap b) (metricsUpdateTs b) (executingTaskTotalNQ b)
               ({[node]} ∪ unreachableQueryNodes b) in
  match answer with
  | GetClientFailed => setUnreachable
  | GetComponentStatesFailed => setUnreachable
  | ComponentStates code =>
      if negb (StateCode_eqb code Healthy) then setUnreachable
      else
        mkBalancer (metricsMap b) (<[node := now]> (metricsUpdateTs b))
                   (executingTaskTotalNQ b)
                   (unreachableQueryNodes b ∖ {[node]})
  end.

(** Nodes a tick at time [now] schedules a probe for. *)
Definition needsProbe (now : Z) (lastUpdateTs : Z) : bool :=
  checkQueryNodeHealthInterval <? Int64.sub now lastUpdateTs.

(** The callback handed to [metricsUpdateTs.Range] (lines 190-235): an entry
    whose time stamp is older than the interval gets its node probed.
    [answers] is what the collaborators reply for each node and [finish] the
    clock each probe reads when it refreshes the time stamp. *)
Definition probeIfStale (now : Z) (answers : Z → ProbeAnswer) (finish : Z → Z)
    (b : LookAsideBalancer) (entry : Z * Z) : LookAsideBalancer :=
  let '(node, lastUpdateTs) := entry in
  if needsProbe now lastUpdateTs then probeNode (finish node) (answers node) b node
  else b.

(** One tick of [checkQueryNodeHealthLoop] (lines 187-236): the entries of
    the time-stamp map are visited once each and the probes awaited.  A probe
    writes nothing but its own node's time stamp and reachability bit, so
    running the probes one after the other in the order of the visit is one
    of the schedules of the pool. *)
Definition tick (now : Z) (answers : Z → ProbeAnswer) (finish : Z → Z)
    (b : LookAsideBalancer) : LookAsideBalancer :=
  foldl (probeIfStale now answers finish) b (map_to_list (metricsUpdateTs b)).

(** The decision of lines 201-222: the probe counts as healthy only when the
    client was obtained, the call succeeded and the state code is [Healthy]. *)
Definition is_healthy (answer : ProbeAnswer) : bool :=
  match answer with
  | ComponentStates Healthy => true
  | _ => false
  end.


(** ** Derived notions used by the statements *)

(** [InFlight[node]]: the content of the node's counter, 0 when the ledger
    has no counter for it yet. *)
Definition inflight (b : LookAsideBalancer) (node : Z) : Z :=
  default 0 (executingTaskTotalNQ b !! node).

(** The score [SelectNode] computes for a surviving candidate. *)
Definition scoreOf (now : Z) (b : LookAsideBalancer) (node : Z) : float64 :=
  calculateScore now b node (getCost b node) (inflight b node).

(** Which of the three [return] paths of [calculateScore] is taken: the
    load-only fallback (line 144), the idle shortcut (line 151) or the general
    formula (lines 154-160). *)
Inductive ScoreBranch : Type := FallbackBranch | IdleBranch | GeneralBranch.

Definition scoreBranch (now : Z) (b : LookAsideBalancer) (node : Z)
    (cost : option CostAggregation) (executingNQ : Z) : ScoreBranch :=
  match cost with
  | None => FallbackBranch
  | Some c =>
      if (ResponseTime c =? 0) || (ServiceTime c =? 0) then FallbackBranch
      else if (executingNQ =? 0) && (TotalNQ c =? 0) && isNodeCostMetricsTooOld now b node
      then IdleBranch
      else GeneralBranch
  end.

(** The workload term of the general formula and the score built from it. *)
Definition workloadOf (c : CostAggregation) (executingNQ : Z) : float64 :=
  mul (pow3 (of_int (Int64.add (Int64.add 1 (TotalNQ c)) executingNQ)))
      (of_int (ServiceTime c)).

Definition generalScore (c : CostAggregation) (executingNQ : Z) : float64 :=
  if ltb (workloadOf c executingNQ) zero then MaxFloat64
  else add (sub (of_int (ResponseTime c)) (of_int (ServiceTime c)))
           (workloadOf c executingNQ).

Definition fallbackScore (executingNQ : Z) : float64 :=
  pow3 (of_int (Int64.add 1 executingNQ)).

(** Representation invariant of the telemetry cache: the fields of a cached
    aggregation are [int64] values. *)
Definition int64_cost (c : CostAggregation) : Prop :=
  Int64.in_range (ResponseTime c) ∧ Int64.in_range (ServiceTime c)
  ∧ Int64.in_range (TotalNQ c).

Definition int64_telemetry (b : LookAsideBalancer) : Prop :=
  ∀ node c, metricsMap b !! node = Some (Some c) → int64_cost c.

(** Representation invariant of the ledger: every counter holds an [int64]
    value. *)
Definition int64_ledger (b : LookAsideBalancer) : Prop :=
  ∀ node v, executingTaskTotalNQ b !! node = Some v → Int64.in_range v.

(** A candidate about which nothing is known: no cached aggregation and
    nothing in flight. *)
Definition unknown_idle (b : LookAsideBalancer) (node : Z) : Prop :=
  getCost b node = None ∧ inflight b node = 0.

(** Every member of the Unreachability Set has a time stamp: it has been
    observed. *)
Definition unreachable_observed (b : LookAsideBalancer) : Prop :=
  ∀ node, node ∈ unreachableQueryNodes b → is_Some (metricsUpdateTs b !! node).

(** The ways the balancer's state changes after [NewLookAsideBalancer]: the
    three exported operations and the ticks of the health loop, one at a
    time. *)
Inductive Operation : Type :=
  | OpSelectNode (now : Z) (availableNodes : list Z) (cost : Z)
  | OpCancelWorkload (node nq : Z)
  | OpUpdateCostMetrics (now node : Z) (cost : option CostAggregation)
  | OpTick (now : Z) (answers : Z → ProbeAnswer) (finish : Z → Z).

Definition perform (b : LookAsideBalancer) (op : Operation) : LookAsideBalancer :=
  match op with
  | OpSelectNode now l cost => (SelectNode now b l cost).1
  | OpCancelWorkload node nq => CancelWorkload b node nq
  | OpUpdateCostMetrics now node cost => UpdateCostMetrics now b node cost
  | OpTick now answers finish => tick now answers finish b
  end.

Definition run (ops : list Operation) : LookAsideBalancer :=
  foldl perform NewLookAsideBalancer ops.

(** A sequence of operations, performed from [b], that neither dispatches to
    [node] nor cancels work on it. *)
Fixpoint quiet_for (node : Z) (b : LookAsideBalancer) (ops : list Operation) : Prop :=
  match ops with
  | [] => True
  | op :: rest =>
      match op with
      | OpSelectNode now l cost => (SelectNode now b l cost).2 ≠ inr node
      | OpCancelWorkload m _ => m ≠ node
      | _ => True
      end
      ∧ quiet_for node (perform b op) rest
  end.

(** The aggregation handed to [UpdateCostMetrics], when there is one, holds
    [int64] values. *)
Definition int64_operation (op : Operation) : Prop :=
  match op with
  | OpUpdateCostMetrics _ _ (Some c) => int64_cost c
  | _ => True
  end.

(** The reduction performed by the loop of [SelectNode], seen on the scores
    alone: [alive] tells which candidates pass the filter, [score] is the
    score of a candidate, [(t, s)] are the loop variables. *)
Fixpoint pick (score : Z → float64) (alive : Z → bool) (l : list Z)
    (t : Z) (s : float64) : Z * float64 :=
  match l with
  | [] => (t, s)
  | n :: rest =>
      if alive n then
        if (t =? -1) || ltb (score n) s then pick score alive rest n (score n)
        else pick score alive rest t s
      else pick score alive rest t s
  end.

(** The candidate at position [i] beats every live candidate before it and
    is not beaten by any live candidate after it. *)
Definition first_minimum (score : Z → float64) (alive : Z → bool)
    (l : list Z) (i : nat) (n : Z) : Prop :=
  l !! i = Some n ∧ alive n = true
  ∧ (∀ j m, (j < i)%nat → l !! j = Some m → alive m = true →
            ltb (score n) (score m) = true)
  ∧ (∀ j m, (i < j)%nat → l !! j = Some m → alive m = true →
            ltb (score m) (score n) = false).

(** The exact value of the workload term, over the integers. *)
Definition exactWorkload (c : CostAggregation) (k : Z) : Z :=
  (1 + TotalNQ c + k) ^ 3 * ServiceTime c.

(** A candidate survives the unreachability filter. *)
Definition survives (b : LookAsideBalancer) (node : Z) : Prop :=
  node ∉ unreachableQueryNodes b.

#[global] Instance survives_dec b node : Decision (survives b node).
Proof. unfold survives. apply _. Defined.

(** The error of line 115. *)
Definition unavailable : error :=
  ErrServiceUnavailable "all available nodes are unreachable".

(** ** Concrete balancers used to exercise the statements *)

Module Scenario.

(** Nodes 4 and 6 are marked unreachable, nothing else is known. *)
Definition some_unreachable : LookAsideBalancer :=
  mkBalancer ∅ ∅ ∅ {[4; 6]}.

(** Node 5 already carries 7 units of in-flight work. *)
Definition loaded : LookAsideBalancer :=
  mkBalancer ∅ ∅ {[5 := 7]} ∅.

(** Spec scenario 3 at [now = 10000]: node 7 reported an all-zero aggregation
    two seconds ago and has an empty counter, node 8 was never observed. *)
Definition idle_now : Z := 10000.
Definition idle : LookAsideBalancer :=
  mkBalancer {[7 := Some (mkCost 0 0 0)]} {[7 := idle_now - 2000]} {[7 := 0]} ∅.

(** Spec scenario 2: telemetry for nodes 1 and 2. *)
Definition two_nodes : LookAsideBalancer :=
  mkBalancer {[1 := Some (mkCost 50 10 0); 2 := Some (mkCost 20 5 0)]}
             {[1 := 9900; 2 := 9900]} ∅ ∅.

(** An aggregation in the ordinary operating range, and one whose queue
    length makes [1 + TotalNQ] wrap around. *)
Definition ordinary_cost : CostAggregation := mkCost 50 10 0.
Definition wrapping_cost : CostAggregation := mkCost 50 10 (2 ^ 63 - 1).

(** The aggregation of the overflow-safety law of the spec, and the same
    with no response time recorded. *)
Definition huge_cost : CostAggregation := mkCost 50 (2 ^ 20) (2 ^ 62).
Definition huge_silent_cost : CostAggregation := mkCost 0 (2 ^ 20) (2 ^ 62).

(** Node 3 reports [huge_cost], node 2 an ordinary aggregation. *)
Definition with_huge : LookAsideBalancer :=
  mkBalancer {[3 := Some huge_cost; 2 := Some ordinary_cost]}
             {[3 := 9900; 2 := 9900]} ∅ ∅.

(** Node 3 reports [huge_cost], node -1 an ordinary aggregation. *)
Definition with_huge_and_minus_one : LookAsideBalancer :=
  mkBalancer {[3 := Some huge_cost; -1 := Some ordinary_cost]}
             {[3 := 9900; -1 := 9900]} ∅ ∅.

(** Node 3 reports [huge_silent_cost], node 2 an ordinary aggregation. *)
Definition with_huge_silent : LookAsideBalancer :=
  mkBalancer {[3 := Some huge_silent_cost; 2 := Some ordinary_cost]}
             {[3 := 9900; 2 := 9900]} ∅ ∅.

(** An aggregation whose response time, 2^57, absorbs small workloads. *)
Definition absorbing_cost : CostAggregation := mkCost (2 ^ 57) 1 0.

(** As [with_huge], after cancellations left the counter of node 3 at
    -(2^62 + 1). *)
Definition with_huge_cancelled : LookAsideBalancer :=
  mkBalancer {[3 := Some huge_cost; 2 := Some ordinary_cost]}
             {[3 := 9900; 2 := 9900]} {[3 := - (2 ^ 62 + 1)]} ∅.

End Scenario.

(** * Properties *)

(** ** The loop of [SelectNode] *)

Section SelectLoop.

Variable now : Z.

Lemma calculateScore_ext b b' node cost k :
  metricsUpdateTs b = metricsUpdateTs b' →
  calculateScore now b node cost k = calculateScore now b' node cost k.
Proof.
  intros E. unfold calculateScore, isNodeCostMetricsTooOld. by rewrite E.
Qed.

Lemma getOrCreateCounter_spec b node :
  let b1 := (getOrCreateCounter b node).1 in
  (getOrCreateCounter b node).2 = inflight b node
  ∧ metricsMap b1 = metricsMap b
  ∧ metricsUpdateTs b1 = metricsUpdateTs b
  ∧ unreachableQueryNodes b1 = unreachableQueryNodes b
  ∧ executingTaskTotalNQ b1 !! node = Some (inflight b node)
  ∧ ∀ m, m ≠ node → executingTaskTotalNQ b1 !! m = executingTaskTotalNQ b !! m.
Proof.
  unfold getOrCreateCounter, inflight.
  destruct (executingTaskTotalNQ b !! node) as [v|] eqn:E; simpl.
  - by rewrite E.
  - rewrite lookup_insert_eq. repeat split; try done.
    intros m Hm. by rewrite lookup_insert_ne.
Qed.

Lemma getOrCreateCounter_inflight b node m :
  inflight (getOrCreateCounter b node).1 m = inflight b m.
Proof.
  destruct (getOrCreateCounter_spec b node) as (_ & _ & _ & _ & Hn & Ho).
  unfold inflight at 1. destruct (decide (m = node)) as [->|Hne].
  - by rewrite Hn.
  - by rewrite Ho.
Qed.

Lemma scoreOf_getOrCreateCounter b node m :
  scoreOf now (getOrCreateCounter b node).1 m = scoreOf now b m.
Proof.
  destruct (getOrCreateCounter_spec b node) as (_ & Hm & Ht & _ & _ & _).
  unfold scoreOf, getCost.
  rewrite getOrCreateCounter_inflight, Hm. by apply calculateScore_ext.
Qed.

(** One unfolding of the loop on a surviving candidate. *)
Lemma selectLoop_cons_survivor node rest b t s :
  survives b node →
  selectLoop now (node :: rest) b t s =
    let b1 := (getOrCreateCounter b node).1 in
    if (t =? -1) || ltb (scoreOf now b node) s
    then selectLoop now rest b1 node (scoreOf now b node)
    else selectLoop now rest b1 t s.
Proof.
  intros Hs. simpl. rewrite decide_False by exact Hs.
  destruct (getOrCreateCounter_spec b node) as (Hk & _ & Ht & _ & _ & _).
  destruct (getOrCreateCounter b node) as [b1 k] eqn:E. simpl in *.
  unfold scoreOf. rewrite <- Hk.
  by rewrite (calculateScore_ext b1 b node (getCost b node) k Ht).
Qed.

Lemma selectLoop_cons_unreachable node rest b t s :
  ¬ survives b node →
  selectLoop now (node :: rest) b t s = selectLoop now rest b t s.
Proof.
  intros Hs. simpl. rewrite decide_True; [done|].
  unfold survives in Hs. by apply dec_stable.
Qed.

(** What the loop does to the balancer: nothing but creating zero counters
    for surviving candidates that had none. *)
Lemma selectLoop_state l : ∀ b t s,
  let b1 := (selectLoop now l b t s).1.1 in
  metricsMap b1 = metricsMap b
  ∧ metricsUpdateTs b1 = metricsUpdateTs b
  ∧ unreachableQueryNodes b1 = unreachableQueryNodes b
  ∧ (∀ m v, executingTaskTotalNQ b !! m = Some v →
            executingTaskTotalNQ b1 !! m = Some v)
  ∧ (∀ m, executingTaskTotalNQ b !! m = None → m ∈ l → survives b m →
          executingTaskTotalNQ b1 !! m = Some 0)
  ∧ (∀ m, executingTaskTotalNQ b !! m = None → ¬ (m ∈ l ∧ survives b m) →
          executingTaskTotalNQ b1 !! m = None).
Proof.
  induction l as [|node rest IH]; intros b t s.
  - cbn [selectLoop fst]. repeat split; try done.
    intros m _ H. by apply elem_of_nil in H.
  - destruct (decide (survives b node)) as [Hs|Hs].
    + rewrite selectLoop_cons_survivor by done. cbv zeta.
      destruct (getOrCreateCounter_spec b node) as (_ & G1 & G2 & G3 & G4 & G5).
      set (b1 := (getOrCreateCounter b node).1) in *.
      assert (∃ t' s', (if (t =? -1) || ltb (scoreOf now b node) s
                then selectLoop now rest b1 node (scoreOf now b node)
                else selectLoop now rest b1 t s) = selectLoop now rest b1 t' s')
        as (t' & s' & ->) by (destruct ((t =? -1) || _); eauto).
      destruct (IH b1 t' s') as (H1 & H2 & H3 & H4 & H5 & H6).
      assert (Hsv : ∀ m, survives b1 m ↔ survives b m) by (unfold survives; by rewrite G3).
      split_and!; try congruence.
      * intros m v Hm. destruct (decide (m = node)) as [->|Hne].
        -- apply (H4 node v). rewrite G4. unfold inflight. by rewrite Hm.
        -- apply H4. by rewrite G5.
      * intros m Hm Hin Hsm. destruct (decide (m = node)) as [->|Hne].
        -- apply H4. rewrite G4. unfold inflight. by rewrite Hm.
        -- apply H5; [by rewrite G5| |by apply Hsv].
           apply elem_of_cons in Hin as [?|?]; done.
      * intros m Hm Hn. destruct (decide (m = node)) as [->|Hne].
        -- exfalso. apply Hn. split; [apply elem_of_cons; by left|done].
        -- apply H6; [by rewrite G5|]. rewrite Hsv. intros [? ?]. apply Hn.
           split; [apply elem_of_cons; by right|done].
    + rewrite selectLoop_cons_unreachable by done.
      destruct (IH b t s) as (H1 & H2 & H3 & H4 & H5 & H6).
      split_and!; try done.
      * intros m Hm Hin Hsm. apply H5; try done.
        apply elem_of_cons in Hin as [->|?]; done.
      * intros m Hm Hn. apply H6; [done|]. intros [? ?]. apply Hn.
        split; [apply elem_of_cons; by right|done].
Qed.

(** The loop variable [targetNode] ends as it started or as a surviving
    candidate. *)
Lemma selectLoop_target l : ∀ b t s,
  let t' := (selectLoop now l b t s).1.2 in
  t' = t ∨ (t' ∈ l ∧ survives b t').
Proof.
  induction l as [|node rest IH]; intros b t s.
  - by left.
  - destruct (decide (survives b node)) as [Hs|Hs].
    + rewrite selectLoop_cons_survivor by done. cbv zeta.
      destruct (getOrCreateCounter_spec b node) as (_ & _ & _ & G3 & _ & _).
      set (b1 := (getOrCreateCounter b node).1) in *.
      assert (Hsv : ∀ m, survives b1 m ↔ survives b m) by (unfold survives; by rewrite G3).
      destruct ((t =? -1) || _).
      * destruct (IH b1 node (scoreOf now b node)) as [->|[? ?%Hsv]]; right.
        -- split; [apply elem_of_cons; by left|done].
        -- split; [apply elem_of_cons; by right|done].
      * destruct (IH b1 t s) as [->|[? ?%Hsv]]; [by left|right].
        split; [apply elem_of_cons; by right|done].
    + rewrite selectLoop_cons_unreachable by done.
      destruct (IH b t s) as [->|[? ?]]; [by left|right].
      split; [apply elem_of_cons; by right|done].
Qed.

(** With no surviving candidate the loop is the identity. *)
Lemma selectLoop_all_unreachable l b t s :
  (∀ n, n ∈ l → ¬ survives b n) → selectLoop now l b t s = (b, t, s).
Proof.
  induction l as [|node rest IH]; intros H; [done|].
  rewrite selectLoop_cons_unreachable.
  - apply IH. intros n Hn. apply H, elem_of_cons. by right.
  - apply H, elem_of_cons. by left.
Qed.

(** After the loop every surviving candidate owns a counter, holding what it
    held before the call. *)
Lemma selectLoop_counter l b t s m :
  m ∈ l → survives b m →
  executingTaskTotalNQ (selectLoop now l b t s).1.1 !! m = Some (inflight b m).
Proof.
  intros Hin Hs.
  destruct (selectLoop_state l b t s) as (_ & _ & _ & H4 & H5 & _).
  unfold inflight. destruct (executingTaskTotalNQ b !! m) as [v|] eqn:E; simpl.
  - by apply H4.
  - by apply H5.
Qed.

Lemma selectLoop_inflight l b t s m :
  inflight (selectLoop now l b t s).1.1 m = inflight b m.
Proof.
  destruct (selectLoop_state l b t s) as (_ & _ & _ & H4 & H5 & H6).
  unfold inflight. destruct (executingTaskTotalNQ b !! m) as [v|] eqn:E; simpl.
  - by rewrite (H4 m v).
  - destruct (decide (m ∈ l ∧ survives b m)) as [[? ?]|Hn].
    + by rewrite H5.
    + by rewrite H6.
Qed.

End SelectLoop.

(** ** [SelectNode] as a whole *)

(** The call succeeds exactly when the loop leaves [targetNode] different
    from -1; the balancer returned is the one left by the loop with [cost]
    added to the counter of the chosen node. *)
Lemma SelectNode_unfold now b l cost :
  let r := selectLoop now l b (-1) MaxFloat64 in
  let b1 := r.1.1 in
  let t := r.1.2 in
  (t = -1 ∧ SelectNode now b l cost = (b1, inl unavailable))
  ∨ (t ≠ -1 ∧ t ∈ l ∧ survives b t
     ∧ SelectNode now b l cost =
         (set_executingTaskTotalNQ b1
            (<[t := Int64.add (inflight b t) cost]> (executingTaskTotalNQ b1)),
          inr t)).
Proof.
  cbv zeta. unfold SelectNode.
  pose proof (selectLoop_target now l b (-1) MaxFloat64) as Ht.
  pose proof (selectLoop_counter now l b (-1) MaxFloat64) as Hc.
  destruct (selectLoop now l b (-1) MaxFloat64) as [[b1 t] s]. simpl in *.
  destruct (Z.eqb_spec t (-1)) as [->|Hne]; [by left|right].
  destruct Ht as [?|[Hin Hs]]; [done|].
  rewrite (Hc t Hin Hs). done.
Qed.

Lemma SelectNode_success now b l cost b' n :
  SelectNode now b l cost = (b', inr n) →
  let b1 := (selectLoop now l b (-1) MaxFloat64).1.1 in
  n ≠ -1 ∧ n ∈ l ∧ survives b n
  ∧ n = (selectLoop now l b (-1) MaxFloat64).1.2
  ∧ b' = set_executingTaskTotalNQ b1
           (<[n := Int64.add (inflight b n) cost]> (executingTaskTotalNQ b1)).
Proof.
  intros H. destruct (SelectNode_unfold now b l cost) as [[_ E]|(Hne & Hin & Hs & E)];
    rewrite E in H; [done|].
  injection H as <- <-. done.
Qed.

(** The counter of the chosen node always exists: the call never panics. *)
Lemma SelectNode_no_panic now b l cost :
  (SelectNode now b l cost).2 ≠ inl NilDereference.
Proof.
  destruct (SelectNode_unfold now b l cost) as [[_ E]|(_ & _ & _ & E)];
    by rewrite E.
Qed.

(** ** Machine arithmetic *)

Lemma wrap_in_range z : Int64.in_range z → Int64.wrap z = z.
Proof.
  unfold Int64.in_range, Int64.wrap, Int64.min_signed, Int64.max_signed.
  intros H. rewrite Z.mod_small; lia.
Qed.

Lemma wrap_range z : Int64.in_range (Int64.wrap z).
Proof.
  unfold Int64.in_range, Int64.wrap, Int64.min_signed, Int64.max_signed.
  pose proof (Z.mod_pos_bound (z + 2 ^ 63) (2 ^ 64) ltac:(lia)). lia.
Qed.

Lemma wrap_shift z k : Int64.wrap (z + k * 2 ^ 64) = Int64.wrap z.
Proof.
  unfold Int64.wrap.
  replace (z + k * 2 ^ 64 + 2 ^ 63) with (z + 2 ^ 63 + k * 2 ^ 64) by lia.
  by rewrite Z.mod_add by lia.
Qed.

Lemma wrap_decompose z : ∃ k, Int64.wrap z = z + k * 2 ^ 64.
Proof.
  exists (- ((z + 2 ^ 63) / 2 ^ 64)). unfold Int64.wrap.
  rewrite Z.mod_eq by lia. lia.
Qed.

Lemma sub_add_cancel v c : Int64.in_range v → Int64.sub (Int64.add v c) c = v.
Proof.
  intros Hv. unfold Int64.sub, Int64.add.
  destruct (wrap_decompose (v + c)) as [k ->].
  replace (v + c + k * 2 ^ 64 - c) with (v + k * 2 ^ 64) by lia.
  rewrite wrap_shift. by apply wrap_in_range.
Qed.

(** ** The branches of [calculateScore] *)

Lemma calculateScore_by_branch now b node cost k :
  calculateScore now b node cost k =
    match scoreBranch now b node cost k, cost with
    | GeneralBranch, Some c => generalScore c k
    | IdleBranch, _ => zero
    | _, _ => fallbackScore k
    end.
Proof.
  unfold calculateScore, scoreBranch, generalScore, workloadOf, fallbackScore.
  destruct cost as [c|]; [|done].
  destruct ((ResponseTime c =? 0) || (ServiceTime c =? 0)); [done|].
  by destruct ((k =? 0) && (TotalNQ c =? 0) && isNodeCostMetricsTooOld now b node).
Qed.

Lemma scoreBranch_fallback_iff now b node cost k :
  scoreBranch now b node cost k = FallbackBranch ↔
  cost = None ∨ ∃ c, cost = Some c ∧ (ResponseTime c = 0 ∨ ServiceTime c = 0).
Proof.
  unfold scoreBranch. destruct cost as [c|]; [|naive_solver].
  destruct (Z.eqb_spec (ResponseTime c) 0), (Z.eqb_spec (ServiceTime c) 0); simpl;
    try (split; [intros _; right; exists c; tauto|done]).
  destruct ((k =? 0) && _ && _); split; try done; intros [?|(c' & [= <-] & [?|?])]; done.
Qed.

(** ** Reachability of the selected node *)

(** C2: a node that is in the Unreachability Set when [SelectNode] is called
    is never returned; on success the returned node is an element of
    [availableNodes] that is not in the set. *)
Theorem SelectNode_returns_reachable_candidate now b l cost n :
  (SelectNode now b l cost).2 = inr n →
  n ∈ l ∧ (n ∉ unreachableQueryNodes b)
  ∧ ∀ u, u ∈ unreachableQueryNodes b → n ≠ u.
Proof.
  intros H. destruct (SelectNode now b l cost) as [b' r] eqn:E.
  simpl in H. subst r.
  destruct (SelectNode_success _ _ _ _ _ _ E) as (_ & Hin & Hs & _).
  split_and!; [done|done|]. intros u Hu ->. by apply Hs.
Qed.

Lemma SelectNode_returns_reachable_candidate_witness :
  5 ∈ [4; 5; 6] ∧ (5 ∉ unreachableQueryNodes Scenario.some_unreachable)
  ∧ ∀ u, u ∈ unreachableQueryNodes Scenario.some_unreachable → 5 ≠ u.
Proof.
  apply (SelectNode_returns_reachable_candidate 0 Scenario.some_unreachable [4; 5; 6] 3 5).
  vm_compute. reflexivity.
Defined.

(** ** In-flight accounting *)

(** C5: a successful [SelectNode] returning [n] for cost [c] leaves the
    counter of [n] at its previous value plus [c] (an [int64] addition, which
    is the mathematical sum whenever that sum is representable), and
    [CancelWorkload n c] right after brings the counter back to the value it
    had before the dispatch. *)
Theorem SelectNode_adds_cost_and_cancel_restores now b l cost n :
  (SelectNode now b l cost).2 = inr n →
  Int64.in_range (inflight b n) →
  let b' := (SelectNode now b l cost).1 in
  inflight b' n = Int64.add (inflight b n) cost
  ∧ (Int64.in_range (inflight b n + cost) → inflight b' n = inflight b n + cost)
  ∧ inflight (CancelWorkload b' n cost) n = inflight b n.
Proof.
  intros H Hr. destruct (SelectNode now b l cost) as [b' r] eqn:E.
  simpl in H. subst r. cbv zeta. simpl fst.
  destruct (SelectNode_success _ _ _ _ _ _ E) as (_ & _ & _ & _ & ->).
  assert (Hi : ∀ b1 v, inflight (set_executingTaskTotalNQ b1
              (<[n := v]> (executingTaskTotalNQ b1))) n = v).
  { intros b1 v. unfold inflight. simpl. by rewrite lookup_insert_eq. }
  rewrite Hi. split_and!; [done| |].
  - intros Hs. by apply wrap_in_range.
  - unfold CancelWorkload. cbn [executingTaskTotalNQ set_executingTaskTotalNQ].
    rewrite lookup_insert_eq. rewrite Hi. by apply sub_add_cancel.
Qed.

Lemma SelectNode_adds_cost_and_cancel_restores_witness :
  let b' := (SelectNode 0 Scenario.loaded [5] 3).1 in
  inflight b' 5 = Int64.add (inflight Scenario.loaded 5) 3
  ∧ (Int64.in_range (inflight Scenario.loaded 5 + 3) →
     inflight b' 5 = inflight Scenario.loaded 5 + 3)
  ∧ inflight (CancelWorkload b' 5 3) 5 = inflight Scenario.loaded 5.
Proof.
  apply (SelectNode_adds_cost_and_cancel_restores 0 Scenario.loaded [5] 3 5).
  - vm_compute. reflexivity.
  - vm_compute. split; discriminate.
Defined.

(** C10: a successful [SelectNode] changes the value of no counter but the
    chosen node's; for any other node the ledger entry is untouched, or it was
    absent and is created with value 0, which happens only for surviving
    candidates; the telemetry cache, the time stamps and the Unreachability
    Set are left as they were. *)
Theorem SelectNode_frame now b l cost n :
  (SelectNode now b l cost).2 = inr n →
  let b' := (SelectNode now b l cost).1 in
  metricsMap b' = metricsMap b
  ∧ metricsUpdateTs b' = metricsUpdateTs b
  ∧ unreachableQueryNodes b' = unreachableQueryNodes b
  ∧ ∀ m, m ≠ n →
      inflight b' m = inflight b m
      ∧ (executingTaskTotalNQ b' !! m = executingTaskTotalNQ b !! m
         ∨ (executingTaskTotalNQ b !! m = None
            ∧ executingTaskTotalNQ b' !! m = Some 0
            ∧ m ∈ l ∧ survives b m)).
Proof.
  intros H. destruct (SelectNode now b l cost) as [b' r] eqn:E.
  simpl in H. subst r. cbv zeta. simpl fst.
  destruct (SelectNode_success _ _ _ _ _ _ E) as (_ & _ & _ & _ & ->).
  pose proof (selectLoop_inflight now l b (-1) MaxFloat64) as Hi.
  destruct (selectLoop_state now l b (-1) MaxFloat64) as (H1 & H2 & H3 & H4 & H5 & H6).
  set (b1 := (selectLoop now l b (-1) MaxFloat64).1.1) in *.
  split_and!; try done.
  intros m Hm.
  assert (Hl : executingTaskTotalNQ (set_executingTaskTotalNQ b1
            (<[n := Int64.add (inflight b n) cost]> (executingTaskTotalNQ b1))) !! m
          = executingTaskTotalNQ b1 !! m).
  { simpl. by rewrite lookup_insert_ne. }
  split.
  - unfold inflight at 1. rewrite Hl. apply Hi.
  - rewrite Hl. destruct (executingTaskTotalNQ b !! m) as [v|] eqn:Em.
    + left. by apply H4.
    + destruct (decide (m ∈ l ∧ survives b m)) as [[? ?]|Hn].
      * right. split_and!; try done. by apply H5.
      * left. by apply H6.
Qed.

Lemma SelectNode_frame_witness :
  let b := Scenario.loaded in
  let b' := (SelectNode 0 b [5; 9] 3).1 in
  metricsMap b' = metricsMap b
  ∧ metricsUpdateTs b' = metricsUpdateTs b
  ∧ unreachableQueryNodes b' = unreachableQueryNodes b
  ∧ ∀ m, m ≠ 9 →
      inflight b' m = inflight b m
      ∧ (executingTaskTotalNQ b' !! m = executingTaskTotalNQ b !! m
         ∨ (executingTaskTotalNQ b !! m = None
            ∧ executingTaskTotalNQ b' !! m = Some 0
            ∧ m ∈ [5; 9] ∧ survives b m)).
Proof.
  apply (SelectNode_frame 0 Scenario.loaded [5; 9] 3 9).
  vm_compute. reflexivity.
Defined.

(** ** Failure of [SelectNode] *)

(** Once [targetNode] differs from -1 it stays so, as long as no surviving
    candidate is -1 itself. *)
Lemma selectLoop_target_set now l b t s :
  (∀ n, n ∈ l → survives b n → n ≠ -1) → t ≠ -1 →
  (selectLoop now l b t s).1.2 ≠ -1.
Proof.
  intros Hl Ht. destruct (selectLoop_target now l b t s) as [->|[? ?]]; auto.
Qed.

(** The first surviving candidate replaces the initial -1. *)
Lemma selectLoop_picks now l : ∀ b t s,
  (∀ n, n ∈ l → survives b n → n ≠ -1) →
  (∃ n, n ∈ l ∧ survives b n) →
  (selectLoop now l b t s).1.2 ≠ -1.
Proof.
  induction l as [|node rest IH]; intros b t s Hl (n & Hin & Hs).
  - by apply elem_of_nil in Hin.
  - assert (Hrest : ∀ m, m ∈ rest → survives b m → m ≠ -1).
    { intros m Hm. apply Hl, elem_of_cons. by right. }
    destruct (decide (survives b node)) as [Hsn|Hsn].
    + rewrite selectLoop_cons_survivor by done. cbv zeta.
      destruct (getOrCreateCounter_spec b node) as (_ & _ & _ & G3 & _ & _).
      set (b1 := (getOrCreateCounter b node).1) in *.
      assert (Hrest1 : ∀ m, m ∈ rest → survives b1 m → m ≠ -1).
      { intros m Hm. unfold survives. rewrite G3. by apply Hrest. }
      assert (Hnode : node ≠ -1) by (apply Hl; [apply elem_of_cons; by left|done]).
      destruct (Z.eqb_spec t (-1)) as [->|Ht]; simpl.
      * by apply selectLoop_target_set.
      * destruct (ltb _ _); by apply selectLoop_target_set.
    + rewrite selectLoop_cons_unreachable by done.
      apply IH; [done|]. exists n. split; [|done].
      apply elem_of_cons in Hin as [->|?]; done.
Qed.

(** C3 as amended: when no candidate survives the unreachability filter (in
    particular when [availableNodes] is empty) [SelectNode] returns the
    ServiceUnavailable error carrying the message
    "all available nodes are unreachable" and the balancer is unchanged.
    The converse needs -1, the value the loop uses for "no node chosen yet",
    not to be a surviving candidate: then [SelectNode] fails if and only if no
    candidate survives. *)
Theorem SelectNode_fails_iff_all_unreachable now b l cost :
  ((∀ n, n ∈ l → ¬ survives b n) →
   SelectNode now b l cost = (b, inl unavailable)
   ∧ unavailable = ErrServiceUnavailable "all available nodes are unreachable")
  ∧ ((∀ n, n ∈ l → survives b n → n ≠ -1) →
     ((∃ e, (SelectNode now b l cost).2 = inl e) ↔ (∀ n, n ∈ l → ¬ survives b n))).
Proof.
  assert (Hall : (∀ n, n ∈ l → ¬ survives b n) →
                 SelectNode now b l cost = (b, inl unavailable)).
  { intros H. unfold SelectNode. by rewrite selectLoop_all_unreachable. }
  split; [|intros Hl; split].
  - intros H. by rewrite Hall.
  - intros [e He] n Hin Hs.
    destruct (SelectNode_unfold now b l cost) as [[Ht _]|(_ & _ & _ & E)].
    + revert Ht. apply selectLoop_picks; [done|]. by exists n.
    + by rewrite E in He.
  - intros H. exists unavailable. by rewrite Hall.
Qed.

(** Spec scenario 4: both candidates are unreachable. *)
Lemma SelectNode_fails_iff_all_unreachable_witness :
  let b := Scenario.some_unreachable in
  SelectNode 0 b [4; 6] 5 = (b, inl unavailable)
  ∧ unavailable = ErrServiceUnavailable "all available nodes are unreachable"
  ∧ ((∃ e, (SelectNode 0 b [4; 6] 5).2 = inl e) ↔ (∀ n, n ∈ [4; 6] → ¬ survives b n)).
Proof.
  cbv zeta.
  destruct (SelectNode_fails_iff_all_unreachable 0 Scenario.some_unreachable [4; 6] 5)
    as [Hfail Hiff].
  assert (Hin : ∀ n, n ∈ [4; 6] → n = 4 ∨ n = 6).
  { intros n Hn. apply elem_of_cons in Hn as [->|Hn]; [by left|].
    apply elem_of_cons in Hn as [->|Hn]; [by right|]. by apply elem_of_nil in Hn. }
  split_and!.
  - apply Hfail. intros n Hn Hs. apply Hs.
    destruct (Hin n Hn) as [->| ->]; vm_compute; reflexivity.
  - reflexivity.
  - apply Hiff. intros n Hn _. destruct (Hin n Hn) as [->| ->]; lia.
Defined.

(** C3 as stated fails on the list [[-1]]: the candidate -1 survives the
    filter, yet the call ends with ServiceUnavailable, and it has created a
    ledger entry for -1 on the way. *)
Lemma SelectNode_fails_with_reachable_candidate :
  let b := NewLookAsideBalancer in
  let r := SelectNode 0 b [-1] 5 in
  (-1) ∈ [-1] ∧ survives b (-1)
  ∧ r.2 = inl unavailable
  ∧ executingTaskTotalNQ b !! (-1) = None
  ∧ executingTaskTotalNQ r.1 !! (-1) = Some 0
  ∧ r.1 ≠ b.
Proof.
  cbv zeta. split_and!.
  - apply elem_of_cons. by left.
  - unfold survives. set_solver.
  - vm_compute. reflexivity.
  - reflexivity.
  - vm_compute. reflexivity.
  - intros E. apply (f_equal (λ x, executingTaskTotalNQ x !! (-1))) in E.
    vm_compute in E. discriminate.
Qed.

(** ** Staleness of telemetry *)

(** C8: the predicate holds exactly when the node has a recorded, non-zero
    time stamp and [now - lastUpdateTs] (an [int64] subtraction, the
    mathematical difference whenever that is representable) exceeds
    [CostMetricsExpireTime], which is 1000 ms.  A node without a time stamp,
    or with time stamp 0, is never too old, and [calculateScore] never takes
    the idle shortcut for it. *)
Theorem isNodeCostMetricsTooOld_spec now b node :
  CostMetricsExpireTime = 1000
  ∧ (isNodeCostMetricsTooOld now b node = true ↔
     ∃ ts, metricsUpdateTs b !! node = Some ts ∧ ts ≠ 0
           ∧ Int64.sub now ts > CostMetricsExpireTime)
  ∧ (∀ ts, metricsUpdateTs b !! node = Some ts → ts ≠ 0 →
           Int64.in_range (now - ts) →
           (isNodeCostMetricsTooOld now b node = true ↔
            now - ts > CostMetricsExpireTime))
  ∧ (metricsUpdateTs b !! node = None ∨ metricsUpdateTs b !! node = Some 0 →
     isNodeCostMetricsTooOld now b node = false
     ∧ ∀ cost k, scoreBranch now b node cost k ≠ IdleBranch
                 ∧ calculateScore now b node cost k =
                     match scoreBranch now b node cost k, cost with
                     | GeneralBranch, Some c => generalScore c k
                     | _, _ => fallbackScore k
                     end).
Proof.
  assert (Hspec : isNodeCostMetricsTooOld now b node = true ↔
     ∃ ts, metricsUpdateTs b !! node = Some ts ∧ ts ≠ 0
           ∧ Int64.sub now ts > CostMetricsExpireTime).
  { unfold isNodeCostMetricsTooOld.
    destruct (metricsUpdateTs b !! node) as [ts|];
      [|split; [done|]; intros (ts & ? & _); done].
    destruct (Z.eqb_spec ts 0) as [->|Hne].
    - split; [done|]. intros (ts & [= <-] & ? & _). done.
    - rewrite Z.ltb_lt. split.
      + intros H. exists ts. split_and!; [done|done|lia].
      + intros (ts' & [= <-] & _ & H). lia. }
  split_and!; [done|done| |].
  - intros ts Hts Hne Hr. unfold isNodeCostMetricsTooOld. rewrite Hts.
    destruct (Z.eqb_spec ts 0); [done|]. unfold Int64.sub.
    rewrite wrap_in_range by done. rewrite Z.ltb_lt. lia.
  - intros Hno.
    assert (Hold : isNodeCostMetricsTooOld now b node = false).
    { apply not_true_is_false. rewrite Hspec. intros (ts & E & Hne & _).
      destruct Hno as [Hno|Hno]; rewrite Hno in E; [done|]. by injection E as <-. }
    split; [done|]. intros cost k.
    assert (Hb : scoreBranch now b node cost k ≠ IdleBranch).
    { unfold scoreBranch. rewrite Hold. destruct cost as [c|]; [|done].
      destruct (_ || _); [done|]. by rewrite andb_false_r. }
    split; [done|]. rewrite calculateScore_by_branch.
    by destruct (scoreBranch now b node cost k).
Qed.

(** ** Health probe *)

(** C9: a probe inserts the node into the Unreachability Set if and only if
    [GetClient] fails, or [GetComponentStates] fails, or the reported state
    code is not [Healthy]; it then changes nothing else.  Otherwise the node's
    time stamp becomes the current time and the node is removed from the set
    (a no-op if it was not a member).  Hence the node is unreachable after the
    probe exactly in the unhealthy case. *)
Theorem probeNode_spec now answer b node :
  let unhealthy :=
    answer = GetClientFailed ∨ answer = GetComponentStatesFailed
    ∨ ∃ code, answer = ComponentStates code ∧ code ≠ Healthy in
  let b' := probeNode now answer b node in
  metricsMap b' = metricsMap b
  ∧ executingTaskTotalNQ b' = executingTaskTotalNQ b
  ∧ (unhealthy →
       unreachableQueryNodes b' = {[node]} ∪ unreachableQueryNodes b
       ∧ metricsUpdateTs b' = metricsUpdateTs b)
  ∧ (¬ unhealthy →
       answer = ComponentStates Healthy
       ∧ metricsUpdateTs b' = <[node := now]> (metricsUpdateTs b)
       ∧ unreachableQueryNodes b' = unreachableQueryNodes b ∖ {[node]})
  ∧ (node ∈ unreachableQueryNodes b' ↔ unhealthy).
Proof.
  cbv zeta.
  set (unhealthy := answer = GetClientFailed ∨ answer = GetComponentStatesFailed
                    ∨ ∃ code, answer = ComponentStates code ∧ code ≠ Healthy).
  destruct (decide (answer = ComponentStates Healthy)) as [->|Hne].
  - assert (Hh : ¬ unhealthy).
    { intros [?|[?|(c & E & ?)]]; try done. by injection E as <-. }
    simpl. split_and!; try done.
    split; [|done]. intros Hin. apply elem_of_difference in Hin as [_ Hin].
    exfalso. apply Hin. by apply elem_of_singleton.
  - assert (Hu : unhealthy).
    { unfold unhealthy. destruct answer as [| |code]; [by left|by right; left|].
      right; right. exists code. split; [done|]. by intros ->. }
    assert (E : probeNode now answer b node =
                mkBalancer (metricsMap b) (metricsUpdateTs b) (executingTaskTotalNQ b)
                           ({[node]} ∪ unreachableQueryNodes b)).
    { destruct answer as [| |[]]; done. }
    rewrite E. simpl. split_and!; try done.
    split; [done|]. intros _. apply elem_of_union. left. by apply elem_of_singleton.
Qed.

(** The value returned by [SelectNode] in terms of the loop's result. *)
Lemma SelectNode_result now b l cost :
  (SelectNode now b l cost).2 =
    let t := (selectLoop now l b (-1) MaxFloat64).1.2 in
    if t =? -1 then inl unavailable else inr t.
Proof.
  cbv zeta.
  destruct (SelectNode_unfold now b l cost) as [[Ht E]|(Ht & _ & _ & E)]; rewrite E; simpl.
  - by rewrite Ht.
  - by destruct (Z.eqb_spec (selectLoop now l b (-1) MaxFloat64).1.2 (-1)).
Qed.

(** The loop on two surviving candidates. *)
Lemma selectLoop_target_two now b n1 n2 :
  survives b n1 → survives b n2 →
  (selectLoop now [n1; n2] b (-1) MaxFloat64).1.2 =
    if (n1 =? -1) || ltb (scoreOf now b n2) (scoreOf now b n1) then n2 else n1.
Proof.
  intros S1 S2. rewrite selectLoop_cons_survivor by done. cbv zeta.
  change ((-1 =? -1) || _) with true. cbv iota.
  destruct (getOrCreateCounter_spec b n1) as (_ & _ & _ & G3 & _ & _).
  rewrite selectLoop_cons_survivor by (unfold survives; by rewrite G3).
  cbv zeta. rewrite scoreOf_getOrCreateCounter.
  by destruct ((n1 =? -1) || _).
Qed.

(** ** Spec scenario 3: an all-zero aggregation *)

(** An aggregation whose [ResponseTime] or [ServiceTime] is 0 is scored by
    the load-only fallback, whatever its age: the test of line 143 comes
    before the idle shortcut. *)
Lemma zero_times_take_fallback now b node c k :
  ResponseTime c = 0 ∨ ServiceTime c = 0 →
  scoreBranch now b node (Some c) k = FallbackBranch
  ∧ calculateScore now b node (Some c) k = fallbackScore k.
Proof.
  intros H.
  assert (E : scoreBranch now b node (Some c) k = FallbackBranch).
  { apply scoreBranch_fallback_iff. right. by exists c. }
  split; [done|]. by rewrite calculateScore_by_branch, E.
Qed.

Lemma fallbackScore_0 : fallbackScore 0 = one.
Proof. vm_compute. reflexivity. Qed.

(** C4 as amended: with the expiry threshold at 1 s, a node 7 whose cached
    aggregation is all zero, stamped 2 s ago, with nothing in flight, is
    scored 1 through the fallback branch (not 0 through the idle shortcut);
    the never-observed node 8 with nothing in flight is scored 1 through the
    same branch; and [SelectNode] over [[8; 7]] returns 8, the first of the
    two tied candidates. *)
Theorem idle_scenario_selects_first now b cost :
  getCost b 7 = Some (mkCost 0 0 0) →
  metricsUpdateTs b !! 7 = Some (now - 2000) →
  inflight b 7 = 0 →
  getCost b 8 = None →
  metricsUpdateTs b !! 8 = None →
  inflight b 8 = 0 →
  survives b 7 → survives b 8 →
  CostMetricsExpireTime = 1000
  ∧ scoreBranch now b 7 (getCost b 7) (inflight b 7) = FallbackBranch
  ∧ scoreOf now b 7 = one
  ∧ scoreBranch now b 8 (getCost b 8) (inflight b 8) = FallbackBranch
  ∧ scoreOf now b 8 = one
  ∧ (SelectNode now b [8; 7] cost).2 = inr 8.
Proof.
  intros C7 T7 I7 C8 T8 I8 S7 S8.
  assert (E7 : scoreOf now b 7 = one).
  { unfold scoreOf. rewrite C7, I7.
    rewrite (proj2 (zero_times_take_fallback now b 7 (mkCost 0 0 0) 0 (or_introl eq_refl))).
    apply fallbackScore_0. }
  assert (E8 : scoreOf now b 8 = one).
  { unfold scoreOf. rewrite C8, I8. apply fallbackScore_0. }
  split_and!; try done.
  - rewrite C7. by apply zero_times_take_fallback; left.
  - by rewrite C8.
  - rewrite SelectNode_result, selectLoop_target_two by done.
    rewrite E7, E8. reflexivity.
Qed.

Lemma idle_scenario_selects_first_witness :
  let now := Scenario.idle_now in
  let b := Scenario.idle in
  CostMetricsExpireTime = 1000
  ∧ scoreBranch now b 7 (getCost b 7) (inflight b 7) = FallbackBranch
  ∧ scoreOf now b 7 = one
  ∧ scoreBranch now b 8 (getCost b 8) (inflight b 8) = FallbackBranch
  ∧ scoreOf now b 8 = one
  ∧ (SelectNode now b [8; 7] 1).2 = inr 8.
Proof.
  apply (idle_scenario_selects_first Scenario.idle_now Scenario.idle 1);
    try (vm_compute; reflexivity);
    unfold survives; simpl; apply not_elem_of_empty.
Defined.

(** C4 as stated fails in its own scenario: node 7 is scored 1, not 0, its
    branch is the fallback and not the idle shortcut, and [SelectNode] over
    [[8; 7]] returns 8, not 7. *)
Lemma idle_scenario_not_shortcut :
  let now := Scenario.idle_now in
  let b := Scenario.idle in
  getCost b 7 = Some (mkCost 0 0 0)
  ∧ metricsUpdateTs b !! 7 = Some (now - 2000)
  ∧ inflight b 7 = 0
  ∧ isNodeCostMetricsTooOld now b 7 = true
  ∧ scoreBranch now b 7 (getCost b 7) (inflight b 7) ≠ IdleBranch
  ∧ scoreOf now b 7 = one
  ∧ scoreOf now b 7 ≠ zero
  ∧ (SelectNode now b [8; 7] 1).2 = inr 8
  ∧ (SelectNode now b [8; 7] 1).2 ≠ inr 7.
Proof.
  cbv zeta. split_and!; try (vm_compute; reflexivity); vm_compute; discriminate.
Qed.

(** ** The order on doubles *)

Module FloatOrder.

Lemma ltb_not_nan x y : ltb x y = true → is_nan x = false ∧ is_nan y = false.
Proof. destruct x, y; simpl; try done. Qed.

Lemma ltb_key x y :
  is_nan x = false → is_nan y = false →
  (ltb x y = true ↔ lex_lt (key x) (key y)).
Proof.
  unfold ltb, SFltb, lex_lt.
  destruct x as [sx|sx| |sx mx ex], y as [sy|sy| |sy my ey]; try done; intros _ _;
    try destruct sx; try destruct sy; simpl;
    try (split; [intros; lia|done]);
    try (split; [done|intros; lia]).
  - destruct (Z.compare_spec ex ey) as [->|?|?];
      try (split; [intros; lia|done]); try (split; [done|intros; lia]).
    change (Pos.compare_cont Eq mx my) with (mx ?= my)%positive.
    destruct (Pos.compare_spec mx my) as [->|?|?]; simpl;
      try (split; [intros; lia|done]); try (split; [done|intros; lia]).
  - destruct (Z.compare_spec ex ey) as [->|?|?];
      try (split; [intros; lia|done]); try (split; [done|intros; lia]).
    change (Pos.compare_cont Eq mx my) with (mx ?= my)%positive.
    destruct (Pos.compare_spec mx my) as [->|?|?]; simpl;
      try (split; [intros; lia|done]); try (split; [done|intros; lia]).
Qed.

Lemma lex_lt_trans a b c : lex_lt a b → lex_lt b c → lex_lt a c.
Proof. unfold lex_lt. lia. Qed.

Lemma lex_lt_neg_trans a b c : lex_lt a c → ¬ lex_lt b c → lex_lt a b.
Proof. unfold lex_lt. lia. Qed.

Lemma lex_lt_irrefl a : ¬ lex_lt a a.
Proof. unfold lex_lt. lia. Qed.

Lemma ltb_irrefl x : ltb x x = false.
Proof.
  destruct (is_nan x) eqn:E; [by destruct x|].
  apply not_true_is_false. rewrite ltb_key by done. apply lex_lt_irrefl.
Qed.

Lemma ltb_trans x y z : ltb x y = true → ltb y z = true → ltb x z = true.
Proof.
  intros Hxy Hyz.
  destruct (ltb_not_nan _ _ Hxy) as [Nx Ny], (ltb_not_nan _ _ Hyz) as [_ Nz].
  rewrite ltb_key in * by done. by eapply lex_lt_trans.
Qed.

(** On doubles that are not NaN the order is total up to equal rank: what is
    below [z] is below everything that is not below [z]. *)
Lemma ltb_neg_trans x y z :
  is_nan y = false → ltb x z = true → ltb y z = false → ltb x y = true.
Proof.
  intros Ny Hxz Hyz.
  destruct (ltb_not_nan _ _ Hxz) as [Nx Nz].
  apply not_true_iff_false in Hyz.
  rewrite ltb_key in * by done. by eapply lex_lt_neg_trans.
Qed.

End FloatOrder.

(** ** Rounding: magnitude and sign *)

Module FloatBounds.

Lemma pow2_pos n : 0 ≤ n → 0 < 2 ^ n.
Proof. intros. by apply Z.pow_pos_nonneg. Qed.

Lemma pow2_split a b : 0 ≤ b ≤ a → 2 ^ a = 2 ^ (a - b) * 2 ^ b.
Proof. intros. rewrite <- Z.pow_add_r by lia. f_equal. lia. Qed.

Lemma pow2_le a b : a ≤ b → 2 ^ a ≤ 2 ^ b.
Proof.
  intros. destruct (Z.le_gt_cases 0 a).
  - apply Z.pow_le_mono_r; lia.
  - rewrite (Z.pow_neg_r 2 a) by lia. apply Z.pow_nonneg. lia.
Qed.

Lemma pow2_lt a b : 0 ≤ b → a < b → 2 ^ a < 2 ^ b.
Proof.
  intros. destruct (Z.le_gt_cases 0 a).
  - apply Z.pow_lt_mono_r; lia.
  - rewrite (Z.pow_neg_r 2 a) by lia. by apply pow2_pos.
Qed.

(** A positive number below [2^n] forces [0 < n]. *)
Lemma pow2_gt_1 m n : 1 ≤ m → m < 2 ^ n → 0 < n.
Proof.
  intros Hm Hlt. destruct (Z.le_gt_cases n 0) as [Hn|Hn]; [|done].
  pose proof (pow2_le n 0 Hn) as H. simpl in H. lia.
Qed.

Lemma pow2_le_inv a b : 0 ≤ a → 2 ^ a ≤ 2 ^ b → a ≤ b.
Proof.
  intros Ha H. destruct (Z.le_gt_cases a b) as [|Hlt]; [done|].
  destruct (Z.le_gt_cases 0 b).
  - apply Z.pow_lt_mono_r with (a := 2) in Hlt; lia.
  - rewrite (Z.pow_neg_r 2 b) in H by lia. pose proof (pow2_pos a Ha). lia.
Qed.

Lemma digits_succ_0 p : digits p~0 = digits p + 1.
Proof. unfold digits. simpl. lia. Qed.

Lemma digits_succ_1 p : digits p~1 = digits p + 1.
Proof. unfold digits. simpl. lia. Qed.

Lemma digits_spec p : 1 ≤ digits p ∧ 2 ^ (digits p - 1) ≤ Zpos p < 2 ^ digits p.
Proof.
  induction p as [p IH|p IH|].
  - rewrite digits_succ_1. replace (digits p + 1 - 1) with (digits p) by lia.
    rewrite Z.pow_add_r by lia.
    rewrite (pow2_split (digits p) 1) in * by lia. lia.
  - rewrite digits_succ_0. replace (digits p + 1 - 1) with (digits p) by lia.
    rewrite Z.pow_add_r by lia.
    rewrite (pow2_split (digits p) 1) in * by lia. lia.
  - by vm_compute.
Qed.

Lemma digits_le p k : Zpos p < 2 ^ k → digits p ≤ k.
Proof.
  intros H. destruct (digits_spec p) as (H1 & H2 & _).
  destruct (Z.le_gt_cases (digits p) k) as [|Hlt]; [done|].
  pose proof (pow2_le k (digits p - 1)). lia.
Qed.

Lemma digits_unique p k : 2 ^ (k - 1) ≤ Zpos p < 2 ^ k → digits p = k.
Proof.
  intros [Hl Hu]. destruct (digits_spec p) as (H1 & H2 & H3).
  pose proof (digits_le p k Hu).
  destruct (Z.le_gt_cases k (digits p)) as [|Hlt]; [lia|].
  pose proof (pow2_le (digits p) (k - 1)). lia.
Qed.

(** *** Right shifts *)

Lemma iter_pos_nat {A} (f : A → A) p : ∀ x,
  SpecFloat.iter_pos f p x = Nat.iter (Pos.to_nat p) f x.
Proof.
  induction p as [p IH|p IH|]; intros x; cbn [SpecFloat.iter_pos].
  - rewrite !IH, Pos2Nat.inj_xI, <- Nat.iter_succ_r.
    rewrite <- Nat.iter_add. f_equal. lia.
  - rewrite !IH, Pos2Nat.inj_xO, <- Nat.iter_add. f_equal. lia.
  - done.
Qed.

Lemma shr_1_m mrs : 0 ≤ shr_m mrs → shr_m (shr_1 mrs) = shr_m mrs / 2.
Proof.
  destruct mrs as [m r s]. simpl. intros Hm.
  rewrite <- Z.div2_div. by destruct m as [|[p|p|]|p].
Qed.

Lemma shr_iter_m n : ∀ mrs, 0 ≤ shr_m mrs →
  shr_m (Nat.iter n shr_1 mrs) = shr_m mrs / 2 ^ Z.of_nat n.
Proof.
  induction n as [|n IH]; intros mrs Hm.
  - simpl. by rewrite Z.div_1_r.
  - rewrite Nat.iter_succ, shr_1_m.
    + rewrite IH by done. rewrite Nat2Z.inj_succ, Z.pow_succ_r by lia.
      rewrite Z.div_div by (try apply pow2_pos; lia). f_equal. lia.
    + rewrite IH by done. apply Z.div_pos; [done|]. apply pow2_pos. lia.
Qed.

Lemma shr_spec mrs e n : 0 ≤ shr_m mrs →
  let k := Z.max 0 n in
  shr_m (shr mrs e n).1 = shr_m mrs / 2 ^ k ∧ (shr mrs e n).2 = e + k.
Proof.
  intros Hm. destruct n as [|p|p]; simpl.
  - rewrite Z.div_1_r. split; [done|lia].
  - rewrite iter_pos_nat, shr_iter_m by done. rewrite positive_nat_Z.
    split; [|done]. f_equal.
  - rewrite Z.div_1_r. split; [done|lia].
Qed.

(** *** Rounding a positive mantissa *)

Lemma round_nearest_even_range m l :
  m ≤ round_nearest_even m l ≤ m + 1.
Proof.
  destruct l as [|[]]; simpl; try lia. destruct (Z.even m); lia.
Qed.

Lemma fexp_le x K : x ≤ K → -1074 < K → fexp prec emax x < K.
Proof. unfold fexp, emin, prec, emax. lia. Qed.

(** Rounding never reaches past the next power of two, keeps the sign, and
    yields a zero or a finite double as long as that power is in range. *)
Lemma binary_round_aux_bounded sx (m : positive) e K :
  Zpos m < 2 ^ (K - e) → -1074 < K ≤ 971 →
  bounded_by (K + 1) (binary_round_aux prec emax sx (Zpos m) e loc_Exact)
  ∧ sign_is sx (binary_round_aux prec emax sx (Zpos m) e loc_Exact).
Proof.
  intros Hm HK. unfold binary_round_aux, shr_fexp.
  assert (HeK : e < K) by (pose proof (pow2_gt_1 (Zpos m) (K - e)); lia).
  set (n1 := fexp prec emax (Zdigits2 (Zpos m) + e) - e).
  assert (Hn1 : e + Z.max 0 n1 < K).
  { pose proof (digits_le m (K - e) Hm) as Hd.
    pose proof (fexp_le (Zdigits2 (Zpos m) + e) K) as Hf.
    unfold Zdigits2 in *. unfold digits in Hd. lia. }
  change (shr_record_of_loc (Zpos m) loc_Exact)
    with (Build_shr_record (Zpos m) false false).
  destruct (shr_spec (Build_shr_record (Zpos m) false false) e n1) as [Hm1 He1];
    [simpl; lia|].
  destruct (shr (Build_shr_record (Zpos m) false false) e n1) as [mrs1 e1].
  cbn [fst snd shr_m] in Hm1, He1.
  set (k1 := Z.max 0 n1) in *.
  assert (Hb1 : 0 ≤ shr_m mrs1 < 2 ^ (K - e1)).
  { rewrite Hm1. split.
    - apply Z.div_pos; [lia|]. apply pow2_pos. lia.
    - apply Z.div_lt_upper_bound; [apply pow2_pos; lia|].
      rewrite Z.mul_comm, <- Z.pow_add_r by lia.
      replace (K - e1 + k1) with (K - e) by lia. done. }
  pose proof (round_nearest_even_range (shr_m mrs1) (loc_of_shr_record mrs1)) as Hr.
  set (m1 := round_nearest_even (shr_m mrs1) (loc_of_shr_record mrs1)) in *.
  set (n2 := fexp prec emax (Zdigits2 m1 + e1) - e1).
  change (shr_record_of_loc m1 loc_Exact) with (Build_shr_record m1 false false).
  destruct (shr_spec (Build_shr_record m1 false false) e1 n2) as [Hm2 He2];
    [simpl; lia|].
  destruct (shr (Build_shr_record m1 false false) e1 n2) as [mrs2 e2].
  cbn [fst snd shr_m] in Hm2, He2.
  set (k2 := Z.max 0 n2) in *.
  assert (Hk2 : 0 ≤ k2) by lia.
  destruct (shr_m mrs2) as [|q|q] eqn:Eq.
  - done.
  - assert (Hq : 2 ^ k2 ≤ m1).
    { destruct (Z.le_gt_cases (2 ^ k2) m1) as [|Hlt]; [done|].
      rewrite Z.div_small in Hm2 by lia. done. }
    assert (Hke : k2 ≤ K - e1).
    { apply pow2_le_inv; [done|]. lia. }
    assert (Hfin : (e2 <=? emax - prec) = true).
    { apply Z.leb_le. unfold emax, prec. lia. }
    rewrite Hfin. simpl. split; [|done].
    rewrite Hm2.
    apply Z.le_lt_trans with (2 ^ (K - e2)).
    + apply Z.div_le_upper_bound; [apply pow2_pos; lia|].
      rewrite <- Z.pow_add_r by lia.
      replace (k2 + (K - e2)) with (K - e1) by lia. lia.
    + apply pow2_lt; lia.
  - exfalso. assert (0 ≤ m1 / 2 ^ k2); [|lia].
    apply Z.div_pos; [lia|]. by apply pow2_pos.
Qed.

(** *** Left alignment *)

Lemma iter_xO m d : Zpos (Pos.iter xO m d) = Zpos m * 2 ^ Zpos d.
Proof.
  induction d as [|d IH] using Pos.peano_ind.
  - simpl. lia.
  - rewrite Pos.iter_succ, Pos2Z.inj_xO, IH, Pos2Z.inj_succ, Z.pow_succ_r by lia. lia.
Qed.

Lemma shl_align_spec m e e' :
  let r := shl_align m e e' in
  r.2 = Z.min e e' ∧ Zpos r.1 = Zpos m * 2 ^ (e - r.2).
Proof.
  unfold shl_align. destruct (e' - e) as [|d|d] eqn:E; simpl.
  - rewrite Z.sub_diag. lia.
  - rewrite Z.sub_diag. lia.
  - rewrite iter_xO. split; [lia|]. f_equal. f_equal. lia.
Qed.

(** *** The operations *)

Lemma bounded_by_mono K K' x : K ≤ K' → bounded_by K x → bounded_by K' x.
Proof.
  intros HK. destruct x as [| | |s m e]; simpl; try done.
  intros H. eapply Z.lt_le_trans; [exact H|]. apply pow2_le. lia.
Qed.

Lemma bounded_by_finite K x : bounded_by K x → is_finite x = true.
Proof. by destruct x. Qed.

Lemma binary_round_bounded sx (m : positive) e K :
  Zpos m < 2 ^ (K - e) → -1074 < K ≤ 971 →
  bounded_by (K + 1) (binary_round prec emax sx m e)
  ∧ sign_is sx (binary_round prec emax sx m e).
Proof.
  intros Hm HK. unfold binary_round.
  destruct (shl_align_spec m e (fexp prec emax (Zpos (digits2_pos m) + e))) as [H2 H1].
  destruct (shl_align _ _ _) as [mz ez]. cbn [fst snd] in *.
  apply binary_round_aux_bounded; [|done].
  assert (0 < K - e) by (pose proof (pow2_gt_1 (Zpos m) (K - e)); lia).
  rewrite H1, (pow2_split (K - ez) (e - ez)) by lia.
  replace (K - ez - (e - ez)) with (K - e) by lia.
  apply Z.mul_lt_mono_pos_r; [apply pow2_pos; lia|done].
Qed.

Lemma binary_normalize_bounded z e K :
  Z.abs z < 2 ^ (K - e) → -1074 < K ≤ 971 →
  bounded_by (K + 1) (binary_normalize prec emax z e false)
  ∧ sign_is (z <? 0) (binary_normalize prec emax z e false).
Proof.
  intros Hz HK. destruct z as [|p|p]; simpl.
  - done.
  - by apply binary_round_bounded.
  - by apply binary_round_bounded.
Qed.

Lemma of_int_bounded z :
  Int64.in_range z →
  bounded_by 65 (of_int z) ∧ sign_is (z <? 0) (of_int z).
Proof.
  intros Hz. apply (binary_normalize_bounded z 0 64); [|lia].
  unfold Int64.in_range, Int64.min_signed, Int64.max_signed in Hz.
  change (2 ^ (64 - 0)) with 18446744073709551616.
  change (2 ^ 63) with 9223372036854775808 in Hz. lia.
Qed.

Lemma mul_bounded Kx Ky sx sy x y :
  bounded_by Kx x → bounded_by Ky y → sign_is sx x → sign_is sy y →
  -1074 < Kx + Ky ≤ 971 →
  bounded_by (Kx + Ky + 1) (mul x y) ∧ sign_is (xorb sx sy) (mul x y).
Proof.
  intros Hx Hy Sx Sy HK.
  destruct x as [sx'| | |sx' mx ex], y as [sy'| | |sy' my ey]; simpl in *;
    try done; subst; try done.
  apply binary_round_aux_bounded; [|done].
  assert (0 < Kx - ex) by (pose proof (pow2_gt_1 (Zpos mx) (Kx - ex)); lia).
  assert (0 < Ky - ey) by (pose proof (pow2_gt_1 (Zpos my) (Ky - ey)); lia).
  replace (Kx + Ky - (ex + ey)) with ((Kx - ex) + (Ky - ey)) by lia.
  rewrite Z.pow_add_r, Pos2Z.inj_mul by lia.
  apply Z.mul_lt_mono_nonneg; lia.
Qed.

Lemma aligned_bound m e e' K :
  Zpos m < 2 ^ (K - e) → e' ≤ e →
  Zpos (shl_align m e e').1 < 2 ^ (K - e').
Proof.
  intros Hm He. destruct (shl_align_spec m e e') as [H2 H1].
  rewrite H1, H2, Z.min_r by done.
  assert (0 < K - e) by (pose proof (pow2_gt_1 (Zpos m) (K - e)); lia).
  rewrite (pow2_split (K - e') (e - e')) by lia.
  replace (K - e' - (e - e')) with (K - e) by lia.
  apply Z.mul_lt_mono_pos_r; [apply pow2_pos; lia|done].
Qed.

Lemma cond_Zopp_abs s z : Z.abs (cond_Zopp s z) = Z.abs z.
Proof. destruct s; simpl; lia. Qed.

Lemma sum_bound a b K e :
  Z.abs a < 2 ^ (K - e) → Z.abs b < 2 ^ (K - e) → 0 ≤ K - e →
  Z.abs (a + b) < 2 ^ (K + 1 - e) ∧ Z.abs (a - b) < 2 ^ (K + 1 - e).
Proof.
  intros Ha Hb HK. replace (K + 1 - e) with (Z.succ (K - e)) by lia.
  rewrite Z.pow_succ_r by done. lia.
Qed.

Lemma add_bounded K x y :
  bounded_by K x → bounded_by K y → -1074 < K + 1 ≤ 971 →
  bounded_by (K + 2) (add x y).
Proof.
  intros Hx Hy HK.
  destruct x as [sx'| | |sx' mx ex], y as [sy'| | |sy' my ey]; simpl in *; try done.
  - by destruct sx', sy'.
  - eapply Z.lt_le_trans; [exact Hy|]. apply pow2_le. lia.
  - eapply Z.lt_le_trans; [exact Hx|]. apply pow2_le. lia.
  - replace (K + 2) with (K + 1 + 1) by lia.
    apply binary_normalize_bounded; [|done].
    pose proof (Z.le_min_l ex ey) as Lx. pose proof (Z.le_min_r ex ey) as Ly.
    set (ez := Z.min ex ey) in *.
    pose proof (aligned_bound mx ex ez K Hx Lx) as Ax.
    pose proof (aligned_bound my ey ez K Hy Ly) as Ay.
    assert (0 < K - ez) by (apply (pow2_gt_1 _ _ (Pos2Z.pos_le_pos 1 _ (Pos.le_1_l _)) Ax)).
    apply sum_bound; rewrite ?cond_Zopp_abs; lia.
Qed.

Lemma sub_bounded K x y :
  bounded_by K x → bounded_by K y → -1074 < K + 1 ≤ 971 →
  bounded_by (K + 2) (sub x y).
Proof.
  intros Hx Hy HK.
  destruct x as [sx'| | |sx' mx ex], y as [sy'| | |sy' my ey]; simpl in *; try done.
  - by destruct sx', sy'.
  - eapply Z.lt_le_trans; [exact Hy|]. apply pow2_le. lia.
  - eapply Z.lt_le_trans; [exact Hx|]. apply pow2_le. lia.
  - replace (K + 2) with (K + 1 + 1) by lia.
    apply binary_normalize_bounded; [|done].
    pose proof (Z.le_min_l ex ey) as Lx. pose proof (Z.le_min_r ex ey) as Ly.
    set (ez := Z.min ex ey) in *.
    pose proof (aligned_bound mx ex ez K Hx Lx) as Ax.
    pose proof (aligned_bound my ey ez K Hy Ly) as Ay.
    assert (0 < K - ez) by (apply (pow2_gt_1 _ _ (Pos2Z.pos_le_pos 1 _ (Pos.le_1_l _)) Ax)).
    apply sum_bound; rewrite ?cond_Zopp_abs; lia.
Qed.

End FloatBounds.

(** ** Scores are finite doubles *)

Section ScoreFinite.

Import FloatBounds.

Lemma pow3_bounded s x :
  bounded_by 65 x → sign_is s x →
  bounded_by 197 (pow3 x) ∧ sign_is s (pow3 x).
Proof.
  intros Hx Sx. unfold pow3.
  destruct (mul_bounded 65 65 s s x x Hx Hx Sx Sx ltac:(lia)) as [H1 S1].
  destruct (mul_bounded 65 131 s (xorb s s) x (mul x x) Hx H1 Sx S1 ltac:(lia))
    as [H2 S2].
  split; [done|]. by destruct s.
Qed.

Lemma fallbackScore_bounded k :
  bounded_by 197 (fallbackScore k)
  ∧ sign_is (Int64.add 1 k <? 0) (fallbackScore k).
Proof.
  unfold fallbackScore.
  destruct (of_int_bounded (Int64.add 1 k) (wrap_range _)) as [H S].
  by apply pow3_bounded.
Qed.

Lemma workloadOf_bounded c k :
  Int64.in_range (ServiceTime c) →
  bounded_by 263 (workloadOf c k)
  ∧ sign_is (xorb (Int64.add (Int64.add 1 (TotalNQ c)) k <? 0) (ServiceTime c <? 0))
            (workloadOf c k).
Proof.
  intros HS. unfold workloadOf.
  destruct (of_int_bounded _ (wrap_range (Int64.add 1 (TotalNQ c) + k))) as [H1 S1].
  destruct (pow3_bounded _ _ H1 S1) as [H2 S2].
  destruct (of_int_bounded _ HS) as [H3 S3].
  apply (mul_bounded 197 65); try done.
Qed.

Lemma generalScore_finite c k :
  int64_cost c → is_finite (generalScore c k) = true.
Proof.
  intros (HR & HS & _). unfold generalScore.
  destruct (ltb (workloadOf c k) zero); [done|].
  apply (bounded_by_finite 265).
  apply (add_bounded 263).
  - apply (bounded_by_mono 67); [lia|]. apply (sub_bounded 65).
    + by apply of_int_bounded.
    + by apply of_int_bounded.
    + lia.
  - by apply workloadOf_bounded.
  - lia.
Qed.

Lemma calculateScore_finite now b node cost k :
  (∀ c, cost = Some c → int64_cost c) →
  is_finite (calculateScore now b node cost k) = true.
Proof.
  intros Hc. rewrite calculateScore_by_branch.
  destruct (scoreBranch now b node cost k), cost as [c|];
    try done; try (apply (bounded_by_finite 197), fallbackScore_bounded).
  apply generalScore_finite. by apply Hc.
Qed.

(** Whatever the telemetry and the load, the score of a candidate is a finite
    double: neither NaN nor an infinity. *)
Lemma scoreOf_finite now b node :
  int64_telemetry b → is_finite (scoreOf now b node) = true.
Proof.
  intros Hb. apply calculateScore_finite. intros c Hc. apply (Hb node).
  unfold getCost in Hc. destruct (metricsMap b !! node) as [o|]; simpl in Hc; by subst.
Qed.

Lemma scoreOf_not_nan now b node :
  int64_telemetry b → is_nan (scoreOf now b node) = false.
Proof.
  intros Hb. pose proof (scoreOf_finite now b node Hb).
  by destruct (scoreOf now b node).
Qed.

End ScoreFinite.

(** ** Minimum selection *)

Section Pick.

Variable score : Z → float64.
Variable alive : Z → bool.
Hypothesis score_not_nan : ∀ n, is_nan (score n) = false.

Lemma first_minimum_head n rest :
  alive n = true →
  (∀ m, m ∈ rest → alive m = true → ltb (score m) (score n) = false) →
  first_minimum score alive (n :: rest) 0 n.
Proof.
  intros An Hrest. split_and!; [done|done|intros j m Hj; lia|].
  intros [|j] m Hj Hm Am; [lia|]. apply Hrest; [|done].
  apply list_elem_of_lookup. by exists j.
Qed.

Lemma first_minimum_later n rest i x :
  first_minimum score alive rest i x →
  (alive n = true → ltb (score x) (score n) = true) →
  first_minimum score alive (n :: rest) (S i) x.
Proof.
  intros (Hi & Ax & Hbefore & Hafter) Hn. split_and!; [done|done| |].
  - intros [|j] m Hj Hm Am.
    + injection Hm as <-. by apply Hn.
    + apply (Hbefore j); [lia|done|done].
  - intros [|j] m Hj Hm Am; [lia|]. apply (Hafter j); [lia|done|done].
Qed.

(** The loop once a target is set: either nothing beats the incumbent, or the
    result is the first minimum of the remaining candidates and beats it. *)
Lemma pick_keeps l : ∀ t s,
  t ≠ -1 → (∀ n, n ∈ l → alive n = true → n ≠ -1) →
  let r := pick score alive l t s in
  (r = (t, s) ∧ ∀ m, m ∈ l → alive m = true → ltb (score m) s = false)
  ∨ (∃ i, first_minimum score alive l i r.1 ∧ r.2 = score r.1 ∧ ltb r.2 s = true).
Proof.
  induction l as [|n rest IH]; intros t s Ht Hl; cbn [pick].
  - left. split; [done|]. intros m Hm. by apply elem_of_nil in Hm.
  - assert (Hrest : ∀ m, m ∈ rest → alive m = true → m ≠ -1).
    { intros m Hm. apply Hl, elem_of_cons. by right. }
    destruct (alive n) eqn:An.
    + destruct (Z.eqb_spec t (-1)) as [|_]; [done|]. cbn [orb].
      assert (Hn : n ≠ -1) by (apply Hl; [apply elem_of_cons; by left|done]).
      destruct (ltb (score n) s) eqn:Hlt.
      * right. destruct (IH n (score n) Hn Hrest) as [[-> Hall]|(i & Hi & Hs & Hb)].
        -- exists 0%nat. split_and!; [|done|done].
           by apply first_minimum_head.
        -- exists (S i). split_and!; [|done|].
           ++ apply first_minimum_later; [done|]. intros _. by rewrite <- Hs.
           ++ by apply FloatOrder.ltb_trans with (score n).
      * destruct (IH t s Ht Hrest) as [[-> Hall]|(i & Hi & Hs & Hb)].
        -- left. split; [done|]. intros m Hm Am.
           apply elem_of_cons in Hm as [->|Hm]; [done|by apply Hall].
        -- right. exists (S i). split_and!; [|done|done].
           apply first_minimum_later; [done|]. intros _. rewrite <- Hs.
           by apply FloatOrder.ltb_neg_trans with s.
    + destruct (IH t s Ht Hrest) as [[-> Hall]|(i & Hi & Hs & Hb)].
      * left. split; [done|]. intros m Hm Am.
        apply elem_of_cons in Hm as [->|Hm]; [congruence|by apply Hall].
      * right. exists (S i). split_and!; [|done|done].
        apply first_minimum_later; [done|]. congruence.
Qed.

(** The loop from its initial state: with a live candidate in the list the
    result is the first minimum. *)
Lemma pick_first l : ∀ s,
  (∀ n, n ∈ l → alive n = true → n ≠ -1) →
  (∃ n, n ∈ l ∧ alive n = true) →
  let r := pick score alive l (-1) s in
  ∃ i, first_minimum score alive l i r.1 ∧ r.2 = score r.1.
Proof.
  induction l as [|n rest IH]; intros s Hl (x & Hx & Ax); cbn [pick].
  - by apply elem_of_nil in Hx.
  - assert (Hrest : ∀ m, m ∈ rest → alive m = true → m ≠ -1).
    { intros m Hm. apply Hl, elem_of_cons. by right. }
    destruct (alive n) eqn:An.
    + rewrite Z.eqb_refl. cbn [orb].
      assert (Hn : n ≠ -1) by (apply Hl; [apply elem_of_cons; by left|done]).
      destruct (pick_keeps rest n (score n) Hn Hrest) as [[-> Hall]|(i & Hi & Hs & Hb)].
      * exists 0%nat. split; [|done]. by apply first_minimum_head.
      * exists (S i). split; [|done].
        apply first_minimum_later; [done|]. intros _. by rewrite <- Hs.
    + apply elem_of_cons in Hx as [->|Hx]; [congruence|].
      destruct (IH s Hrest) as (i & Hi & Hs); [by exists x|].
      exists (S i). split; [|done].
      apply first_minimum_later; [done|]. congruence.
Qed.

(** A first minimum is a minimum. *)
Lemma first_minimum_least l i n m :
  first_minimum score alive l i n → m ∈ l → alive m = true →
  ltb (score m) (score n) = false.
Proof.
  intros (Hi & An & Hbefore & Hafter) Hm Am.
  apply list_elem_of_lookup in Hm as [j Hj].
  destruct (lt_eq_lt_dec j i) as [[Hlt| ->]|Hgt].
  - apply not_true_is_false. intros H.
    pose proof (FloatOrder.ltb_trans _ _ _ (Hbefore j m Hlt Hj Am) H) as Hc.
    by rewrite FloatOrder.ltb_irrefl in Hc.
  - rewrite Hi in Hj. injection Hj as <-. apply FloatOrder.ltb_irrefl.
  - by apply (Hafter j).
Qed.

End Pick.

Lemma pick_ext score score' alive alive' l :
  (∀ n, score n = score' n) → (∀ n, alive n = alive' n) →
  ∀ t s, pick score alive l t s = pick score' alive' l t s.
Proof.
  intros Hs Ha. induction l as [|n rest IH]; intros t s; cbn [pick]; [done|].
  by rewrite Hs, Ha, !IH.
Qed.

(** The loop variables of [SelectNode] follow [pick] on the scores computed
    from the balancer at the time of the call. *)
Lemma selectLoop_pick now l : ∀ b t s,
  ((selectLoop now l b t s).1.2, (selectLoop now l b t s).2)
  = pick (scoreOf now b) (λ n, bool_decide (survives b n)) l t s.
Proof.
  induction l as [|node rest IH]; intros b t s; [done|].
  cbn [pick]. destruct (decide (survives b node)) as [Hs|Hs].
  - rewrite selectLoop_cons_survivor, bool_decide_eq_true_2 by done. cbv zeta.
    destruct (getOrCreateCounter_spec b node) as (_ & _ & _ & G3 & _ & _).
    assert (E : ∀ t' s', pick (scoreOf now (getOrCreateCounter b node).1)
                  (λ n, bool_decide (survives (getOrCreateCounter b node).1 n)) rest t' s'
                = pick (scoreOf now b) (λ n, bool_decide (survives b n)) rest t' s').
    { apply pick_ext.
      - intros n. apply scoreOf_getOrCreateCounter.
      - intros n. apply bool_decide_ext. unfold survives. by rewrite G3. }
    destruct ((t =? -1) || _); by rewrite IH, E.
  - rewrite selectLoop_cons_unreachable, bool_decide_eq_false_2 by done. apply IH.
Qed.

(** The node the loop ends on is the first minimum among the surviving
    candidates, provided one exists and none of them is -1. *)
Lemma selectLoop_first_minimum now b l :
  int64_telemetry b →
  (∀ n, n ∈ l → survives b n → n ≠ -1) →
  (∃ n, n ∈ l ∧ survives b n) →
  ∃ i, first_minimum (scoreOf now b) (λ n, bool_decide (survives b n)) l i
         (selectLoop now l b (-1) MaxFloat64).1.2.
Proof.
  intros Hb Hl (x & Hx & Sx).
  assert (Hnan : ∀ n, is_nan (scoreOf now b n) = false)
    by (intros n; by apply scoreOf_not_nan).
  destruct (pick_first (scoreOf now b) (λ n, bool_decide (survives b n))
              Hnan l MaxFloat64) as (i & Hmin & _).
  { intros n Hn An. apply Hl; [done|]. by apply bool_decide_eq_true in An. }
  { exists x. split; [done|]. by apply bool_decide_eq_true. }
  exists i. by rewrite <- selectLoop_pick in Hmin.
Qed.

(** C1 as amended: when the cached aggregations hold [int64] values, no
    surviving candidate is -1 and at least one candidate survives the filter,
    [SelectNode] succeeds and returns the candidate at the first position
    whose score is strictly below the score of every surviving candidate
    before it and not above the score of any surviving candidate after it;
    in particular no surviving candidate has a smaller score. *)
Theorem SelectNode_selects_first_minimum now b l cost :
  int64_telemetry b →
  (∀ n, n ∈ l → survives b n → n ≠ -1) →
  (∃ n, n ∈ l ∧ survives b n) →
  ∃ n i,
    (SelectNode now b l cost).2 = inr n
    ∧ l !! i = Some n ∧ survives b n
    ∧ (∀ j m, (j < i)%nat → l !! j = Some m → survives b m →
              ltb (scoreOf now b n) (scoreOf now b m) = true)
    ∧ (∀ j m, (i < j)%nat → l !! j = Some m → survives b m →
              ltb (scoreOf now b m) (scoreOf now b n) = false)
    ∧ (∀ m, m ∈ l → survives b m →
            ltb (scoreOf now b m) (scoreOf now b n) = false).
Proof.
  intros Hb Hl Hex.
  destruct (selectLoop_first_minimum now b l Hb Hl Hex) as (i & Hmin).
  pose proof (λ m, first_minimum_least _ _ _ _ _ m Hmin) as Hleast.
  revert Hmin Hleast.
  set (n := (selectLoop now l b (-1) MaxFloat64).1.2).
  intros (Hi & An & Hbefore & Hafter) Hleast.
  apply bool_decide_eq_true in An.
  exists n, i. split_and!; try done.
  - rewrite SelectNode_result. fold n. cbv zeta.
    destruct (Z.eqb_spec n (-1)) as [E|_]; [|done].
    exfalso. revert E. apply Hl; [|done]. apply list_elem_of_lookup. by exists i.
  - intros j m Hj Hm Sm. apply (Hbefore j); [done|done|]. by apply bool_decide_eq_true.
  - intros j m Hj Hm Sm. apply (Hafter j); [done|done|]. by apply bool_decide_eq_true.
  - intros m Hm Sm. apply Hleast; [done|]. by apply bool_decide_eq_true.
Qed.

Lemma int64_telemetry_two_nodes : int64_telemetry Scenario.two_nodes.
Proof.
  intros node c H. unfold Scenario.two_nodes in H. cbn [metricsMap] in H.
  apply lookup_insert_Some in H as [[_ E]|[_ H]].
  - injection E as <-. unfold int64_cost, Int64.in_range,
      Int64.min_signed, Int64.max_signed. simpl. lia.
  - apply lookup_singleton_Some in H as [_ E].
    injection E as <-. unfold int64_cost, Int64.in_range,
      Int64.min_signed, Int64.max_signed. simpl. lia.
Qed.

Lemma SelectNode_selects_first_minimum_witness :
  let now := 10000 in
  let b := Scenario.two_nodes in
  let l := [1; 2] in
  ∃ n i,
    (SelectNode now b l 1).2 = inr n
    ∧ l !! i = Some n ∧ survives b n
    ∧ (∀ j m, (j < i)%nat → l !! j = Some m → survives b m →
              ltb (scoreOf now b n) (scoreOf now b m) = true)
    ∧ (∀ j m, (i < j)%nat → l !! j = Some m → survives b m →
              ltb (scoreOf now b m) (scoreOf now b n) = false)
    ∧ (∀ m, m ∈ l → survives b m →
            ltb (scoreOf now b m) (scoreOf now b n) = false).
Proof.
  apply (SelectNode_selects_first_minimum 10000 Scenario.two_nodes [1; 2] 1).
  - exact int64_telemetry_two_nodes.
  - intros n Hn _.
    apply elem_of_cons in Hn as [->|Hn]; [lia|].
    apply elem_of_cons in Hn as [->|Hn]; [lia|].
    by apply elem_of_nil in Hn.
  - exists 1. split; [apply elem_of_cons; by left|].
    unfold survives. simpl. apply not_elem_of_empty.
Defined.

(** Spec scenario 2 on the same balancer: the scores are 50 and 20 and node 2
    is returned. *)
Lemma two_nodes_scores :
  scoreOf 10000 Scenario.two_nodes 1 = of_int 50
  ∧ scoreOf 10000 Scenario.two_nodes 2 = of_int 20
  ∧ (SelectNode 10000 Scenario.two_nodes [1; 2] 1).2 = inr 2.
Proof. split_and!; vm_compute; reflexivity. Qed.

(** C1 as stated fails when -1 is a candidate: on [[-1; 5]], with 7 units in
    flight on node 5 and none on node -1, both candidates survive, node -1 has
    the strictly smaller score and comes first, yet node 5 is returned. *)
Lemma SelectNode_overrides_candidate_minus_one :
  let b := Scenario.loaded in
  let r := SelectNode 0 b [-1; 5] 1 in
  survives b (-1) ∧ survives b 5
  ∧ ltb (scoreOf 0 b (-1)) (scoreOf 0 b 5) = true
  ∧ r.2 = inr 5
  ∧ r.2 ≠ inr (-1).
Proof.
  cbv zeta. split_and!.
  - unfold survives. simpl. apply not_elem_of_empty.
  - unfold survives. simpl. apply not_elem_of_empty.
  - vm_compute. reflexivity.
  - vm_compute. reflexivity.
  - vm_compute. discriminate.
Qed.

(** ** Exact arithmetic on small integers *)

Module FloatExact.

Import FloatBounds.

Lemma mant_spec p :
  Zpos p < 2 ^ 53 →
  Zpos (mant p) = Zpos p * 2 ^ (53 - digits p) ∧ digits (mant p) = 53.
Proof.
  intros Hp. pose proof (digits_le p 53 Hp) as Hd.
  destruct (digits_spec p) as (H1 & H2 & H3).
  destruct (shl_align_spec p 0 (digits p - 53)) as [E2 E1].
  fold (mant p) in E1. rewrite E2, Z.min_r in E1 by lia.
  replace (0 - (digits p - 53)) with (53 - digits p) in E1 by lia.
  split; [done|]. apply digits_unique. rewrite E1.
  rewrite (pow2_split (53 - 1) (53 - digits p)), (pow2_split 53 (53 - digits p)) by lia.
  replace (53 - 1 - (53 - digits p)) with (digits p - 1) by lia.
  replace (53 - (53 - digits p)) with (digits p) by lia.
  pose proof (pow2_pos (53 - digits p) ltac:(lia)). nia.
Qed.

(** *** Shifting out zero bits loses nothing *)

Lemma shr_iter_exact n : ∀ c : positive,
  Nat.iter n shr_1 (Build_shr_record (Zpos c * 2 ^ Z.of_nat n) false false)
  = Build_shr_record (Zpos c) false false.
Proof.
  induction n as [|n IH]; intros c.
  - simpl. f_equal. lia.
  - rewrite Nat.iter_succ, Nat2Z.inj_succ, Z.pow_succ_r by lia.
    replace (Zpos c * (2 * 2 ^ Z.of_nat n)) with (Zpos (c~0) * 2 ^ Z.of_nat n) by lia.
    by rewrite IH.
Qed.

Lemma shr_exact (c : positive) e j :
  0 ≤ j →
  shr (Build_shr_record (Zpos c * 2 ^ j) false false) e j
  = (Build_shr_record (Zpos c) false false, e + j).
Proof.
  intros Hj. destruct j as [|p|p]; [| |lia].
  - simpl. rewrite Z.add_0_r. do 2 f_equal. lia.
  - cbn [shr]. rewrite iter_pos_nat.
    rewrite <- (positive_nat_Z p) at 1. by rewrite shr_iter_exact.
Qed.

(** A mantissa that is a 53-digit number times a power of two rounds to that
    number: nothing is lost. *)
Lemma round_exact s (M c : positive) e j :
  Zpos M = Zpos c * 2 ^ j → 0 ≤ j → digits c = 53 → -1074 ≤ e + j ≤ 971 →
  binary_round_aux prec emax s (Zpos M) e loc_Exact = S754_finite s c (e + j).
Proof.
  intros HM Hj Hc He.
  assert (HdM : Zdigits2 (Zpos M) = 53 + j).
  { change (Zdigits2 (Zpos M)) with (digits M). apply digits_unique.
    destruct (digits_spec c) as (_ & H2 & H3). rewrite Hc in H2, H3.
    rewrite HM. replace (53 + j - 1) with (52 + j) by lia.
    rewrite !Z.pow_add_r by lia. change (53 - 1) with 52 in H2.
    pose proof (pow2_pos j Hj). nia. }
  unfold binary_round_aux, shr_fexp. rewrite HdM.
  replace (fexp prec emax (53 + j + e) - e) with j
    by (unfold fexp, emin, prec, emax; lia).
  change (shr_record_of_loc (Zpos M) loc_Exact)
    with (Build_shr_record (Zpos M) false false).
  rewrite HM, shr_exact by done.
  cbn [shr_m loc_of_shr_record round_nearest_even shr_record_of_loc Zdigits2].
  fold (digits c). rewrite Hc.
  replace (fexp prec emax (53 + (e + j)) - (e + j)) with 0
    by (unfold fexp, emin, prec, emax; lia).
  cbn [shr shr_m].
  replace (e + j <=? emax - prec) with true; [done|].
  symmetry. apply Z.leb_le. unfold emax, prec. lia.
Qed.

Lemma binary_round_exact s (M p : positive) e :
  Zpos M = Zpos p * 2 ^ (- e) → Zpos p < 2 ^ 53 → e ≤ 0 →
  binary_round prec emax s M e = S754_finite s (mant p) (digits p - 53).
Proof.
  intros HM Hp He.
  destruct (mant_spec p Hp) as [Hmant Hdm].
  pose proof (digits_le p 53 Hp) as Hd.
  destruct (digits_spec p) as (H1 & H2 & H3).
  assert (HdM : digits M = digits p - e).
  { apply digits_unique. rewrite HM.
    replace (digits p - e - 1) with (digits p - 1 + - e) by lia.
    replace (digits p - e) with (digits p + - e) by lia.
    rewrite !Z.pow_add_r by lia. pose proof (pow2_pos (- e) ltac:(lia)). nia. }
  unfold binary_round. fold (digits M). rewrite HdM.
  replace (fexp prec emax (digits p - e + e)) with (digits p - 53)
    by (unfold fexp, emin, prec, emax; lia).
  destruct (shl_align_spec M e (digits p - 53)) as [E2 E1].
  destruct (shl_align M e (digits p - 53)) as [mz ez]. cbn [fst snd] in E1, E2.
  transitivity (S754_finite s (mant p) (ez + (digits p - 53 - ez)));
    [|f_equal; lia].
  apply round_exact; [|lia|done|lia].
  rewrite E1, HM, Hmant, <- !Z.mul_assoc, <- !Z.pow_add_r by lia.
  do 2 f_equal. lia.
Qed.

Lemma normalize_exact z e :
  Z.abs z < 2 ^ 53 → e ≤ 0 →
  binary_normalize prec emax (z * 2 ^ (- e)) e false = canon z.
Proof.
  intros Hz He. pose proof (pow2_pos (- e) ltac:(lia)) as Hpow.
  destruct z as [|p|p].
  - done.
  - destruct (Zpos p * 2 ^ (- e)) as [|M|M] eqn:EM; [nia| |nia].
    cbn [binary_normalize canon]. by apply binary_round_exact.
  - destruct (Zneg p * 2 ^ (- e)) as [|M|M] eqn:EM; [nia|nia|].
    cbn [binary_normalize canon]. apply binary_round_exact; [|done|done].
    rewrite <- Pos2Z.opp_neg, <- EM. rewrite <- Pos2Z.opp_pos. lia.
Qed.

(** [float64(z)] is exact below 2^53. *)
Lemma of_int_exact z : Z.abs z < 2 ^ 53 → of_int z = canon z.
Proof.
  intros Hz. unfold of_int. rewrite <- (normalize_exact z 0) by (done || lia).
  f_equal. simpl. lia.
Qed.

(** *** Products *)

Lemma digits_mul_ge p q : digits p + digits q - 1 ≤ digits (p * q).
Proof.
  destruct (digits_spec p) as (P1 & P2 & _), (digits_spec q) as (Q1 & Q2 & _).
  destruct (digits_spec (p * q)) as (_ & _ & H3).
  destruct (Z.le_gt_cases (digits p + digits q - 1) (digits (p * q))) as [|Hlt]; [done|].
  pose proof (pow2_le (digits (p * q)) (digits p - 1 + (digits q - 1)) ltac:(lia)) as H.
  rewrite Z.pow_add_r in H by lia. rewrite Pos2Z.inj_mul in H3.
  pose proof (pow2_pos (digits p - 1) ltac:(lia)).
  pose proof (pow2_pos (digits q - 1) ltac:(lia)). nia.
Qed.

Lemma mul_exact a b :
  0 < a → 0 < b → a * b < 2 ^ 53 →
  mul (canon a) (canon b) = canon (a * b).
Proof.
  intros Ha Hb Hab. destruct a as [|p|p], b as [|q|q]; try lia.
  assert (Hp : Zpos p < 2 ^ 53) by nia.
  assert (Hq : Zpos q < 2 ^ 53) by nia.
  change (Zpos p * Zpos q) with (Zpos (p * q)) in *.
  destruct (mant_spec p Hp) as [Mp _], (mant_spec q Hq) as [Mq _].
  destruct (mant_spec (p * q) Hab) as [Mpq Dpq].
  pose proof (digits_le p 53 Hp). pose proof (digits_le q 53 Hq).
  pose proof (digits_le (p * q) 53 Hab). pose proof (digits_mul_ge p q).
  pose proof (digits_spec p) as [? _]. pose proof (digits_spec q) as [? _].
  cbn [canon mul SFmul xorb].
  remember (53 - digits p - digits q + digits (p * q)) as j eqn:Ej.
  transitivity (S754_finite false (mant (p * q)) (digits p - 53 + (digits q - 53) + j));
    [|f_equal; lia].
  apply round_exact; [|lia|done|lia].
  rewrite Pos2Z.inj_mul, Mp, Mq, Mpq, Pos2Z.inj_mul.
  replace (Zpos p * 2 ^ (53 - digits p) * (Zpos q * 2 ^ (53 - digits q)))
    with (Zpos p * Zpos q * (2 ^ (53 - digits p) * 2 ^ (53 - digits q))) by lia.
  replace (Zpos p * Zpos q * 2 ^ (53 - digits (p * q)) * 2 ^ j)
    with (Zpos p * Zpos q * (2 ^ (53 - digits (p * q)) * 2 ^ j)) by lia.
  rewrite <- !Z.pow_add_r by lia.
  do 2 f_equal. lia.
Qed.

(** *** Sums and differences *)

Lemma aligned_canon p ez :
  Zpos p < 2 ^ 53 → ez ≤ digits p - 53 →
  Zpos (shl_align (mant p) (digits p - 53) ez).1 = Zpos p * 2 ^ (- ez).
Proof.
  intros Hp He. destruct (mant_spec p Hp) as [Mp _].
  pose proof (digits_le p 53 Hp).
  destruct (shl_align_spec (mant p) (digits p - 53) ez) as [E2 E1].
  rewrite E1, E2, Z.min_r, Mp, <- Z.mul_assoc, <- Z.pow_add_r by lia.
  do 2 f_equal. lia.
Qed.

Lemma canon_exponent_nonpos p : Zpos p < 2 ^ 53 → digits p - 53 ≤ 0.
Proof. intros Hp. pose proof (digits_le p 53 Hp). lia. Qed.

Ltac align_both p q :=
  let Lp := fresh in let Lq := fresh in
  pose proof (Z.le_min_l (digits p - 53) (digits q - 53)) as Lp;
  pose proof (Z.le_min_r (digits p - 53) (digits q - 53)) as Lq;
  rewrite (aligned_canon p), (aligned_canon q) by done;
  cbn [cond_Zopp];
  rewrite <- ?Pos2Z.opp_pos, ?Z.mul_opp_l.

Lemma add_exact a b :
  Z.abs a < 2 ^ 53 → Z.abs b < 2 ^ 53 → Z.abs (a + b) < 2 ^ 53 →
  add (canon a) (canon b) = canon (a + b).
Proof.
  intros Ha Hb Hab.
  destruct a as [|p|p], b as [|q|q]; try done;
    cbn [canon add SFadd];
    pose proof (canon_exponent_nonpos p ltac:(lia));
    pose proof (canon_exponent_nonpos q ltac:(lia));
    align_both p q;
    rewrite <- (normalize_exact _ (Z.min (digits p - 53) (digits q - 53))) by (done || lia);
    f_equal; lia.
Qed.

Lemma sub_exact a b :
  Z.abs a < 2 ^ 53 → Z.abs b < 2 ^ 53 → Z.abs (a - b) < 2 ^ 53 →
  sub (canon a) (canon b) = canon (a - b).
Proof.
  intros Ha Hb Hab.
  destruct a as [|p|p], b as [|q|q]; try done;
    cbn [canon sub SFsub];
    pose proof (canon_exponent_nonpos p ltac:(lia));
    pose proof (canon_exponent_nonpos q ltac:(lia));
    align_both p q;
    rewrite <- (normalize_exact _ (Z.min (digits p - 53) (digits q - 53))) by (done || lia);
    f_equal; lia.
Qed.

(** *** Comparison *)

Lemma digits_mono p q : (p ≤ q)%positive → digits p ≤ digits q.
Proof.
  intros H. apply digits_le. destruct (digits_spec q) as (_ & _ & Hq). lia.
Qed.

Lemma canon_lt_pos p q :
  (p < q)%positive → Zpos q < 2 ^ 53 →
  digits p - 53 < digits q - 53
  ∨ (digits p - 53 = digits q - 53 ∧ Zpos (mant p) < Zpos (mant q)).
Proof.
  intros Hlt Hq.
  pose proof (digits_mono p q ltac:(lia)) as Hd.
  destruct (Z.eq_dec (digits p) (digits q)) as [E|E]; [right|left; lia].
  split; [lia|].
  destruct (mant_spec p ltac:(lia)) as [-> _], (mant_spec q Hq) as [-> _].
  rewrite E. pose proof (digits_le q 53 Hq).
  apply Z.mul_lt_mono_pos_r; [apply pow2_pos; lia|lia].
Qed.

Lemma canon_not_nan z : is_nan (canon z) = false.
Proof. by destruct z. Qed.

Lemma lt_exact a b :
  Z.abs a < 2 ^ 53 → Z.abs b < 2 ^ 53 → a < b →
  ltb (canon a) (canon b) = true.
Proof.
  intros Ha Hb Hlt.
  apply FloatOrder.ltb_key; [apply canon_not_nan|apply canon_not_nan|].
  unfold lex_lt.
  destruct a as [|p|p], b as [|q|q]; try lia; cbn [canon key fst snd];
    try lia.
  - destruct (canon_lt_pos p q ltac:(lia) ltac:(lia)); lia.
  - destruct (canon_lt_pos q p ltac:(lia) ltac:(lia)); lia.
Qed.

End FloatExact.

(** ** Rounding: nearest double and monotonicity *)

(** In the normal range [binary_round] returns the double nearest to its
    argument, ties to even, and is monotone.  From this the conversions,
    products and sums of [calculateScore] are monotone wherever their
    operands are normal doubles. *)

Module FloatRound.

Import FloatBounds.

(** *** The shift record *)

Lemma shr_1_inv m k rec : 0 ≤ k → shr_inv m k rec → shr_inv m (k + 1) (shr_1 rec).
Proof.
  intros Hk. unfold shr_inv. rewrite Z.pow_add_r by lia. change (2 ^ 1) with 2.
  pose proof (pow2_pos k Hk) as HP. remember (2 ^ k) as P eqn:EP. clear EP.
  destruct rec as [q r s]. cbn [shr_m shr_r shr_s].
  intros (Hq & Hrem & Hloc).
  destruct q as [|[p|p|]|p]; cbn [shr_1 shr_m shr_r shr_s]; [| | | |lia].
  - destruct r, s; cbn [orb]; split_and!; lia.
  - rewrite (Pos2Z.inj_xI p) in Hrem, Hloc.
    destruct r, s; cbn [orb]; split_and!; lia.
  - rewrite (Pos2Z.inj_xO p) in Hrem, Hloc.
    destruct r, s; cbn [orb]; split_and!; lia.
  - destruct r, s; cbn [orb]; split_and!; lia.
Qed.

Lemma shr_iter_inv m n :
  0 ≤ m → shr_inv m (Z.of_nat n) (Nat.iter n shr_1 (Build_shr_record m false false)).
Proof.
  intros Hm. induction n as [|n IH].
  - unfold shr_inv. simpl. lia.
  - rewrite Nat.iter_succ, Nat2Z.inj_succ. apply shr_1_inv; [lia|done].
Qed.

Lemma shr_inv_shr m e n :
  0 ≤ m → 0 ≤ n →
  shr_inv m n (shr (Build_shr_record m false false) e n).1
  ∧ (shr (Build_shr_record m false false) e n).2 = e + n.
Proof.
  intros Hm Hn. destruct n as [|p|p]; [| |lia].
  - simpl. split; [|lia]. unfold shr_inv. simpl. lia.
  - cbn [shr fst snd]. rewrite iter_pos_nat. split; [|done].
    rewrite <- (positive_nat_Z p) at 1. by apply shr_iter_inv.
Qed.

Lemma shr_inv_rounded m k rec :
  0 ≤ k → shr_inv m k rec →
  round_nearest_even (shr_m rec) (loc_of_shr_record rec) = rounded m k.
Proof.
  intros Hk (Hq & Hrem & Hloc). pose proof (pow2_pos k Hk) as HP.
  unfold rounded.
  assert (Hdiv : m / 2 ^ k = shr_m rec).
  { symmetry. apply (Z.div_unique _ _ _ (m - shr_m rec * 2 ^ k)); lia. }
  assert (Hmod : m mod 2 ^ k = m - shr_m rec * 2 ^ k).
  { symmetry. apply (Z.mod_unique _ _ (shr_m rec)); lia. }
  rewrite Hdiv, Hmod. unfold rne.
  destruct rec as [q r s]. cbn [shr_m shr_r shr_s loc_of_shr_record] in *.
  destruct r, s; cbn [round_nearest_even].
  - destruct (Z.ltb_spec (2 * (m - q * 2 ^ k)) (2 ^ k)); [lia|].
    destruct (Z.ltb_spec (2 ^ k) (2 * (m - q * 2 ^ k))); [done|lia].
  - destruct (Z.ltb_spec (2 * (m - q * 2 ^ k)) (2 ^ k)); [lia|].
    destruct (Z.ltb_spec (2 ^ k) (2 * (m - q * 2 ^ k))); [lia|]. done.
  - destruct (Z.ltb_spec (2 * (m - q * 2 ^ k)) (2 ^ k)); [done|lia].
  - destruct (Z.ltb_spec (2 * (m - q * 2 ^ k)) (2 ^ k)); [done|lia].
Qed.

(** *** Rounding a quotient to nearest-even *)

Lemma rne_range q r P : q ≤ rne q r P ≤ q + 1.
Proof. unfold rne. repeat case_match; lia. Qed.

Lemma rounded_mono m1 m2 n :
  0 ≤ n → 0 ≤ m1 ≤ m2 → rounded m1 n ≤ rounded m2 n.
Proof.
  intros Hn Hm. pose proof (pow2_pos n Hn) as HP. unfold rounded.
  pose proof (Z.div_mod m1 (2 ^ n) ltac:(lia)) as E1.
  pose proof (Z.div_mod m2 (2 ^ n) ltac:(lia)) as E2.
  pose proof (Z.mod_pos_bound m1 (2 ^ n) HP) as B1.
  pose proof (Z.mod_pos_bound m2 (2 ^ n) HP) as B2.
  pose proof (Z.div_le_mono m1 m2 (2 ^ n) HP ltac:(lia)) as Hq.
  remember (m1 / 2 ^ n) as q1. remember (m2 / 2 ^ n) as q2.
  remember (m1 mod 2 ^ n) as r1. remember (m2 mod 2 ^ n) as r2.
  remember (2 ^ n) as P.
  destruct (Z.eq_dec q1 q2) as [->|Hne].
  - assert (r1 ≤ r2) by lia. unfold rne.
    repeat case_match; try lia;
      repeat match goal with
             | H : (_ <? _) = true |- _ => apply Z.ltb_lt in H
             | H : (_ <? _) = false |- _ => apply Z.ltb_ge in H
             end; lia.
  - pose proof (rne_range q1 r1 P). pose proof (rne_range q2 r2 P). lia.
Qed.

Lemma rne_scale q r P J : 0 < J → rne q (r * J) (P * J) = rne q r P.
Proof.
  intros HJ. unfold rne.
  assert (E1 : (2 * (r * J) <? P * J) = (2 * r <? P)).
  { destruct (Z.ltb_spec (2 * r) P), (Z.ltb_spec (2 * (r * J)) (P * J)); try done; nia. }
  assert (E2 : (P * J <? 2 * (r * J)) = (P <? 2 * r)).
  { destruct (Z.ltb_spec P (2 * r)), (Z.ltb_spec (P * J) (2 * (r * J))); try done; nia. }
  by rewrite E1, E2.
Qed.

Lemma rounded_shift m n j :
  0 ≤ n → 0 ≤ j → rounded (m * 2 ^ j) (n + j) = rounded m n.
Proof.
  intros Hn Hj. unfold rounded.
  pose proof (pow2_pos n Hn). pose proof (pow2_pos j Hj).
  rewrite Z.pow_add_r by done.
  rewrite Z.div_mul_cancel_r by lia.
  rewrite Z.mul_mod_distr_r by lia.
  by apply rne_scale.
Qed.

Lemma rounded_bounds (m : positive) :
  53 ≤ digits m →
  2 ^ 52 ≤ rounded (Zpos m) (digits m - 53) ≤ 2 ^ 53.
Proof.
  intros Hd. destruct (digits_spec m) as (_ & H2 & H3).
  pose proof (pow2_pos (digits m - 53) ltac:(lia)) as HP.
  unfold rounded.
  pose proof (rne_range (Zpos m / 2 ^ (digits m - 53))
                (Zpos m mod 2 ^ (digits m - 53)) (2 ^ (digits m - 53))) as Hr.
  assert (2 ^ 52 ≤ Zpos m / 2 ^ (digits m - 53)).
  { apply Z.div_le_lower_bound; [done|].
    rewrite <- Z.pow_add_r by lia.
    replace (digits m - 53 + 52) with (digits m - 1) by lia. done. }
  assert (Zpos m / 2 ^ (digits m - 53) < 2 ^ 53).
  { apply Z.div_lt_upper_bound; [done|].
    rewrite <- Z.pow_add_r by lia.
    replace (digits m - 53 + 53) with (digits m) by lia. done. }
  lia.
Qed.

Lemma renorm_spec q G :
  2 ^ 52 ≤ q ≤ 2 ^ 53 →
  2 ^ 52 ≤ (renorm q G).1 < 2 ^ 53 ∧ G ≤ (renorm q G).2 ≤ G + 1
  ∧ ((renorm q G).2 = G + 1 → (renorm q G).1 = 2 ^ 52).
Proof.
  intros Hq. unfold renorm. destruct (Z.ltb_spec q (2 ^ 53)); cbn [fst snd]; lia.
Qed.

(** *** [binary_round_aux] and [binary_round] *)

Lemma round_aux_normal s (m : positive) e :
  53 ≤ digits m → -1074 ≤ e + digits m - 53 ≤ 970 →
  binary_round_aux prec emax s (Zpos m) e loc_Exact
  = S754_finite s (Z.to_pos (renorm (rounded (Zpos m) (digits m - 53)) (e + digits m - 53)).1)
                (renorm (rounded (Zpos m) (digits m - 53)) (e + digits m - 53)).2.
Proof.
  intros Hd HG. pose proof (rounded_bounds m Hd) as Hq.
  unfold binary_round_aux, shr_fexp.
  change (Zdigits2 (Zpos m)) with (digits m).
  replace (fexp prec emax (digits m + e) - e) with (digits m - 53)
    by (unfold fexp, emin, prec, emax; lia).
  change (shr_record_of_loc (Zpos m) loc_Exact)
    with (Build_shr_record (Zpos m) false false).
  destruct (shr_inv_shr (Zpos m) e (digits m - 53)) as [Hinv He1]; [lia|lia|].
  destruct (shr (Build_shr_record (Zpos m) false false) e (digits m - 53)) as [mrs1 e1].
  cbn [fst snd] in Hinv, He1.
  rewrite (shr_inv_rounded (Zpos m) (digits m - 53)) by (lia || done).
  remember (rounded (Zpos m) (digits m - 53)) as q eqn:Eq. clear Eq Hinv.
  replace (e + digits m - 53) with e1 in * by lia. clear He1.
  change (shr_record_of_loc q loc_Exact) with (Build_shr_record q false false).
  unfold renorm. destruct (Z.ltb_spec q (2 ^ 53)) as [Hlt|Hge]; cbn [fst snd].
  - destruct q as [|p|p]; try lia.
    assert (Hp : digits p = 53) by (apply digits_unique; simpl; lia).
    change (Zdigits2 (Zpos p)) with (digits p). rewrite Hp.
    replace (fexp prec emax (53 + e1) - e1) with 0
      by (unfold fexp, emin, prec, emax; lia).
    cbn [shr shr_m].
    replace (e1 <=? emax - prec) with true; [done|].
    symmetry. apply Z.leb_le. unfold emax, prec. lia.
  - assert (q = 2 ^ 53) as -> by lia.
    change (Zdigits2 (2 ^ 53)) with 54.
    replace (fexp prec emax (54 + e1) - e1) with 1
      by (unfold fexp, emin, prec, emax; lia).
    cbn [shr shr_m SpecFloat.iter_pos shr_1].
    change (shr_m (shr_1 (Build_shr_record (2 ^ 53) false false))) with (2 ^ 52).
    change (2 ^ 52) with (Zpos (2 ^ 52)).
    replace (e1 + 1 <=? emax - prec) with true; [done|].
    symmetry. apply Z.leb_le. unfold emax, prec. lia.
Qed.

Lemma scaled_range (m : positive) j :
  0 ≤ j →
  2 ^ (digits m - 1 + j) ≤ Zpos m * 2 ^ j < 2 ^ (digits m + j).
Proof.
  intros Hj. destruct (digits_spec m) as (H1 & H2 & H3).
  pose proof (pow2_pos j Hj). rewrite !Z.pow_add_r by lia. nia.
Qed.

Lemma rounded_range M n :
  0 ≤ n → 2 ^ (n + 52) ≤ M < 2 ^ (n + 53) → 2 ^ 52 ≤ rounded M n ≤ 2 ^ 53.
Proof.
  intros Hn [Hl Hu]. pose proof (pow2_pos n Hn) as HP. unfold rounded.
  pose proof (rne_range (M / 2 ^ n) (M mod 2 ^ n) (2 ^ n)) as Hr.
  assert (2 ^ 52 ≤ M / 2 ^ n).
  { apply Z.div_le_lower_bound; [done|]. by rewrite <- Z.pow_add_r by lia. }
  assert (M / 2 ^ n < 2 ^ 53).
  { apply Z.div_lt_upper_bound; [done|]. by rewrite <- Z.pow_add_r by lia. }
  lia.
Qed.

(** The rounded mantissa does not depend on how far the number was shifted
    left before rounding. *)
Lemma rounded_align (m : positive) e D z :
  z ≤ e → z ≤ D - 53 →
  rounded (Zpos m * 2 ^ (e - Z.min e (D - 53))) (D - 53 - Z.min e (D - 53))
  = rounded (Zpos m * 2 ^ (e - z)) (D - 53 - z).
Proof.
  intros H1 H2. set (ez := Z.min e (D - 53)).
  assert (z ≤ ez ∧ ez ≤ e ∧ ez ≤ D - 53) as (? & ? & ?) by (unfold ez; lia).
  rewrite <- (rounded_shift (Zpos m * 2 ^ (e - ez)) (D - 53 - ez) (ez - z)) by lia.
  f_equal; [|lia].
  rewrite <- Z.mul_assoc, <- Z.pow_add_r by lia. do 2 f_equal. lia.
Qed.

Lemma round_pair_shape (m : positive) e :
  2 ^ 52 ≤ (round_pair m e).1 < 2 ^ 53
  ∧ digits m + e - 53 ≤ (round_pair m e).2 ≤ digits m + e - 52
  ∧ ((round_pair m e).2 = digits m + e - 52 → (round_pair m e).1 = 2 ^ 52).
Proof.
  unfold round_pair. cbv zeta.
  set (D := digits m + e). set (ez := Z.min e (D - 53)).
  assert (ez ≤ e ∧ ez ≤ D - 53) as [? ?] by (unfold ez; lia).
  destruct (digits_spec m) as (Hd & _).
  pose proof (scaled_range m (e - ez) ltac:(lia)) as Hs.
  destruct (renorm_spec (rounded (Zpos m * 2 ^ (e - ez)) (D - 53 - ez)) (D - 53))
    as (R1 & R2 & R3).
  { apply rounded_range; [lia|].
    replace (D - 53 - ez + 52) with (digits m - 1 + (e - ez)) by (unfold D; lia).
    replace (D - 53 - ez + 53) with (digits m + (e - ez)) by (unfold D; lia).
    done. }
  split_and!; lia.
Qed.

(** [binary_round] in the normal range: the mantissa is shifted to at least
    53 digits, rounded to nearest-even at 53 digits, and renormalised when the
    rounding carries into a 54th digit. *)
Lemma binary_round_pair s (m : positive) e :
  -1021 ≤ digits m + e ≤ 1023 →
  binary_round prec emax s m e
  = S754_finite s (Z.to_pos (round_pair m e).1) (round_pair m e).2.
Proof.
  intros HD. unfold binary_round, round_pair. cbv zeta.
  fold (digits m).
  replace (fexp prec emax (digits m + e)) with (digits m + e - 53)
    by (unfold fexp, emin, prec, emax; lia).
  destruct (shl_align_spec m e (digits m + e - 53)) as [E2 E1].
  destruct (shl_align m e (digits m + e - 53)) as [mz ez]. cbn [fst snd] in E1, E2.
  rewrite <- E2.
  assert (ez ≤ e ∧ ez ≤ digits m + e - 53) as [? ?] by lia.
  destruct (digits_spec m) as (Hd & _).
  assert (Hdz : digits mz = digits m + (e - ez)).
  { apply digits_unique. rewrite E1.
    replace (digits m + (e - ez) - 1) with (digits m - 1 + (e - ez)) by lia.
    apply scaled_range. lia. }
  rewrite round_aux_normal by lia.
  rewrite E1, Hdz.
  replace (digits m + (e - ez) - 53) with (digits m + e - 53 - ez) by lia.
  replace (ez + (digits m + (e - ez)) - 53) with (digits m + e - 53) by lia.
  done.
Qed.

Lemma renorm_mono q1 q2 G :
  2 ^ 52 ≤ q1 ≤ q2 → q2 ≤ 2 ^ 53 → pair_le (renorm q1 G) (renorm q2 G).
Proof.
  intros H1 H2. unfold pair_le, renorm.
  destruct (Z.ltb_spec q1 (2 ^ 53)), (Z.ltb_spec q2 (2 ^ 53)); cbn [fst snd]; lia.
Qed.

(** Rounding is monotone: of two positive numbers [m1 * 2^e1 ≤ m2 * 2^e2]
    the first does not round above the second. *)
Lemma round_pair_mono (m1 m2 : positive) e1 e2 e0 :
  e0 ≤ e1 → e0 ≤ e2 →
  Zpos m1 * 2 ^ (e1 - e0) ≤ Zpos m2 * 2 ^ (e2 - e0) →
  pair_le (round_pair m1 e1) (round_pair m2 e2).
Proof.
  intros H1 H2 Hle.
  pose proof (scaled_range m1 (e1 - e0) ltac:(lia)) as [L1 U1].
  pose proof (scaled_range m2 (e2 - e0) ltac:(lia)) as [L2 U2].
  destruct (digits_spec m1) as (Hd1 & _), (digits_spec m2) as (Hd2 & _).
  assert (HD : digits m1 + e1 ≤ digits m2 + e2).
  { destruct (Z.le_gt_cases (digits m1 + e1) (digits m2 + e2)) as [|Hgt]; [done|].
    pose proof (pow2_le (digits m2 + (e2 - e0)) (digits m1 - 1 + (e1 - e0)) ltac:(lia)).
    lia. }
  destruct (round_pair_shape m1 e1) as (A1 & A2 & A3).
  destruct (round_pair_shape m2 e2) as (B1 & B2 & B3).
  destruct (Z.eq_dec (digits m1 + e1) (digits m2 + e2)) as [E|NE].
  - unfold round_pair. cbv zeta. rewrite <- E.
    set (D := digits m1 + e1) in *.
    set (z := Z.min e0 (D - 53)).
    rewrite (rounded_align m1 e1 D z), (rounded_align m2 e2 D z) by (unfold z; lia).
    assert (Hz : z ≤ e0 ∧ z ≤ D - 53) by (unfold z; lia).
    assert (Hv : Zpos m1 * 2 ^ (e1 - z) ≤ Zpos m2 * 2 ^ (e2 - z)).
    { replace (e1 - z) with ((e1 - e0) + (e0 - z)) by lia.
      replace (e2 - z) with ((e2 - e0) + (e0 - z)) by lia.
      rewrite !Z.pow_add_r, !Z.mul_assoc by lia.
      apply Z.mul_le_mono_nonneg_r; [|done].
      apply Z.lt_le_incl, pow2_pos. lia. }
    pose proof (scaled_range m1 (e1 - z) ltac:(lia)) as [L1' U1'].
    pose proof (scaled_range m2 (e2 - z) ltac:(lia)) as [L2' U2'].
    apply renorm_mono.
    + split.
      * apply rounded_range; [lia|].
        replace (D - 53 - z + 52) with (digits m1 - 1 + (e1 - z)) by (unfold D; lia).
        replace (D - 53 - z + 53) with (digits m1 + (e1 - z)) by (unfold D; lia).
        done.
      * apply rounded_mono; [lia|]. split; [|done].
        pose proof (pow2_pos (e1 - z) ltac:(lia)). lia.
    + apply rounded_range; [lia|].
      replace (D - 53 - z + 52) with (digits m2 - 1 + (e2 - z)) by lia.
      replace (D - 53 - z + 53) with (digits m2 + (e2 - z)) by lia.
      done.
  - unfold pair_le.
    destruct (Z.eq_dec (round_pair m1 e1).2 (round_pair m2 e2).2) as [E|NE'];
      [right|left; lia].
    split; [done|]. rewrite A3 by lia. lia.
Qed.

Lemma round_pair_pos (m : positive) e :
  Zpos (Z.to_pos (round_pair m e).1) = (round_pair m e).1.
Proof.
  destruct (round_pair_shape m e) as (H & _). apply Z2Pos.id. lia.
Qed.

Lemma round_pair_digits (m : positive) e :
  digits (Z.to_pos (round_pair m e).1) = 53.
Proof.
  apply digits_unique. rewrite round_pair_pos.
  destruct (round_pair_shape m e) as (H & _). simpl. lia.
Qed.

Lemma binary_round_normal s (m : positive) e lo hi :
  -1021 ≤ digits m + e ≤ 1023 → lo ≤ digits m + e → digits m + e + 1 ≤ hi →
  normal s lo hi (binary_round prec emax s m e).
Proof.
  intros HD Hlo Hhi. rewrite binary_round_pair by done.
  exists (Z.to_pos (round_pair m e).1), (round_pair m e).2.
  split; [done|]. split; [apply round_pair_digits|].
  destruct (round_pair_shape m e) as (_ & H & _). lia.
Qed.

Lemma round_aux_pair s (m : positive) e :
  53 ≤ digits m → -1021 ≤ digits m + e ≤ 1023 →
  binary_round_aux prec emax s (Zpos m) e loc_Exact
  = S754_finite s (Z.to_pos (round_pair m e).1) (round_pair m e).2.
Proof.
  intros Hd HD. rewrite round_aux_normal by lia. unfold round_pair. cbv zeta.
  rewrite Z.min_l by lia. rewrite Z.sub_diag, Z.mul_1_r.
  replace (digits m + e - 53 - e) with (digits m - 53) by lia.
  replace (e + digits m - 53) with (digits m + e - 53) by lia. done.
Qed.

Lemma normal_range_intro z e K :
  Z.abs z < 2 ^ (K - e) → -1022 ≤ e → K ≤ 1023 → normal_range z e.
Proof.
  intros Hz He HK.
  destruct z as [|p|p]; simpl; [done| |];
    pose proof (digits_le p (K - e) ltac:(lia));
    destruct (digits_spec p); lia.
Qed.

(** [binary_normalize] is monotone on the normal range, whatever the signs. *)
Lemma normalize_mono z1 e1 z2 e2 e0 :
  e0 ≤ e1 → e0 ≤ e2 →
  z1 * 2 ^ (e1 - e0) ≤ z2 * 2 ^ (e2 - e0) →
  normal_range z1 e1 → normal_range z2 e2 →
  ltb (binary_normalize prec emax z2 e2 false)
      (binary_normalize prec emax z1 e1 false) = false.
Proof.
  intros H1 H2 Hle R1 R2.
  pose proof (pow2_pos (e1 - e0) ltac:(lia)) as P1.
  pose proof (pow2_pos (e2 - e0) ltac:(lia)) as P2.
  apply not_true_iff_false.
  destruct z1 as [|p1|p1], z2 as [|p2|p2]; cbn [binary_normalize normal_range] in *;
    rewrite ?binary_round_pair by done;
    (rewrite FloatOrder.ltb_key by done); unfold lex_lt; cbn [key fst snd];
    rewrite ?round_pair_pos; try lia; try nia.
  - pose proof (round_pair_mono p1 p2 e1 e2 e0 H1 H2 Hle) as H.
    unfold pair_le in H. lia.
  - assert (Hle' : Zpos p2 * 2 ^ (e2 - e0) ≤ Zpos p1 * 2 ^ (e1 - e0)).
    { rewrite <- !Pos2Z.opp_pos in Hle. lia. }
    pose proof (round_pair_mono p2 p1 e2 e1 e0 H2 H1 Hle') as H.
    unfold pair_le in H. lia.
Qed.

Lemma normalize_normal z e lo hi :
  z ≠ 0 → 2 ^ (lo - 1 - e) ≤ Z.abs z < 2 ^ (hi - 1 - e) →
  -1022 ≤ e → hi ≤ 1024 →
  normal (z <? 0) lo hi (binary_normalize prec emax z e false).
Proof.
  intros Hz [Hl Hu] He Hhi.
  assert (HD : ∀ p : positive, Z.abs z = Zpos p → lo ≤ digits p + e ≤ hi - 1).
  { intros p E. rewrite E in *.
    pose proof (digits_le p (hi - 1 - e) Hu). destruct (digits_spec p) as (? & ? & ?).
    destruct (Z.le_gt_cases (lo - e) (digits p)) as [|Hlt]; [lia|].
    pose proof (pow2_le (digits p) (lo - 1 - e) ltac:(lia)). lia. }
  destruct z as [|p|p]; [done| |]; cbn [binary_normalize];
    specialize (HD p eq_refl); destruct (digits_spec p) as (? & _);
    apply binary_round_normal; lia.
Qed.

(** *** Order and value of normal doubles *)

Lemma le_value (c1 c2 : positive) E1 E2 z :
  ltb (S754_finite false c2 E2) (S754_finite false c1 E1) = false →
  digits c1 = 53 → digits c2 = 53 → z ≤ E1 → z ≤ E2 →
  Zpos c1 * 2 ^ (E1 - z) ≤ Zpos c2 * 2 ^ (E2 - z).
Proof.
  intros Hle D1 D2 Z1 Z2. apply not_true_iff_false in Hle.
  rewrite FloatOrder.ltb_key in Hle by done. unfold lex_lt in Hle.
  cbn [key fst snd] in Hle.
  destruct (digits_spec c1) as (_ & L1 & U1), (digits_spec c2) as (_ & L2 & U2).
  rewrite D1 in *. rewrite D2 in *.
  destruct (Z.eq_dec E1 E2) as [->|NE].
  - apply Z.mul_le_mono_nonneg_r; [|lia]. apply Z.lt_le_incl, pow2_pos. lia.
  - assert (E1 < E2) by lia.
    replace (E2 - z) with ((E2 - E1 - 1) + 1 + (E1 - z)) by lia.
    rewrite !Z.pow_add_r by lia. change (2 ^ 1) with 2.
    pose proof (pow2_pos (E2 - E1 - 1) ltac:(lia)).
    pose proof (pow2_pos (E1 - z) ltac:(lia)).
    change (2 ^ (53 - 1)) with 4503599627370496 in *.
    change (2 ^ 53) with 9007199254740992 in *.
    remember (2 ^ (E2 - E1 - 1)) as Q. remember (2 ^ (E1 - z)) as P.
    assert (Zpos c1 * P ≤ 9007199254740992 * P) by nia.
    assert (9007199254740992 * P ≤ Zpos c2 * (2 * P)) by nia.
    assert (Zpos c2 * (2 * P) ≤ Zpos c2 * (Q * 2 * P)) by nia.
    lia.
Qed.

Lemma normal_weaken s lo hi lo' hi' x :
  lo' ≤ lo → hi ≤ hi' → normal s lo hi x → normal s lo' hi' x.
Proof.
  intros ? ? (c & E & -> & Hd & HE). exists c, E. split_and!; try done; lia.
Qed.

Lemma normal_negative lo hi x : normal true lo hi x → ltb x zero = true.
Proof. by intros (c & E & -> & _). Qed.

Lemma normal_positive lo hi x : normal false lo hi x → ltb x zero = false.
Proof. by intros (c & E & -> & _). Qed.

Lemma ltb_false_trans x y z :
  is_nan x = false → is_nan y = false → is_nan z = false →
  ltb x y = false → ltb y z = false → ltb x z = false.
Proof.
  intros Nx Ny Nz Hxy Hyz. apply not_true_iff_false.
  apply not_true_iff_false in Hxy, Hyz.
  rewrite FloatOrder.ltb_key in * by done. unfold lex_lt in *. lia.
Qed.

(** *** Conversions *)

Lemma of_int_normal z :
  Int64.in_range z → z ≠ 0 → normal (z <? 0) 1 65 (of_int z).
Proof.
  intros Hz Hnz. unfold of_int. apply normalize_normal; try done; try lia.
  unfold Int64.in_range, Int64.min_signed, Int64.max_signed in Hz.
  change (2 ^ (1 - 1 - 0)) with 1. change (2 ^ (65 - 1 - 0)) with 18446744073709551616.
  change (2 ^ 63) with 9223372036854775808 in Hz. lia.
Qed.

Lemma of_int_mono z1 z2 :
  Int64.in_range z1 → Int64.in_range z2 → z1 ≤ z2 →
  ltb (of_int z2) (of_int z1) = false.
Proof.
  intros H1 H2 Hle. unfold of_int.
  unfold Int64.in_range, Int64.min_signed, Int64.max_signed in *.
  change (2 ^ 63) with 9223372036854775808 in *.
  apply (normalize_mono z1 0 z2 0 0); try lia.
  - apply (normal_range_intro _ _ 64); lia.
  - apply (normal_range_intro _ _ 64); lia.
Qed.

(** *** Products *)

Lemma digits_mul (cx cy : positive) :
  digits cx = 53 → digits cy = 53 → 105 ≤ digits (cx * cy) ≤ 106.
Proof.
  intros Dx Dy. pose proof (FloatExact.digits_mul_ge cx cy) as Hge.
  destruct (digits_spec cx) as (_ & _ & Ux), (digits_spec cy) as (_ & _ & Uy).
  rewrite Dx in *. rewrite Dy in *. split; [lia|].
  apply digits_le. rewrite Pos2Z.inj_mul.
  change (2 ^ 106) with (2 ^ 53 * 2 ^ 53).
  apply Z.mul_lt_mono_nonneg; lia.
Qed.

Lemma mul_pair sx sy (cx cy : positive) Ex Ey :
  digits cx = 53 → digits cy = 53 → -1126 ≤ Ex + Ey ≤ 917 →
  mul (S754_finite sx cx Ex) (S754_finite sy cy Ey)
  = S754_finite (xorb sx sy) (Z.to_pos (round_pair (cx * cy) (Ex + Ey)).1)
                (round_pair (cx * cy) (Ex + Ey)).2.
Proof.
  intros Dx Dy HE. pose proof (digits_mul cx cy Dx Dy).
  unfold mul. cbn [SFmul]. apply round_aux_pair; lia.
Qed.

Lemma mul_normal sx sy lx hx ly hy x y :
  normal sx lx hx x → normal sy ly hy y →
  -1020 ≤ lx + ly → hx + hy ≤ 1023 →
  normal (xorb sx sy) (lx + ly - 1) (hx + hy + 1) (mul x y).
Proof.
  intros (cx & Ex & -> & Dx & Hx) (cy & Ey & -> & Dy & Hy) Hlo Hhi.
  pose proof (digits_mul cx cy Dx Dy).
  rewrite mul_pair by (done || lia).
  exists (Z.to_pos (round_pair (cx * cy) (Ex + Ey)).1), (round_pair (cx * cy) (Ex + Ey)).2.
  split; [done|]. split; [apply round_pair_digits|].
  destruct (round_pair_shape (cx * cy) (Ex + Ey)) as (_ & H' & _). lia.
Qed.

(** Multiplication of positive normal doubles is monotone in both
    arguments. *)
Lemma mul_mono lo hi x1 x2 y1 y2 :
  normal false lo hi x1 → normal false lo hi x2 →
  normal false lo hi y1 → normal false lo hi y2 →
  -510 ≤ lo → hi ≤ 511 →
  ltb x2 x1 = false → ltb y2 y1 = false →
  ltb (mul x2 y2) (mul x1 y1) = false.
Proof.
  intros (c1 & E1 & -> & Dc1 & H1) (c2 & E2 & -> & Dc2 & H2)
         (d1 & F1 & -> & Dd1 & H3) (d2 & F2 & -> & Dd2 & H4) Hlo Hhi Hx Hy.
  rewrite !mul_pair by (done || lia). cbn [xorb].
  set (z := Z.min E1 E2). set (z' := Z.min F1 F2).
  pose proof (le_value c1 c2 E1 E2 z Hx Dc1 Dc2 ltac:(unfold z; lia) ltac:(unfold z; lia)) as Vx.
  pose proof (le_value d1 d2 F1 F2 z' Hy Dd1 Dd2 ltac:(unfold z'; lia) ltac:(unfold z'; lia)) as Vy.
  assert (Hz : z ≤ E1 ∧ z ≤ E2 ∧ z' ≤ F1 ∧ z' ≤ F2) by (unfold z, z'; lia).
  pose proof (round_pair_mono (c1 * d1) (c2 * d2) (E1 + F1) (E2 + F2) (z + z')
                ltac:(lia) ltac:(lia)) as Hm.
  apply not_true_iff_false. rewrite FloatOrder.ltb_key by done.
  unfold lex_lt. cbn [key fst snd]. rewrite !round_pair_pos.
  unfold pair_le in Hm. cut (Zpos (c1 * d1) * 2 ^ (E1 + F1 - (z + z'))
                             ≤ Zpos (c2 * d2) * 2 ^ (E2 + F2 - (z + z'))); [lia|].
  replace (E1 + F1 - (z + z')) with ((E1 - z) + (F1 - z')) by lia.
  replace (E2 + F2 - (z + z')) with ((E2 - z) + (F2 - z')) by lia.
  rewrite !Z.pow_add_r, !Pos2Z.inj_mul by lia.
  pose proof (pow2_pos (E1 - z) ltac:(lia)). pose proof (pow2_pos (F1 - z') ltac:(lia)).
  replace (Zpos c1 * Zpos d1 * (2 ^ (E1 - z) * 2 ^ (F1 - z')))
    with ((Zpos c1 * 2 ^ (E1 - z)) * (Zpos d1 * 2 ^ (F1 - z'))) by lia.
  replace (Zpos c2 * Zpos d2 * (2 ^ (E2 - z) * 2 ^ (F2 - z')))
    with ((Zpos c2 * 2 ^ (E2 - z)) * (Zpos d2 * 2 ^ (F2 - z'))) by lia.
  apply Z.mul_le_mono_nonneg; lia.
Qed.

Lemma pow3_normal s lo hi x :
  normal s lo hi x → -300 ≤ lo → hi ≤ 300 →
  normal s (3 * lo - 2) (3 * hi + 2) (pow3 x).
Proof.
  intros Hx Hlo Hhi. unfold pow3.
  pose proof (mul_normal s s lo hi lo hi x x Hx Hx ltac:(lia) ltac:(lia)) as H1.
  pose proof (mul_normal s (xorb s s) lo hi _ _ x (mul x x) Hx H1 ltac:(lia) ltac:(lia))
    as H2.
  replace (xorb s (xorb s s)) with s in H2 by (by destruct s).
  eapply normal_weaken; [| |exact H2]; lia.
Qed.

Lemma pow3_mono x1 x2 :
  normal false 1 65 x1 → normal false 1 65 x2 →
  ltb x2 x1 = false → ltb (pow3 x2) (pow3 x1) = false.
Proof.
  intros H1 H2 Hle. unfold pow3.
  pose proof (mul_normal _ _ _ _ _ _ x1 x1 H1 H1 ltac:(lia) ltac:(lia)) as S1.
  pose proof (mul_normal _ _ _ _ _ _ x2 x2 H2 H2 ltac:(lia) ltac:(lia)) as S2.
  cbn [xorb] in S1, S2.
  apply (mul_mono 1 131); try lia; try done;
    try (eapply normal_weaken; [| |eassumption]; lia).
  apply (mul_mono 1 65); try lia; done.
Qed.

(** *** Sums and differences *)

Lemma aligned_value (c : positive) E ez :
  ez ≤ E → Zpos (shl_align c E ez).1 = Zpos c * 2 ^ (E - ez).
Proof.
  intros H. destruct (shl_align_spec c E ez) as [E2 E1].
  rewrite E1, E2, Z.min_r by done. done.
Qed.

Lemma normal_magnitude s lo hi (c : positive) E z :
  normal s lo hi (S754_finite s c E) → z ≤ E →
  2 ^ (lo - 1 - z) ≤ Zpos c * 2 ^ (E - z) < 2 ^ (hi - z).
Proof.
  intros (c' & E' & Heq & Dc & HE) Hz. injection Heq as <- <-.
  pose proof (scaled_range c (E - z) ltac:(lia)) as [L U]. rewrite Dc in *.
  split.
  - eapply Z.le_trans; [|exact L]. apply pow2_le. lia.
  - eapply Z.lt_le_trans; [exact U|]. apply pow2_le. lia.
Qed.

(** Adding a positive normal double is monotone in that double. *)
Lemma add_mono_r h lo hi x y1 y2 :
  small h x → normal false lo hi y1 → normal false lo hi y2 →
  -500 ≤ lo → hi ≤ 1000 → h ≤ 1000 →
  ltb y2 y1 = false →
  ltb (add x y2) (add x y1) = false.
Proof.
  intros Hx N1 N2 Hlo Hhi Hh Hle.
  destruct x as [s| | |s c E]; try done.
  - destruct N1 as (c1 & E1 & -> & _), N2 as (c2 & E2 & -> & _). done.
  - cbn [small] in Hx.
    destruct N1 as (c1 & E1 & -> & Dc1 & H1), N2 as (c2 & E2 & -> & Dc2 & H2).
    unfold add. cbn [SFadd cond_Zopp].
    assert (HE : -553 ≤ E ∧ E + 53 ≤ h).
    { destruct Hx as (c' & E' & Heq & _ & HE). injection Heq as <- <-. lia. }
    set (z1 := Z.min E E1). set (z2 := Z.min E E2).
    set (z := Z.min E (Z.min E1 E2)).
    assert (Hz : z1 ≤ E ∧ z1 ≤ E1 ∧ z2 ≤ E ∧ z2 ≤ E2 ∧ z ≤ z1 ∧ z ≤ z2
                 ∧ -553 ≤ z1 ∧ -553 ≤ z2 ∧ -553 ≤ z)
      by (unfold z, z1, z2; lia).
    rewrite !aligned_value by lia.
    pose proof (le_value c1 c2 E1 E2 z Hle Dc1 Dc2 ltac:(lia) ltac:(lia)) as V.
    assert (A : ∀ (q : positive) F z', z ≤ z' → z' ≤ F →
                Zpos q * 2 ^ (F - z') * 2 ^ (z' - z) = Zpos q * 2 ^ (F - z)).
    { intros q F z' ? ?. rewrite <- Z.mul_assoc, <- Z.pow_add_r by lia.
      do 2 f_equal. lia. }
    pose proof (normal_magnitude s (-500) h c E z1 Hx ltac:(lia)) as [_ Bx1].
    pose proof (normal_magnitude s (-500) h c E z2 Hx ltac:(lia)) as [_ Bx2].
    pose proof (normal_magnitude false lo hi c1 E1 z1
                  ltac:(by exists c1, E1) ltac:(lia)) as [_ By1].
    pose proof (normal_magnitude false lo hi c2 E2 z2
                  ltac:(by exists c2, E2) ltac:(lia)) as [_ By2].
    apply (normalize_mono _ z1 _ z2 z); try lia.
    + rewrite !Z.mul_add_distr_r, !A by lia.
      destruct s; cbn [cond_Zopp]; rewrite ?Z.mul_opp_l, ?A by lia; lia.
    + apply (normal_range_intro _ _ 1001); try lia.
      pose proof (pow2_le (h - z1) (1000 - z1) ltac:(lia)).
      pose proof (pow2_le (hi - z1) (1000 - z1) ltac:(lia)).
      replace (1001 - z1) with (Z.succ (1000 - z1)) by lia.
      rewrite Z.pow_succ_r by lia.
      destruct s; cbn [cond_Zopp]; lia.
    + apply (normal_range_intro _ _ 1001); try lia.
      pose proof (pow2_le (h - z2) (1000 - z2) ltac:(lia)).
      pose proof (pow2_le (hi - z2) (1000 - z2) ltac:(lia)).
      replace (1001 - z2) with (Z.succ (1000 - z2)) by lia.
      rewrite Z.pow_succ_r by lia.
      destruct s; cbn [cond_Zopp]; lia.
Qed.

(** The difference of two converted non-zero integers. *)
Lemma sub_small x y :
  Int64.in_range x → Int64.in_range y → x ≠ 0 → y ≠ 0 →
  small 67 (sub (of_int x) (of_int y)).
Proof.
  intros Hx Hy Nx Ny.
  destruct (of_int_normal x Hx Nx) as (cx & Ex & -> & Dx & HEx).
  destruct (of_int_normal y Hy Ny) as (cy & Ey & -> & Dy & HEy).
  unfold sub. cbn [SFsub].
  set (z := Z.min Ex Ey). assert (Hz : z ≤ Ex ∧ z ≤ Ey ∧ -52 ≤ z) by (unfold z; lia).
  rewrite !aligned_value by lia.
  pose proof (normal_magnitude (x <? 0) 1 65 cx Ex z ltac:(by exists cx, Ex) ltac:(lia))
    as [_ Bx].
  pose proof (normal_magnitude (y <? 0) 1 65 cy Ey z ltac:(by exists cy, Ey) ltac:(lia))
    as [_ By].
  set (Z := cond_Zopp (x <? 0) (Zpos cx * 2 ^ (Ex - z))
            - cond_Zopp (y <? 0) (Zpos cy * 2 ^ (Ey - z))).
  assert (HZ : Z.abs Z < 2 ^ (66 - z)).
  { replace (66 - z) with (Z.succ (65 - z)) by lia. rewrite Z.pow_succ_r by lia.
    unfold Z. destruct (x <? 0), (y <? 0); cbn [cond_Zopp]; lia. }
  destruct (Z.eq_dec Z 0) as [->|NZ]; [done|].
  assert (N : normal (Z <? 0) (-500) 67 (binary_normalize prec emax Z z false)).
  { apply normalize_normal; try lia. split.
    - pose proof (pow2_le (-500 - 1 - z) 0 ltac:(lia)). simpl in *. lia.
    - replace (67 - 1 - z) with (66 - z) by lia. done. }
  destruct N as (c & E & -> & N). cbn [small]. exists c, E. done.
Qed.

(** A small double added to 2^206 does not come out below 2^206. *)
Lemma add_two_pow_206 x :
  small 67 x → ltb (add x two_pow_206) two_pow_206 = false.
Proof.
  intros Hx. destruct x as [s| | |s c E]; try done.
  cbn [small] in Hx.
  assert (HE : -553 ≤ E ∧ E + 53 ≤ 67).
  { destruct Hx as (c' & E' & Heq & _ & HE). injection Heq as <- <-. lia. }
  unfold add, two_pow_206. cbn [SFadd cond_Zopp].
  rewrite (Z.min_l E 154) by lia. rewrite !aligned_value by lia.
  replace (Zpos c * 2 ^ (E - E)) with (Zpos c) by (rewrite Z.sub_diag; lia).
  replace (S754_finite false (2 ^ 52) 154)
    with (binary_normalize prec emax (2 ^ 206 - 2 ^ 67) 0 false)
    by (vm_compute; reflexivity).
  set (z := Z.min E 0). assert (Hz : z ≤ E ∧ z ≤ 0 ∧ -553 ≤ z) by (unfold z; lia).
  pose proof (normal_magnitude s (-500) 67 c E z Hx ltac:(lia)) as [_ B0].
  pose proof (normal_magnitude s (-500) 67 c E E Hx ltac:(lia)) as [_ B1].
  replace (Zpos c * 2 ^ (E - E)) with (Zpos c) in B1 by (rewrite Z.sub_diag; lia).
  pose proof (pow2_pos (- z) ltac:(lia)) as PA.
  pose proof (pow2_pos (- E + 14) ltac:(lia)) as PB.
  assert (P1 : 2 ^ (67 - z) = 2 ^ 67 * 2 ^ (- z)).
  { (rewrite <- Z.pow_add_r by lia); f_equal; lia. }
  assert (P2 : Zpos (2 ^ 52) * 2 ^ (154 - E) * 2 ^ (E - z) = 2 ^ 206 * 2 ^ (- z)).
  { change (Zpos (2 ^ 52)) with (2 ^ 52).
    (rewrite <- !Z.pow_add_r by lia); f_equal; lia. }
  assert (P3 : 2 ^ (67 - E) = 2 ^ 53 * 2 ^ (- E + 14)).
  { (rewrite <- Z.pow_add_r by lia); f_equal; lia. }
  assert (P4 : Zpos (2 ^ 52) * 2 ^ (154 - E) = 2 ^ 192 * 2 ^ (- E + 14)).
  { change (Zpos (2 ^ 52)) with (2 ^ 52).
    (rewrite <- !Z.pow_add_r by lia); f_equal; lia. }
  assert (P5 : 2 ^ (208 - E) = 2 ^ 194 * 2 ^ (- E + 14)).
  { (rewrite <- Z.pow_add_r by lia); f_equal; lia. }
  apply (normalize_mono _ 0 _ E z); try lia.
  - replace (0 - z) with (- z) by lia.
    rewrite Z.mul_add_distr_r, P2.
    rewrite P1 in B0.
    destruct s; cbn [cond_Zopp]; rewrite ?Z.mul_opp_l; lia.
  - by vm_compute.
  - apply (normal_range_intro _ _ 208); try lia.
    rewrite P4, P5. rewrite P3 in B1.
    destruct s; cbn [cond_Zopp]; lia.
Qed.

End FloatRound.

(** ** Load response of the general formula *)

Section Monotone.

Import FloatExact.

Variable c : CostAggregation.

Hypothesis service_pos : 0 < ServiceTime c.
Hypothesis queued_nonneg : 0 ≤ TotalNQ c.

Lemma exactWorkload_mono k1 k2 :
  0 ≤ k1 < k2 → exactWorkload c k1 < exactWorkload c k2.
Proof.
  intros H. unfold exactWorkload.
  apply Z.mul_lt_mono_pos_r; [done|].
  apply Z.pow_lt_mono_l; lia.
Qed.

Lemma exactWorkload_ge k : 0 ≤ k → ServiceTime c ≤ exactWorkload c k.
Proof.
  intros H. unfold exactWorkload.
  assert (1 ≤ (1 + TotalNQ c + k) ^ 3) by (apply (Z.pow_le_mono_l 1 _ 3); lia).
  nia.
Qed.

(** Below 2^53 every step of the general formula is exact. *)
Lemma generalScore_exact k :
  0 ≤ k →
  Z.abs (ResponseTime c) + exactWorkload c k < 2 ^ 53 →
  ltb (workloadOf c k) zero = false
  ∧ generalScore c k = canon (ResponseTime c - ServiceTime c + exactWorkload c k).
Proof.
  intros Hk Hb. pose proof (exactWorkload_ge k Hk) as HS.
  set (base := 1 + TotalNQ c + k).
  assert (Hbase : 0 < base) by (unfold base; lia).
  assert (Hcube : base ^ 3 ≤ exactWorkload c k) by (unfold exactWorkload; fold base; nia).
  assert (Hsq : base * base ≤ base ^ 3) by nia.
  assert (Hle : base ≤ base * base) by nia.
  assert (Hwrap : Int64.add (Int64.add 1 (TotalNQ c)) k = base).
  { unfold Int64.add, base.
    rewrite (wrap_in_range (1 + TotalNQ c)), wrap_in_range; [lia| |];
      unfold Int64.in_range, Int64.min_signed, Int64.max_signed;
      change (2 ^ 63) with 9223372036854775808;
      change (2 ^ 53) with 9007199254740992 in *; lia. }
  assert (Hw : workloadOf c k = canon (exactWorkload c k)).
  { unfold workloadOf, pow3. rewrite Hwrap.
    rewrite (of_int_exact base), (of_int_exact (ServiceTime c)) by lia.
    rewrite (mul_exact base base), (mul_exact base (base * base)) by lia.
    rewrite mul_exact; [|nia|done|]; unfold exactWorkload; fold base.
    - f_equal. lia.
    - replace (base * (base * base)) with (base ^ 3) by lia.
      unfold exactWorkload in Hb. fold base in Hb. lia. }
  split.
  - rewrite Hw. destruct (exactWorkload c k) eqn:E; try lia; done.
  - unfold generalScore. rewrite Hw.
    replace (ltb (canon (exactWorkload c k)) zero) with false
      by (destruct (exactWorkload c k) eqn:E; try lia; done).
    rewrite (of_int_exact (ResponseTime c)), (of_int_exact (ServiceTime c)) by lia.
    rewrite sub_exact, add_exact by lia. done.
Qed.

End Monotone.

(** ** The general formula is monotone in the cube base *)

Section MonotoneRounded.

Import FloatRound.

Variable c : CostAggregation.

Hypothesis cost_int64 : int64_cost c.
Hypothesis response_nonzero : ResponseTime c ≠ 0.
Hypothesis service_nonzero : ServiceTime c ≠ 0.

Lemma executeSpeed_small :
  small 67 (sub (of_int (ResponseTime c)) (of_int (ServiceTime c))).
Proof. destruct cost_int64 as (? & ? & ?). by apply sub_small. Qed.

Lemma workloadOf_normal k :
  Int64.add (Int64.add 1 (TotalNQ c)) k ≠ 0 →
  normal (xorb (Int64.add (Int64.add 1 (TotalNQ c)) k <? 0) (ServiceTime c <? 0))
         0 263 (workloadOf c k).
Proof.
  intros Hb. destruct cost_int64 as (_ & HS & _). unfold workloadOf.
  pose proof (of_int_normal _ (wrap_range (Int64.add 1 (TotalNQ c) + k)) Hb) as H1.
  pose proof (pow3_normal _ _ _ _ H1 ltac:(lia) ltac:(lia)) as H2.
  pose proof (of_int_normal _ HS service_nonzero) as H3.
  pose proof (mul_normal _ _ _ _ _ _ _ _ H2 H3 ltac:(lia) ltac:(lia)) as H4.
  eapply normal_weaken; [| |exact H4]; lia.
Qed.

(** With a negative [ServiceTime] and a positive cube base, or the other way
    round, the guard answers. *)
Lemma generalScore_guarded k :
  Int64.add (Int64.add 1 (TotalNQ c)) k ≠ 0 →
  xorb (Int64.add (Int64.add 1 (TotalNQ c)) k <? 0) (ServiceTime c <? 0) = true →
  generalScore c k = MaxFloat64.
Proof.
  intros Hb Hs. pose proof (workloadOf_normal k Hb) as H. rewrite Hs in H.
  unfold generalScore. by rewrite (normal_negative _ _ _ H).
Qed.

Lemma generalScore_unguarded k :
  Int64.add (Int64.add 1 (TotalNQ c)) k ≠ 0 →
  xorb (Int64.add (Int64.add 1 (TotalNQ c)) k <? 0) (ServiceTime c <? 0) = false →
  generalScore c k
  = add (sub (of_int (ResponseTime c)) (of_int (ServiceTime c))) (workloadOf c k).
Proof.
  intros Hb Hs. pose proof (workloadOf_normal k Hb) as H. rewrite Hs in H.
  unfold generalScore. by rewrite (normal_positive _ _ _ H).
Qed.

(** The workload term is monotone in the cube base as long as base and
    [ServiceTime] are positive. *)
Lemma workloadOf_mono k1 k2 :
  0 < ServiceTime c →
  0 < Int64.add (Int64.add 1 (TotalNQ c)) k1 ≤ Int64.add (Int64.add 1 (TotalNQ c)) k2 →
  ltb (workloadOf c k2) (workloadOf c k1) = false.
Proof.
  intros HS Hb. destruct cost_int64 as (_ & HSr & _). unfold workloadOf.
  set (b1 := Int64.add (Int64.add 1 (TotalNQ c)) k1) in *.
  set (b2 := Int64.add (Int64.add 1 (TotalNQ c)) k2) in *.
  assert (R1 : Int64.in_range b1) by apply wrap_range.
  assert (R2 : Int64.in_range b2) by apply wrap_range.
  pose proof (of_int_normal b1 R1 ltac:(lia)) as N1.
  pose proof (of_int_normal b2 R2 ltac:(lia)) as N2.
  pose proof (of_int_normal _ HSr service_nonzero) as N3.
  replace (b1 <? 0) with false in N1 by (symmetry; apply Z.ltb_ge; lia).
  replace (b2 <? 0) with false in N2 by (symmetry; apply Z.ltb_ge; lia).
  replace (ServiceTime c <? 0) with false in N3 by (symmetry; apply Z.ltb_ge; lia).
  pose proof (pow3_normal _ _ _ _ N1 ltac:(lia) ltac:(lia)) as P1.
  pose proof (pow3_normal _ _ _ _ N2 ltac:(lia) ltac:(lia)) as P2.
  apply (mul_mono 1 197); try lia;
    try (eapply normal_weaken; [| |eassumption]; lia).
  - apply pow3_mono; try done. apply of_int_mono; try done. lia.
  - apply FloatOrder.ltb_irrefl.
Qed.

Lemma generalScore_mono_base k1 k2 :
  0 < Int64.add (Int64.add 1 (TotalNQ c)) k1 ≤ Int64.add (Int64.add 1 (TotalNQ c)) k2 →
  ltb (generalScore c k2) (generalScore c k1) = false.
Proof.
  intros Hb.
  set (b1 := Int64.add (Int64.add 1 (TotalNQ c)) k1) in *.
  set (b2 := Int64.add (Int64.add 1 (TotalNQ c)) k2) in *.
  assert (E1 : (b1 <? 0) = false) by (apply Z.ltb_ge; lia).
  assert (E2 : (b2 <? 0) = false) by (apply Z.ltb_ge; lia).
  destruct (Z.ltb_spec (ServiceTime c) 0) as [Hneg|Hpos].
  - rewrite !generalScore_guarded; fold b1 b2; try lia;
      try (rewrite ?E1, ?E2; by apply Z.ltb_lt in Hneg as ->).
    apply FloatOrder.ltb_irrefl.
  - assert (ES : (ServiceTime c <? 0) = false) by (apply Z.ltb_ge; lia).
    pose proof (workloadOf_normal k1 ltac:(fold b1; lia)) as W1.
    pose proof (workloadOf_normal k2 ltac:(fold b2; lia)) as W2.
    fold b1 in W1. fold b2 in W2. rewrite E1, ES in W1. rewrite E2, ES in W2.
    cbn [xorb] in W1, W2.
    rewrite !generalScore_unguarded; fold b1 b2; try lia;
      try (by rewrite ?E1, ?E2, ES).
    apply (add_mono_r 67 0 263); try done; try lia.
    + apply executeSpeed_small.
    + apply workloadOf_mono; [lia|]. fold b1 b2. lia.
Qed.

End MonotoneRounded.

Lemma wrap_add_wrap a k : Int64.add (Int64.add 1 a) k = Int64.wrap (1 + a + k).
Proof.
  unfold Int64.add. destruct (wrap_decompose (1 + a)) as [j ->].
  replace (1 + a + j * 2 ^ 64 + k) with (1 + a + k + j * 2 ^ 64) by lia.
  apply wrap_shift.
Qed.

Lemma scoreBranch_general now b node c k :
  scoreBranch now b node (Some c) k = GeneralBranch →
  ResponseTime c ≠ 0 ∧ ServiceTime c ≠ 0.
Proof.
  unfold scoreBranch.
  destruct (Z.eqb_spec (ResponseTime c) 0), (Z.eqb_spec (ServiceTime c) 0); done.
Qed.

(** C6 as amended: for a fixed aggregation and in-flight values [k1], [k2]
    that both take the general branch, the score at [k2] is not below the
    score at [k1] whenever the aggregation holds [int64] values, [k1 ≤ k2],
    and the cube base [1 + TotalNQ + k] is positive at [k1] and not past
    [MaxInt64] at [k2]: so for every [TotalNQ ≥ 0] and [0 ≤ k1 ≤ k2] short of
    wrap-around, whatever the sign of [ServiceTime] and the size of
    [ResponseTime].  The score at [k2] is strictly above the score at [k1]
    when moreover [k1 < k2], [ServiceTime > 0] and
    [|ResponseTime| + (1 + TotalNQ + k2)^3 * ServiceTime < 2^53], the range
    in which every floating-point step of the formula is exact. *)
Theorem general_score_monotone now b node c k1 k2 :
  scoreBranch now b node (Some c) k1 = GeneralBranch →
  scoreBranch now b node (Some c) k2 = GeneralBranch →
  (int64_cost c → 0 < 1 + TotalNQ c + k1 → k1 ≤ k2 →
   1 + TotalNQ c + k2 ≤ Int64.max_signed →
   ltb (calculateScore now b node (Some c) k2)
       (calculateScore now b node (Some c) k1) = false)
  ∧ (0 < ServiceTime c → 0 ≤ TotalNQ c → 0 ≤ k1 < k2 →
     Z.abs (ResponseTime c) + exactWorkload c k2 < 2 ^ 53 →
     ltb (calculateScore now b node (Some c) k1)
         (calculateScore now b node (Some c) k2) = true).
Proof.
  intros B1 B2. rewrite !calculateScore_by_branch, B1, B2.
  destruct (scoreBranch_general _ _ _ _ _ B1) as [HR HS].
  split.
  - intros Hc Hpos Hk Hmax.
    assert (E : ∀ k, k1 ≤ k ≤ k2 →
                Int64.add (Int64.add 1 (TotalNQ c)) k = 1 + TotalNQ c + k).
    { intros k Hk'. rewrite wrap_add_wrap. apply wrap_in_range.
      unfold Int64.in_range, Int64.max_signed, Int64.min_signed in *.
      change (2 ^ 63) with 9223372036854775808 in *. lia. }
    apply generalScore_mono_base; try done.
    rewrite (E k1), (E k2) by lia. lia.
  - intros HSp HT Hk Hb.
    pose proof (exactWorkload_mono c HSp HT k1 k2 Hk) as Hmono.
    pose proof (exactWorkload_ge c HSp HT k1 ltac:(lia)) as Hge.
    destruct (generalScore_exact c HSp HT k1 ltac:(lia) ltac:(lia)) as [_ ->].
    destruct (generalScore_exact c HSp HT k2 ltac:(lia) ltac:(lia)) as [_ ->].
    apply FloatExact.lt_exact; lia.
Qed.

Lemma general_score_monotone_witness :
  let score k := calculateScore 0 NewLookAsideBalancer 1 (Some Scenario.ordinary_cost) k in
  ltb (score 2) (score 1) = false ∧ ltb (score 1) (score 2) = true.
Proof.
  destruct (general_score_monotone 0 NewLookAsideBalancer 1 Scenario.ordinary_cost 1 2)
    as [Hle Hlt]; [reflexivity|reflexivity|].
  split.
  - apply Hle; [|vm_compute; reflexivity|lia|vm_compute; discriminate].
    unfold int64_cost, Int64.in_range, Int64.min_signed, Int64.max_signed.
    simpl. lia.
  - apply Hlt; [reflexivity|simpl; lia|lia|vm_compute; reflexivity].
Defined.

(** C6 as stated fails.  With two units cancelled on an idle counter the
    in-flight value is negative, the workload term is negative and the guard
    of line 156 answers [MaxFloat64]: the score at -3 is above the score at 0.
    With non-negative in-flight values the conversion to [float64] rounds
    2^53 + 1 to 2^53: the scores at 2^53 - 1 and 2^53 are equal.  All four
    evaluations take the general branch. *)
Lemma general_score_not_increasing :
  let b := NewLookAsideBalancer in
  let c := Scenario.ordinary_cost in
  let score k := calculateScore 0 b 1 (Some c) k in
  (scoreBranch 0 b 1 (Some c) (-3) = GeneralBranch
   ∧ scoreBranch 0 b 1 (Some c) 0 = GeneralBranch
   ∧ -3 < 0
   ∧ score (-3) = MaxFloat64
   ∧ score 0 = of_int 50
   ∧ ltb (score (-3)) (score 0) = false
   ∧ ltb (score 0) (score (-3)) = true)
  ∧ (scoreBranch 0 b 1 (Some c) (2 ^ 53 - 1) = GeneralBranch
     ∧ scoreBranch 0 b 1 (Some c) (2 ^ 53) = GeneralBranch
     ∧ 2 ^ 53 - 1 < 2 ^ 53
     ∧ score (2 ^ 53 - 1) = score (2 ^ 53)
     ∧ ltb (score (2 ^ 53 - 1)) (score (2 ^ 53)) = false).
Proof.
  cbv zeta. split_and!; try (vm_compute; reflexivity).
Qed.

(** Strictness needs a bound on [ResponseTime] as well: with
    [ResponseTime = 2^57] and [ServiceTime = 1] the workloads 1 and 8 of the
    in-flight values 0 and 1 are both absorbed by the rounding of the sum,
    and the two scores are equal. *)
Lemma general_score_tie_by_absorption :
  let b := NewLookAsideBalancer in
  let c := Scenario.absorbing_cost in
  scoreBranch 0 b 1 (Some c) 0 = GeneralBranch
  ∧ scoreBranch 0 b 1 (Some c) 1 = GeneralBranch
  ∧ calculateScore 0 b 1 (Some c) 0 = calculateScore 0 b 1 (Some c) 1
  ∧ ltb (calculateScore 0 b 1 (Some c) 0) (calculateScore 0 b 1 (Some c) 1) = false.
Proof. cbv zeta. split_and!; vm_compute; reflexivity. Qed.

(** ** The overflow guard *)

Section Guard.

Import FloatBounds.

Lemma sign_false_not_negative x : sign_is false x → ltb x zero = false.
Proof. destruct x as [s|s| |s m e]; simpl; try done; by intros ->. Qed.

(** Nothing bounded by 2^972 is above [math.MaxFloat64]. *)
Lemma ltb_MaxFloat64_bounded K x :
  bounded_by K x → K ≤ 972 → ltb MaxFloat64 x = false.
Proof.
  destruct x as [s| | |s m e]; simpl; try done. intros Hm HK.
  destruct s; [done|]. unfold ltb, SFltb, MaxFloat64. cbn [SFcompare].
  pose proof (pow2_gt_1 (Zpos m) (K - e) ltac:(lia) Hm) as He.
  destruct (Z.compare_spec 971 e) as [<-|?|?]; [|lia|done].
  change (Pos.compare_cont Eq (2 ^ 53 - 1) m) with ((2 ^ 53 - 1) ?= m)%positive.
  destruct (Pos.compare_spec (2 ^ 53 - 1) m) as [?|Hlt|?]; [done| |done].
  exfalso. assert (K - 971 = 1) as E by lia. rewrite E in Hm.
  change (2 ^ 1) with 2 in Hm. lia.
Qed.

Lemma generalScore_range c k :
  int64_cost c →
  generalScore c k = MaxFloat64 ∨ bounded_by 265 (generalScore c k).
Proof.
  intros (HR & HS & _). unfold generalScore.
  destruct (ltb (workloadOf c k) zero); [by left|right].
  apply (add_bounded 263).
  - apply (bounded_by_mono 67); [lia|]. apply (sub_bounded 65).
    + by apply of_int_bounded.
    + by apply of_int_bounded.
    + lia.
  - by apply workloadOf_bounded.
  - lia.
Qed.

(** No score is above [math.MaxFloat64]. *)
Lemma scoreOf_le_MaxFloat64 now b node :
  int64_telemetry b → ltb MaxFloat64 (scoreOf now b node) = false.
Proof.
  intros Hb. unfold scoreOf. rewrite calculateScore_by_branch.
  destruct (scoreBranch now b node _ _), (getCost b node) as [c|] eqn:Ec;
    try done;
    try (apply (ltb_MaxFloat64_bounded 197); [apply fallbackScore_bounded|lia]).
  assert (Hc : int64_cost c).
  { apply (Hb node). unfold getCost in Ec.
    destruct (metricsMap b !! node) as [o|]; simpl in Ec; by subst. }
  destruct (generalScore_range c (inflight b node) Hc) as [->|H].
  - apply FloatOrder.ltb_irrefl.
  - by apply (ltb_MaxFloat64_bounded 265).
Qed.

(** With a positive cube base and a positive [ServiceTime] the workload term
    is not negative: the guard does not apply. *)
Lemma workload_not_negative c k :
  Int64.in_range (ServiceTime c) → 0 < ServiceTime c →
  0 ≤ Int64.add (Int64.add 1 (TotalNQ c)) k →
  ltb (workloadOf c k) zero = false.
Proof.
  intros HS Hpos Hbase. apply sign_false_not_negative.
  destruct (workloadOf_bounded c k HS) as [_ Hs].
  replace (Int64.add (Int64.add 1 (TotalNQ c)) k <? 0) with false in Hs
    by (symmetry; apply Z.ltb_ge; lia).
  replace (ServiceTime c <? 0) with false in Hs
    by (symmetry; apply Z.ltb_ge; lia).
  done.
Qed.

End Guard.

(** ** A node reporting a huge queue *)

Section HugeQueue.

Import FloatRound.

Variable c : CostAggregation.

Hypothesis cost_int64 : int64_cost c.
Hypothesis response_nonzero : ResponseTime c ≠ 0.
Hypothesis huge_queue : TotalNQ c = 2 ^ 62.
Hypothesis service_time : ServiceTime c = 2 ^ 20.

(** Whatever the response time and the non-negative in-flight value, the
    general formula scores such a node at 2^206 or above: by the size of the
    workload term while the cube base fits [int64], by the guard once it
    wraps. *)
Lemma huge_queue_score k :
  Int64.in_range k → 0 ≤ k → ltb (generalScore c k) two_pow_206 = false.
Proof.
  intros Hk Hk0.
  assert (HS : ServiceTime c ≠ 0) by (rewrite service_time; lia).
  unfold Int64.in_range, Int64.min_signed, Int64.max_signed in Hk.
  assert (Hbase : Int64.add (Int64.add 1 (TotalNQ c)) k
                  = Int64.wrap (1 + 4611686018427387904 + k))
    by (by rewrite wrap_add_wrap, huge_queue).
  change (2 ^ 63) with 9223372036854775808 in Hk.
  destruct (Z.le_gt_cases k (2 ^ 62 - 2)) as [Hsmall|Hwrap].
  - change (2 ^ 62 - 2) with 4611686018427387902 in Hsmall.
    rewrite wrap_in_range in Hbase
      by (unfold Int64.in_range, Int64.min_signed, Int64.max_signed;
          change (2 ^ 63) with 9223372036854775808; lia).
    assert (Hbase0 : Int64.add (Int64.add 1 (TotalNQ c)) 0 = 4611686018427387905).
    { rewrite huge_queue. by vm_compute. }
    apply (ltb_false_trans _ (generalScore c 0)).
    + pose proof (generalScore_finite c k cost_int64). by destruct (generalScore c k).
    + pose proof (generalScore_finite c 0 cost_int64). by destruct (generalScore c 0).
    + done.
    + apply generalScore_mono_base; try done. rewrite Hbase, Hbase0. lia.
    + rewrite generalScore_unguarded; try done.
      * replace (workloadOf c 0) with two_pow_206.
        -- apply add_two_pow_206. by apply executeSpeed_small.
        -- unfold workloadOf. rewrite huge_queue, service_time. by vm_compute.
      * rewrite Hbase0. done.
      * rewrite Hbase0, service_time. done.
  - change (2 ^ 62 - 2) with 4611686018427387902 in Hwrap.
    destruct (wrap_decompose (1 + 4611686018427387904 + k)) as [j Hj].
    pose proof (wrap_range (1 + 4611686018427387904 + k)) as Hr.
    unfold Int64.in_range, Int64.min_signed, Int64.max_signed in Hr.
    change (2 ^ 63) with 9223372036854775808 in Hr.
    change (2 ^ 64) with 18446744073709551616 in Hj.
    assert (Hneg : Int64.add (Int64.add 1 (TotalNQ c)) k < 0) by lia.
    rewrite generalScore_guarded; try done.
    + lia.
    + apply Z.ltb_lt in Hneg as ->. rewrite service_time. done.
Qed.

End HugeQueue.

Lemma int64_telemetry_with_huge : int64_telemetry Scenario.with_huge.
Proof.
  intros node c H. unfold Scenario.with_huge in H. cbn [metricsMap] in H.
  apply lookup_insert_Some in H as [[_ E]|[_ H]].
  - injection E as <-. unfold int64_cost, Int64.in_range,
      Int64.min_signed, Int64.max_signed. simpl. lia.
  - apply lookup_singleton_Some in H as [_ E].
    injection E as <-. unfold int64_cost, Int64.in_range,
      Int64.min_signed, Int64.max_signed. simpl. lia.
Qed.


(** C7 as amended: in the general branch a negative workload term makes the
    score [math.MaxFloat64], the largest finite double and not +∞; every
    score is finite and none is above [MaxFloat64].  A node reporting
    [TotalNQ = 2^62] and [ServiceTime = 2^20] with a non-negative [int64]
    in-flight value is scored 2^206 or above, whatever its response time, and
    is not returned by [SelectNode] when some surviving candidate has a score
    below 2^206 (no surviving candidate being -1).  With an in-flight value
    in [[0, 2^62 - 1)] the workload term of that node is not negative, so it
    is the size of the general formula, 2^206 for the workload with nothing
    in flight, that keeps the node from being selected, not the guard. *)
Theorem overflow_guard_answers_MaxFloat64 now b l cost X c :
  int64_telemetry b →
  (∀ n, n ∈ l → survives b n → n ≠ -1) →
  getCost b X = Some c →
  scoreBranch now b X (Some c) (inflight b X) = GeneralBranch →
  (ltb (workloadOf c (inflight b X)) zero = true → scoreOf now b X = MaxFloat64)
  ∧ MaxFloat64 ≠ pos_infinity
  ∧ is_finite (scoreOf now b X) = true
  ∧ (∀ Y, ltb MaxFloat64 (scoreOf now b Y) = false)
  ∧ (TotalNQ c = 2 ^ 62 → ServiceTime c = 2 ^ 20 →
     Int64.in_range (inflight b X) → 0 ≤ inflight b X →
     ltb (scoreOf now b X) two_pow_206 = false
     ∧ ∀ Y, Y ∈ l → survives b Y →
            ltb (scoreOf now b Y) two_pow_206 = true →
            (SelectNode now b l cost).2 ≠ inr X)
  ∧ (TotalNQ c = 2 ^ 62 → ServiceTime c = 2 ^ 20 →
     0 ≤ inflight b X < 2 ^ 62 - 1 →
     ltb (workloadOf c (inflight b X)) zero = false
     ∧ scoreOf now b X =
         add (sub (of_int (ResponseTime c)) (of_int (ServiceTime c)))
             (workloadOf c (inflight b X)))
  ∧ (TotalNQ c = 2 ^ 62 → ServiceTime c = 2 ^ 20 → inflight b X = 0 →
     workloadOf c (inflight b X) = S754_finite false (2 ^ 52) 154).
Proof.
  intros Hb Hl Hc Hbr.
  assert (Hscore : scoreOf now b X = generalScore c (inflight b X)).
  { unfold scoreOf. by rewrite Hc, calculateScore_by_branch, Hbr. }
  assert (Hint : int64_cost c).
  { apply (Hb X). unfold getCost in Hc.
    destruct (metricsMap b !! X) as [o|]; simpl in Hc; by subst. }
  destruct (scoreBranch_general _ _ _ _ _ Hbr) as [HR _].
  split_and!.
  - intros Hneg. rewrite Hscore. unfold generalScore. by rewrite Hneg.
  - done.
  - by apply scoreOf_finite.
  - intros Y. by apply scoreOf_le_MaxFloat64.
  - intros HT HS Hr Hk.
    assert (Hlow : ltb (scoreOf now b X) two_pow_206 = false).
    { rewrite Hscore. by apply huge_queue_score. }
    split; [done|]. intros Y HY SY Hlt Hret.
    assert (Hbeat : ltb (scoreOf now b Y) (scoreOf now b X) = true).
    { apply (FloatOrder.ltb_neg_trans _ _ two_pow_206); try done.
      by apply scoreOf_not_nan. }
    destruct (selectLoop_first_minimum now b l Hb Hl) as (i & Hmin); [by exists Y|].
    rewrite SelectNode_result in Hret. cbv zeta in Hret.
    destruct (_ =? -1); [done|]. injection Hret as Hret. rewrite Hret in Hmin.
    rewrite (first_minimum_least _ _ _ _ _ Y Hmin HY) in Hbeat; [done|].
    by apply bool_decide_eq_true.
  - intros HT HS Hk.
    assert (Hw : ltb (workloadOf c (inflight b X)) zero = false).
    { apply workload_not_negative.
      - rewrite HS. by vm_compute.
      - rewrite HS. done.
      - unfold Int64.add. rewrite HT.
        rewrite (wrap_in_range (1 + 2 ^ 62)) by (by vm_compute).
        rewrite wrap_in_range; [lia|].
        unfold Int64.in_range, Int64.min_signed, Int64.max_signed.
        change (2 ^ 63) with 9223372036854775808.
        change (2 ^ 62) with 4611686018427387904 in *. lia. }
    split; [done|]. rewrite Hscore. unfold generalScore. by rewrite Hw.
  - intros HT HS ->. unfold workloadOf. rewrite HT, HS. by vm_compute.
Qed.

Lemma overflow_guard_answers_MaxFloat64_witness :
  let now := 10000 in
  let b := Scenario.with_huge in
  let l := [3; 2] in
  let c := Scenario.huge_cost in
  (ltb (workloadOf c (inflight b 3)) zero = true → scoreOf now b 3 = MaxFloat64)
  ∧ MaxFloat64 ≠ pos_infinity
  ∧ is_finite (scoreOf now b 3) = true
  ∧ (∀ Y, ltb MaxFloat64 (scoreOf now b Y) = false)
  ∧ (TotalNQ c = 2 ^ 62 → ServiceTime c = 2 ^ 20 →
     Int64.in_range (inflight b 3) → 0 ≤ inflight b 3 →
     ltb (scoreOf now b 3) two_pow_206 = false
     ∧ ∀ Y, Y ∈ l → survives b Y →
            ltb (scoreOf now b Y) two_pow_206 = true →
            (SelectNode now b l 1).2 ≠ inr 3)
  ∧ (TotalNQ c = 2 ^ 62 → ServiceTime c = 2 ^ 20 →
     0 ≤ inflight b 3 < 2 ^ 62 - 1 →
     ltb (workloadOf c (inflight b 3)) zero = false
     ∧ scoreOf now b 3 =
         add (sub (of_int (ResponseTime c)) (of_int (ServiceTime c)))
             (workloadOf c (inflight b 3)))
  ∧ (TotalNQ c = 2 ^ 62 → ServiceTime c = 2 ^ 20 → inflight b 3 = 0 →
     workloadOf c (inflight b 3) = S754_finite false (2 ^ 52) 154).
Proof.
  apply (overflow_guard_answers_MaxFloat64 10000 Scenario.with_huge [3; 2] 1 3
           Scenario.huge_cost).
  - exact int64_telemetry_with_huge.
  - intros n Hn _.
    apply elem_of_cons in Hn as [->|Hn]; [lia|].
    apply elem_of_cons in Hn as [->|Hn]; [lia|].
    by apply elem_of_nil in Hn.
  - vm_compute. reflexivity.
  - vm_compute. reflexivity.
Defined.

(** On that balancer the node reporting the huge queue is scored 2^206 by the
    general formula and the ordinary node is returned. *)
Lemma with_huge_selects_ordinary :
  scoreOf 10000 Scenario.with_huge 3 = S754_finite false (2 ^ 52) 154
  ∧ scoreOf 10000 Scenario.with_huge 2 = of_int 50
  ∧ (SelectNode 10000 Scenario.with_huge [3; 2] 1).2 = inr 2.
Proof. split_and!; vm_compute; reflexivity. Qed.

(** C7 as stated fails on its first half: with [TotalNQ = 2^63 - 1] the cube
    base wraps to a negative number, the workload term is negative, and the
    score is [math.MaxFloat64], a finite double different from +∞.  The
    aggregation of the second half, [TotalNQ = 2^62] with
    [ServiceTime = 2^20], does not reach the guard: its workload term is
    positive and its score is 2^206.  And the node reporting it is returned
    in preference to an ordinary candidate when that candidate has the
    id -1. *)
Lemma overflow_guard_not_infinity :
  let b := NewLookAsideBalancer in
  let c := Scenario.wrapping_cost in
  let b' := Scenario.with_huge_and_minus_one in
  scoreBranch 0 b 1 (Some c) 0 = GeneralBranch
  ∧ ltb (workloadOf c 0) zero = true
  ∧ calculateScore 0 b 1 (Some c) 0 = MaxFloat64
  ∧ calculateScore 0 b 1 (Some c) 0 ≠ pos_infinity
  ∧ is_finite (calculateScore 0 b 1 (Some c) 0) = true
  ∧ scoreBranch 0 b 1 (Some Scenario.huge_cost) 0 = GeneralBranch
  ∧ ltb (workloadOf Scenario.huge_cost 0) zero = false
  ∧ scoreOf 10000 b' 3 = S754_finite false (2 ^ 52) 154
  ∧ scoreOf 10000 b' (-1) = of_int 50
  ∧ (SelectNode 10000 b' [-1; 3] 1).2 = inr 3.
Proof.
  cbv zeta. split_and!; try (vm_compute; reflexivity).
  vm_compute. discriminate.
Qed.

(** Outside the general branch the queue length is not looked at: the same
    huge [TotalNQ] with [ResponseTime = 0] is scored by the fallback, 1 with
    nothing in flight, and that node is preferred to the ordinary one. *)
Lemma huge_queue_without_response_time_wins :
  let b := Scenario.with_huge_silent in
  scoreBranch 10000 b 3 (getCost b 3) (inflight b 3) = FallbackBranch
  ∧ scoreOf 10000 b 3 = one
  ∧ scoreOf 10000 b 2 = of_int 50
  ∧ (SelectNode 10000 b [2; 3] 1).2 = inr 3.
Proof. cbv zeta. split_and!; vm_compute; reflexivity. Qed.

(** The in-flight value has to be non-negative: with the counter of that node
    at -(2^62 + 1) the cube base is 0, the score is [ResponseTime -
    ServiceTime], and the node is returned in preference to an ordinary
    one. *)
Lemma huge_queue_with_negative_inflight_wins :
  let b := Scenario.with_huge_cancelled in
  scoreBranch 10000 b 3 (getCost b 3) (inflight b 3) = GeneralBranch
  ∧ inflight b 3 = - (2 ^ 62 + 1)
  ∧ Int64.add (Int64.add 1 (TotalNQ Scenario.huge_cost)) (inflight b 3) = 0
  ∧ scoreOf 10000 b 3 = of_int (50 - 2 ^ 20)
  ∧ scoreOf 10000 b 2 = of_int 50
  ∧ ltb (scoreOf 10000 b 2) two_pow_206 = true
  ∧ (SelectNode 10000 b [2; 3] 1).2 = inr 3.
Proof. cbv zeta. split_and!; vm_compute; reflexivity. Qed.

(** ** Spec scenario 1: no telemetry, balanced load *)

(** Two dispatches of cost 5 over the unknown nodes 10, 20, 30: the first
    goes to node 10, whose score becomes 6^3 = 216, the second to node 20. *)
Lemma balanced_load_scenario :
  let r1 := SelectNode 0 NewLookAsideBalancer [10; 20; 30] 5 in
  let r2 := SelectNode 0 r1.1 [10; 20; 30] 5 in
  r1.2 = inr 10
  ∧ inflight r1.1 10 = 5
  ∧ scoreOf 0 r1.1 10 = of_int 216
  ∧ scoreOf 0 r1.1 20 = one
  ∧ r2.2 = inr 20.
Proof. cbv zeta. split_and!; vm_compute; reflexivity. Qed.

(** * Further properties of the balancer *)

(** ** Telemetry ingestion *)

(** The score of a node reads the time-stamp map at that node only. *)
Lemma calculateScore_ext_lookup now b b' node cost k :
  metricsUpdateTs b !! node = metricsUpdateTs b' !! node →
  calculateScore now b node cost k = calculateScore now b' node cost k.
Proof.
  intros E. unfold calculateScore, isNodeCostMetricsTooOld. by rewrite E.
Qed.

Lemma scoreOf_UpdateCostMetrics_other t now b node cost m :
  m ≠ node → scoreOf now (UpdateCostMetrics t b node cost) m = scoreOf now b m.
Proof.
  intros Hm. unfold scoreOf, getCost, inflight. cbn [UpdateCostMetrics metricsMap
    executingTaskTotalNQ]. rewrite lookup_insert_ne by done.
  apply calculateScore_ext_lookup. simpl. by rewrite lookup_insert_ne.
Qed.

Lemma pick_ext_in score score' alive alive' l :
  (∀ n, n ∈ l → score n = score' n) → (∀ n, n ∈ l → alive n = alive' n) →
  ∀ t s, pick score alive l t s = pick score' alive' l t s.
Proof.
  induction l as [|n rest IH]; intros Hs Ha t s; cbn [pick]; [done|].
  rewrite (Hs n), (Ha n) by (apply elem_of_cons; by left).
  assert (IH' : ∀ t s, pick score alive rest t s = pick score' alive' rest t s).
  { apply IH; intros m Hm; [apply Hs|apply Ha]; apply elem_of_cons; by right. }
  by rewrite !IH'.
Qed.

(** X1: [UpdateCostMetrics] for a node changes the score of that node only:
    the next scoring of the node uses the aggregation just stored, the scores
    of all other nodes are as before, and a [SelectNode] whose candidate list
    does not contain the node returns what it would have returned without the
    update.  The in-flight ledger and the Unreachability Set are not
    touched. *)
Theorem UpdateCostMetrics_affects_one_score t now b node cost :
  let b' := UpdateCostMetrics t b node cost in
  scoreOf now b' node = calculateScore now b' node cost (inflight b node)
  ∧ (∀ m, m ≠ node → scoreOf now b' m = scoreOf now b m)
  ∧ (∀ l c, node ∉ l → (SelectNode now b' l c).2 = (SelectNode now b l c).2)
  ∧ executingTaskTotalNQ b' = executingTaskTotalNQ b
  ∧ unreachableQueryNodes b' = unreachableQueryNodes b.
Proof.
  cbv zeta. split_and!; try done.
  - unfold scoreOf, getCost, inflight. simpl. by rewrite lookup_insert_eq.
  - intros m Hm. by apply scoreOf_UpdateCostMetrics_other.
  - intros l c Hl. rewrite !SelectNode_result. cbv zeta.
    pose proof (selectLoop_pick now l (UpdateCostMetrics t b node cost) (-1) MaxFloat64) as E1.
    pose proof (selectLoop_pick now l b (-1) MaxFloat64) as E2.
    rewrite (pick_ext_in _ (scoreOf now b) _ (λ n, bool_decide (survives b n))) in E1.
    + rewrite <- E2 in E1. injection E1 as -> _. done.
    + intros n Hn. apply scoreOf_UpdateCostMetrics_other. by intros ->.
    + done.
Qed.

(** X2: after [UpdateCostMetrics] at time [t] the telemetry of the node is
    too old at a later time [now] exactly when [t] is not 0 and more than
    [CostMetricsExpireTime] = 1000 ms have passed; an update stamped 0 is
    never too old, however late it is looked at. *)
Theorem staleness_after_update t now b node cost :
  let b' := UpdateCostMetrics t b node cost in
  (t = 0 → isNodeCostMetricsTooOld now b' node = false)
  ∧ (Int64.in_range (now - t) → now - t ≤ 1000 →
     isNodeCostMetricsTooOld now b' node = false
     ∧ ∀ k, scoreBranch now b' node cost k ≠ IdleBranch)
  ∧ (t ≠ 0 → Int64.in_range (now - t) → 1000 < now - t →
     isNodeCostMetricsTooOld now b' node = true).
Proof.
  cbv zeta. unfold isNodeCostMetricsTooOld, UpdateCostMetrics. cbn [metricsUpdateTs].
  rewrite lookup_insert_eq. split_and!.
  - by intros ->.
  - intros Hr Hle.
    assert (E : (if t =? 0 then false
                 else CostMetricsExpireTime <? Int64.sub now t) = false).
    { destruct (t =? 0); [done|]. unfold Int64.sub. rewrite wrap_in_range by done.
      apply Z.ltb_ge. unfold CostMetricsExpireTime. lia. }
    split; [done|]. intros k. unfold scoreBranch, isNodeCostMetricsTooOld.
    cbn [metricsUpdateTs]. rewrite lookup_insert_eq, E.
    destruct cost as [c|]; [|done]. destruct (_ || _); [done|].
    by rewrite andb_false_r.
  - intros Ht Hr Hlt. destruct (Z.eqb_spec t 0); [done|].
    unfold Int64.sub. rewrite wrap_in_range by done.
    apply Z.ltb_lt. unfold CostMetricsExpireTime. lia.
Qed.

(** ** The idle shortcut *)

(** X3: for an aggregation with non-zero [ResponseTime] and [ServiceTime],
    an empty queue and nothing in flight, stale telemetry gives score 0
    whatever the two times are; with anything queued or in flight the
    shortcut is not taken, and with fresh telemetry it is not taken either.
    A score of 0 is not beaten by any fallback score whose cube base
    [1 + inflight] is not negative. *)
Theorem idle_shortcut_scores_zero now b node c :
  ResponseTime c ≠ 0 → ServiceTime c ≠ 0 →
  (TotalNQ c = 0 → isNodeCostMetricsTooOld now b node = true →
   calculateScore now b node (Some c) 0 = zero)
  ∧ (∀ k, k ≠ 0 ∨ TotalNQ c ≠ 0 ∨ isNodeCostMetricsTooOld now b node = false →
          scoreBranch now b node (Some c) k = GeneralBranch)
  ∧ (∀ k, 0 ≤ Int64.add 1 k → ltb (fallbackScore k) zero = false).
Proof.
  intros HR HS.
  assert (E : (ResponseTime c =? 0) || (ServiceTime c =? 0) = false).
  { destruct (Z.eqb_spec (ResponseTime c) 0), (Z.eqb_spec (ServiceTime c) 0); done. }
  split_and!.
  - intros HT Hold. unfold calculateScore. by rewrite E, HT, Hold.
  - intros k Hk. unfold scoreBranch. rewrite E.
    destruct Hk as [Hk|[Hk|Hk]].
    + by destruct (Z.eqb_spec k 0).
    + destruct (Z.eqb_spec (TotalNQ c) 0); [done|]. by rewrite andb_false_r.
    + by rewrite Hk, andb_false_r.
  - intros k Hk. apply sign_false_not_negative.
    destruct (fallbackScore_bounded k) as [_ Hs].
    by replace (Int64.add 1 k <? 0) with false in Hs by (symmetry; apply Z.ltb_ge; lia).
Qed.

Lemma idle_shortcut_scores_zero_witness :
  let b := mkBalancer ∅ {[1 := 8000]} ∅ ∅ in
  let c := Scenario.ordinary_cost in
  (TotalNQ c = 0 → isNodeCostMetricsTooOld 10000 b 1 = true →
   calculateScore 10000 b 1 (Some c) 0 = zero)
  ∧ (∀ k, k ≠ 0 ∨ TotalNQ c ≠ 0 ∨ isNodeCostMetricsTooOld 10000 b 1 = false →
          scoreBranch 10000 b 1 (Some c) k = GeneralBranch)
  ∧ (∀ k, 0 ≤ Int64.add 1 k → ltb (fallbackScore k) zero = false).
Proof.
  apply (idle_shortcut_scores_zero 10000 (mkBalancer ∅ {[1 := 8000]} ∅ ∅) 1
           Scenario.ordinary_cost); simpl; lia.
Defined.

(** ** What the choice depends on *)


Lemma selectLoop_filter now l : ∀ b t s,
  selectLoop now l b t s = selectLoop now (filter (survives b) l) b t s.
Proof.
  induction l as [|node rest IH]; intros b t s; [done|].
  destruct (decide (survives b node)) as [Hs|Hs].
  - rewrite filter_cons_True by done.
    rewrite !selectLoop_cons_survivor by done. cbv zeta.
    destruct (getOrCreateCounter_spec b node) as (_ & _ & _ & G3 & _ & _).
    assert (E : filter (survives (getOrCreateCounter b node).1) rest
                = filter (survives b) rest).
    { apply list_filter_iff. intros x. unfold survives. by rewrite G3. }
    destruct ((t =? -1) || _); by rewrite IH, E.
  - rewrite filter_cons_False by done.
    rewrite selectLoop_cons_unreachable by done. apply IH.
Qed.

Lemma SelectNode_filter_eq now b l cost :
  SelectNode now b l cost = SelectNode now b (filter (survives b) l) cost.
Proof. unfold SelectNode. by rewrite selectLoop_filter. Qed.

(** X5: candidates in the Unreachability Set are as good as absent: a call
    returns the same node and leaves the same balancer as the call on the
    list with those candidates removed. *)
Theorem SelectNode_ignores_unreachable now b l cost :
  SelectNode now b l cost = SelectNode now b (filter (survives b) l) cost
  ∧ (filter (survives b) l = [] → SelectNode now b l cost = (b, inl unavailable)).
Proof.
  split; [apply SelectNode_filter_eq|].
  intros E. by rewrite SelectNode_filter_eq, E.
Qed.

(** ** Cancellation *)

Lemma sub_sub_wrap v a c : Int64.sub (Int64.sub v a) c = Int64.wrap (v - a - c).
Proof.
  unfold Int64.sub. destruct (wrap_decompose (v - a)) as [k ->].
  replace (v - a + k * 2 ^ 64 - c) with (v - a - c + k * 2 ^ 64) by lia.
  apply wrap_shift.
Qed.

(** X6: [CancelWorkload] on a node without a counter changes nothing and
    creates no counter; on a node with a counter it subtracts [nq] from that
    counter in [int64] arithmetic, so the counter may become negative, and
    leaves every other counter and the three other containers alone.  Two
    cancellations on one node subtract the sum of their costs. *)
Theorem CancelWorkload_spec b node nq :
  let b' := CancelWorkload b node nq in
  metricsMap b' = metricsMap b
  ∧ metricsUpdateTs b' = metricsUpdateTs b
  ∧ unreachableQueryNodes b' = unreachableQueryNodes b
  ∧ (executingTaskTotalNQ b !! node = None → b' = b)
  ∧ (∀ v, executingTaskTotalNQ b !! node = Some v →
          executingTaskTotalNQ b' !! node = Some (Int64.sub v nq))
  ∧ (∀ m, m ≠ node → executingTaskTotalNQ b' !! m = executingTaskTotalNQ b !! m)
  ∧ (∀ v nq', executingTaskTotalNQ b !! node = Some v →
              executingTaskTotalNQ (CancelWorkload b' node nq') !! node
              = Some (Int64.wrap (v - nq - nq')))
  ∧ (executingTaskTotalNQ b !! node = Some 0 → 0 < nq ≤ Int64.max_signed →
     inflight b' node = - nq).
Proof.
  cbv zeta. unfold CancelWorkload.
  destruct (executingTaskTotalNQ b !! node) as [v|] eqn:E; simpl; split_and!; try done.
  - intros v' [= <-]. by rewrite lookup_insert_eq.
  - intros m Hm. by rewrite lookup_insert_ne.
  - intros v' nq' [= <-]. rewrite lookup_insert_eq. simpl.
    by rewrite lookup_insert_eq, sub_sub_wrap.
  - intros [= ->] Hnq. unfold inflight. simpl. rewrite lookup_insert_eq. simpl.
    unfold Int64.sub. apply wrap_in_range.
    unfold Int64.in_range, Int64.min_signed, Int64.max_signed in *. lia.
Qed.

(** ** Exact scores *)

Lemma fallbackScore_exact k :
  0 ≤ k → (1 + k) ^ 3 < 2 ^ 53 →
  fallbackScore k = canon ((1 + k) ^ 3).
Proof.
  intros Hk Hb. set (base := 1 + k) in *.
  assert (Hbase : 0 < base) by (unfold base; lia).
  assert (Hsq : base * base ≤ base ^ 3) by nia.
  assert (Hle : base ≤ base * base) by nia.
  assert (Hwrap : Int64.add 1 k = base).
  { unfold Int64.add. fold base. apply wrap_in_range.
    unfold Int64.in_range, Int64.min_signed, Int64.max_signed.
    change (2 ^ 63) with 9223372036854775808.
    change (2 ^ 53) with 9007199254740992 in *. lia. }
  unfold fallbackScore, pow3. rewrite Hwrap.
  rewrite (FloatExact.of_int_exact base) by lia.
  rewrite (FloatExact.mul_exact base base) by lia.
  rewrite FloatExact.mul_exact; [f_equal; lia|lia|lia|].
  replace (base * (base * base)) with (base ^ 3) by lia. done.
Qed.

Lemma scoreBranch_fallback_any_load now b node cost k k' :
  scoreBranch now b node cost k = FallbackBranch →
  scoreBranch now b node cost k' = FallbackBranch.
Proof. rewrite !scoreBranch_fallback_iff. done. Qed.

(** X7: with no usable telemetry (no aggregation, or one whose
    [ResponseTime] or [ServiceTime] is 0) and an in-flight value [k ≥ 0],
    the score is the double equal to [(1 + k)^3], without rounding, as long
    as that cube is below 2^53; in that range the score grows strictly with
    the in-flight value. *)
Theorem fallback_score_is_cube now b node cost k :
  scoreBranch now b node cost k = FallbackBranch →
  0 ≤ k → (1 + k) ^ 3 < 2 ^ 53 →
  calculateScore now b node cost k = of_int ((1 + k) ^ 3)
  ∧ ∀ k', k < k' → (1 + k') ^ 3 < 2 ^ 53 →
          ltb (calculateScore now b node cost k)
              (calculateScore now b node cost k') = true.
Proof.
  intros Hbr Hk Hb.
  assert (Hpos : 0 < (1 + k) ^ 3) by (apply Z.pow_pos_nonneg; lia).
  assert (E : ∀ j, 0 ≤ j → (1 + j) ^ 3 < 2 ^ 53 →
              calculateScore now b node cost j = canon ((1 + j) ^ 3)).
  { intros j Hj Hbj. rewrite calculateScore_by_branch.
    rewrite (scoreBranch_fallback_any_load now b node cost k j Hbr).
    destruct cost; by apply fallbackScore_exact. }
  split.
  - rewrite E, FloatExact.of_int_exact by lia. done.
  - intros k' Hlt Hb'.
    assert (Hmono : (1 + k) ^ 3 < (1 + k') ^ 3) by (apply Z.pow_lt_mono_l; lia).
    rewrite !E by lia. apply FloatExact.lt_exact; lia.
Qed.

Lemma fallback_score_is_cube_witness :
  calculateScore 0 NewLookAsideBalancer 10 None 5 = of_int ((1 + 5) ^ 3)
  ∧ ∀ k', 5 < k' → (1 + k') ^ 3 < 2 ^ 53 →
          ltb (calculateScore 0 NewLookAsideBalancer 10 None 5)
              (calculateScore 0 NewLookAsideBalancer 10 None k') = true.
Proof.
  apply (fallback_score_is_cube 0 NewLookAsideBalancer 10 None 5);
    [reflexivity|lia|reflexivity].
Defined.

(** X8: in the general branch, with positive [ServiceTime], non-negative
    [TotalNQ] and in-flight value, and
    [|ResponseTime| + (1 + TotalNQ + inflight)^3 * ServiceTime < 2^53], the
    workload term is not negative and the score is the double equal to
    [ResponseTime - ServiceTime + (1 + TotalNQ + inflight)^3 * ServiceTime],
    without rounding. *)
Theorem general_score_value now b node c k :
  scoreBranch now b node (Some c) k = GeneralBranch →
  0 < ServiceTime c → 0 ≤ TotalNQ c → 0 ≤ k →
  Z.abs (ResponseTime c) + exactWorkload c k < 2 ^ 53 →
  ltb (workloadOf c k) zero = false
  ∧ calculateScore now b node (Some c) k
    = of_int (ResponseTime c - ServiceTime c + exactWorkload c k).
Proof.
  intros Hbr HS HT Hk Hb.
  pose proof (exactWorkload_ge c HS HT k Hk) as Hge.
  destruct (generalScore_exact c HS HT k Hk Hb) as [Hw E].
  split; [done|].
  rewrite calculateScore_by_branch, Hbr, E, FloatExact.of_int_exact by lia. done.
Qed.

Lemma general_score_value_witness :
  ltb (workloadOf Scenario.ordinary_cost 2) zero = false
  ∧ calculateScore 0 NewLookAsideBalancer 1 (Some Scenario.ordinary_cost) 2
    = of_int (50 - 10 + exactWorkload Scenario.ordinary_cost 2).
Proof.
  apply (general_score_value 0 NewLookAsideBalancer 1 Scenario.ordinary_cost 2);
    try reflexivity; try lia.
Defined.

(** X9: for every aggregation holding [int64] values, every in-flight value
    and every branch, [calculateScore] returns a finite double: never NaN,
    never an infinity, and never a value above [math.MaxFloat64], the initial
    value of [targetScore]. *)
Theorem calculateScore_finite_double now b node cost k :
  (∀ c, cost = Some c → int64_cost c) →
  is_finite (calculateScore now b node cost k) = true
  ∧ is_nan (calculateScore now b node cost k) = false
  ∧ calculateScore now b node cost k ≠ pos_infinity
  ∧ ltb MaxFloat64 (calculateScore now b node cost k) = false.
Proof.
  intros Hc. pose proof (calculateScore_finite now b node cost k Hc) as Hfin.
  split_and!; [done| | |].
  - by destruct (calculateScore now b node cost k).
  - intros E. by rewrite E in Hfin.
  - rewrite calculateScore_by_branch.
    destruct (scoreBranch now b node cost k), cost as [c|]; try done;
      try (apply (ltb_MaxFloat64_bounded 197); [apply fallbackScore_bounded|lia]).
    destruct (generalScore_range c k (Hc c eq_refl)) as [->|H].
    + apply FloatOrder.ltb_irrefl.
    + by apply (ltb_MaxFloat64_bounded 265).
Qed.

Lemma calculateScore_finite_double_witness :
  let s := calculateScore 0 NewLookAsideBalancer 1 (Some Scenario.wrapping_cost) 0 in
  is_finite s = true ∧ is_nan s = false ∧ s ≠ pos_infinity ∧ ltb MaxFloat64 s = false.
Proof.
  apply (calculateScore_finite_double 0 NewLookAsideBalancer 1
           (Some Scenario.wrapping_cost) 0).
  intros c [= <-]. unfold int64_cost, Int64.in_range, Int64.min_signed,
    Int64.max_signed. simpl. lia.
Defined.

(** ** Ties and rotation *)

Lemma pick_no_better score alive l : ∀ t s,
  t ≠ -1 →
  (∀ m, m ∈ l → alive m = true → ltb (score m) s = false) →
  pick score alive l t s = (t, s).
Proof.
  induction l as [|n rest IH]; intros t s Ht H; cbn [pick]; [done|].
  assert (Hrest : ∀ m, m ∈ rest → alive m = true → ltb (score m) s = false).
  { intros m Hm. apply H, elem_of_cons. by right. }
  destruct (alive n) eqn:An; [|by apply IH].
  rewrite (H n) by (done || apply elem_of_cons; by left).
  destruct (Z.eqb_spec t (-1)); [done|]. by apply IH.
Qed.

Lemma ltb_asym x y : ltb x y = true → ltb y x = false.
Proof.
  intros H. apply not_true_is_false. intros H'.
  pose proof (FloatOrder.ltb_trans _ _ _ H H') as Hc.
  by rewrite FloatOrder.ltb_irrefl in Hc.
Qed.

(** What a successful call leaves behind, node by node. *)
Lemma SelectNode_effect now b l cost n :
  (SelectNode now b l cost).2 = inr n →
  let b' := (SelectNode now b l cost).1 in
  (∀ m, getCost b' m = getCost b m)
  ∧ metricsUpdateTs b' = metricsUpdateTs b
  ∧ unreachableQueryNodes b' = unreachableQueryNodes b
  ∧ inflight b' n = Int64.add (inflight b n) cost
  ∧ ∀ m, m ≠ n → inflight b' m = inflight b m.
Proof.
  intros H. destruct (SelectNode now b l cost) as [b' r] eqn:E.
  simpl in H. subst r. cbv zeta. simpl fst.
  destruct (SelectNode_success _ _ _ _ _ _ E) as (_ & _ & _ & _ & ->).
  pose proof (selectLoop_inflight now l b (-1) MaxFloat64) as Hi.
  destruct (selectLoop_state now l b (-1) MaxFloat64) as (H1 & H2 & H3 & _).
  split_and!; try done.
  - intros m. unfold getCost. simpl. by rewrite H1.
  - unfold inflight at 1. simpl. by rewrite lookup_insert_eq.
  - intros m Hm. unfold inflight at 1. simpl. rewrite lookup_insert_ne by done.
    apply Hi.
Qed.

Lemma SelectNode_head now b n rest cost :
  survives b n → n ≠ -1 →
  (∀ m, m ∈ rest → survives b m → ltb (scoreOf now b m) (scoreOf now b n) = false) →
  (SelectNode now b (n :: rest) cost).2 = inr n.
Proof.
  intros Hs Hn Hrest. rewrite SelectNode_result. cbv zeta.
  pose proof (selectLoop_pick now (n :: rest) b (-1) MaxFloat64) as E.
  assert (P : pick (scoreOf now b) (λ n, bool_decide (survives b n)) (n :: rest)
                (-1) MaxFloat64 = (n, scoreOf now b n)).
  { cbn [pick]. rewrite bool_decide_eq_true_2 by done.
    rewrite Z.eqb_refl. cbn [orb]. apply pick_no_better; [done|].
    intros m Hm Am. apply Hrest; [done|]. by apply bool_decide_eq_true in Am. }
  rewrite P in E.
  assert (T : (selectLoop now (n :: rest) b (-1) MaxFloat64).1.2 = n)
    by exact (f_equal fst E).
  rewrite T. by destruct (Z.eqb_spec n (-1)).
Qed.

(** X10: the first surviving candidate of the list is returned whenever it is
    not -1 and no later surviving candidate has a strictly smaller score:
    equal scores never displace the incumbent. *)
Theorem SelectNode_returns_head_unless_beaten now b l n rest cost :
  filter (survives b) l = n :: rest → n ≠ -1 →
  (∀ m, m ∈ rest → ltb (scoreOf now b m) (scoreOf now b n) = false) →
  (SelectNode now b l cost).2 = inr n
  ∧ inflight (SelectNode now b l cost).1 n = Int64.add (inflight b n) cost.
Proof.
  intros Hf Hn Hrest.
  assert (Hsn : survives b n).
  { assert (Hin : n ∈ filter (survives b) l) by (rewrite Hf; apply elem_of_cons; by left).
    by apply list_elem_of_filter in Hin as [? _]. }
  assert (E : (SelectNode now b l cost).2 = inr n).
  { rewrite (f_equal snd (SelectNode_filter_eq now b l cost)), Hf. apply SelectNode_head; try done.
    intros m Hm _. by apply Hrest. }
  split; [done|]. by apply SelectNode_effect.
Qed.

Lemma SelectNode_returns_head_unless_beaten_witness :
  (SelectNode 0 Scenario.some_unreachable [4; 5; 6; 9] 3).2 = inr 5
  ∧ inflight (SelectNode 0 Scenario.some_unreachable [4; 5; 6; 9] 3).1 5
    = Int64.add (inflight Scenario.some_unreachable 5) 3.
Proof.
  apply (SelectNode_returns_head_unless_beaten 0 Scenario.some_unreachable
           [4; 5; 6; 9] 5 [9] 3).
  - vm_compute. reflexivity.
  - lia.
  - intros m Hm. apply elem_of_cons in Hm as [->|Hm]; [vm_compute; reflexivity|].
    by apply elem_of_nil in Hm.
Defined.

Lemma scoreOf_unknown_idle now b x : unknown_idle b x → scoreOf now b x = one.
Proof.
  intros [Hc Hi]. unfold scoreOf. rewrite Hc, Hi. apply fallbackScore_0.
Qed.

Lemma one_canon : one = canon 1.
Proof. vm_compute. reflexivity. Qed.

(** X11: rotation without telemetry.  When nothing is known about the
    surviving candidates (no aggregation, nothing in flight), a dispatch of
    cost [c > 0] goes to the head [n] of the list, and the next call on the
    same list, at any later time and for any cost, goes to the second
    candidate [m]: the head now carries [(1 + c)^3 > 1] while the others
    still score 1 (for [(1 + c)^3 < 2^53], where the cube is exact). *)
Theorem no_telemetry_rotation now now' b n m rest c c' :
  n ≠ -1 → m ≠ -1 → m ≠ n →
  survives b n → survives b m →
  (∀ x, x ∈ n :: m :: rest → survives b x → unknown_idle b x) →
  0 < c → (1 + c) ^ 3 < 2 ^ 53 →
  (SelectNode now b (n :: m :: rest) c).2 = inr n
  ∧ (SelectNode now' (SelectNode now b (n :: m :: rest) c).1 (n :: m :: rest) c').2
    = inr m.
Proof.
  intros Hn Hm Hmn Sn Sm Hidle Hc Hb.
  set (l := n :: m :: rest) in *.
  assert (Hone : ∀ t x, x ∈ l → survives b x → scoreOf t b x = one).
  { intros t x Hx Sx. apply scoreOf_unknown_idle. by apply Hidle. }
  assert (Hnl : n ∈ l) by (apply elem_of_cons; by left).
  assert (Hml : m ∈ l) by (apply elem_of_cons; right; apply elem_of_cons; by left).
  assert (E1 : (SelectNode now b l c).2 = inr n).
  { apply SelectNode_head; try done. intros x Hx Sx.
    rewrite !Hone; try done. apply elem_of_cons. by right. }
  split; [done|].
  destruct (SelectNode_effect now b l c n E1) as (Gc & Gt & Gu & Gn & Go).
  set (b1 := (SelectNode now b l c).1) in *.
  assert (Hsv : ∀ x, survives b1 x ↔ survives b x) by (unfold survives; by rewrite Gu).
  destruct (Hidle n Hnl Sn) as [Cn In].
  assert (Hw : 1 < (1 + c) ^ 3).
  { change 1 with (1 ^ 3) at 1. apply Z.pow_lt_mono_l; lia. }
  assert (Wn : scoreOf now' b1 n = canon ((1 + c) ^ 3)).
  { unfold scoreOf. rewrite Gc, Cn, Gn, In.
    replace (Int64.add 0 c) with c.
    - by apply fallbackScore_exact; lia.
    - unfold Int64.add. symmetry. apply wrap_in_range.
      assert (c < (1 + c) ^ 3) by nia.
      unfold Int64.in_range, Int64.min_signed, Int64.max_signed.
      change (2 ^ 63) with 9223372036854775808.
      change (2 ^ 53) with 9007199254740992 in *. lia. }
  assert (Wo : ∀ x, x ∈ l → survives b x → x ≠ n → scoreOf now' b1 x = one).
  { intros x Hx Sx Hxn. destruct (Hidle x Hx Sx) as [Cx Ix].
    apply scoreOf_unknown_idle. split; [by rewrite Gc|by rewrite Go]. }
  assert (Hlt : ltb one (canon ((1 + c) ^ 3)) = true).
  { rewrite one_canon. apply FloatExact.lt_exact; lia. }
  rewrite SelectNode_result. cbv zeta.
  pose proof (selectLoop_pick now' l b1 (-1) MaxFloat64) as E.
  assert (P : pick (scoreOf now' b1) (λ x, bool_decide (survives b1 x)) l
                (-1) MaxFloat64 = (m, one)).
  { unfold l. cbn [pick].
    rewrite !bool_decide_eq_true_2 by (by apply Hsv).
    rewrite Z.eqb_refl. cbn [orb]. rewrite Wn, (Wo m Hml Sm Hmn), Hlt.
    rewrite orb_true_r. apply pick_no_better; [done|].
    intros x Hx Ax. apply bool_decide_eq_true, Hsv in Ax.
    assert (Hxl : x ∈ l) by (do 2 (apply elem_of_cons; right); done).
    destruct (decide (x = n)) as [->|Hxn].
    - rewrite Wn. by apply ltb_asym.
    - rewrite (Wo x Hxl Ax Hxn). apply FloatOrder.ltb_irrefl. }
  rewrite P in E.
  assert (T : (selectLoop now' l b1 (-1) MaxFloat64).1.2 = m) by exact (f_equal fst E).
  rewrite T. by destruct (Z.eqb_spec m (-1)).
Qed.

Lemma no_telemetry_rotation_witness :
  (SelectNode 0 NewLookAsideBalancer [10; 20; 30] 5).2 = inr 10
  ∧ (SelectNode 7 (SelectNode 0 NewLookAsideBalancer [10; 20; 30] 5).1
       [10; 20; 30] 9).2 = inr 20.
Proof.
  apply (no_telemetry_rotation 0 7 NewLookAsideBalancer 10 20 [30] 5 9);
    try lia; try (unfold survives; simpl; apply not_elem_of_empty).
  intros x _ _. split; reflexivity.
Defined.

(** ** The call never panics *)

(** X12: [SelectNode] ends in one of two ways only: the ServiceUnavailable
    error, or a node whose counter exists in the ledger it returns.  The
    counter fetched at line 119 is never [nil], so [totalNQ.Add] cannot
    panic. *)
Theorem SelectNode_never_panics now b l cost :
  (SelectNode now b l cost).2 = inl unavailable
  ∨ ∃ n, (SelectNode now b l cost).2 = inr n
         ∧ n ∈ l
         ∧ is_Some (executingTaskTotalNQ (SelectNode now b l cost).1 !! n).
Proof.
  destruct (SelectNode_unfold now b l cost) as [[_ E]|(_ & Hin & _ & E)]; rewrite E.
  - by left.
  - right. eexists. split_and!; [done|done|]. simpl. by rewrite lookup_insert_eq.
Qed.

(** ** Probes *)

Lemma probeNode_eq t a b node :
  probeNode t a b node =
    if is_healthy a
    then mkBalancer (metricsMap b) (<[node := t]> (metricsUpdateTs b))
                    (executingTaskTotalNQ b) (unreachableQueryNodes b ∖ {[node]})
    else mkBalancer (metricsMap b) (metricsUpdateTs b) (executingTaskTotalNQ b)
                    ({[node]} ∪ unreachableQueryNodes b).
Proof. by destruct a as [| |[]]. Qed.

Ltac solve_set_eq node :=
  apply set_eq; intros ?x;
  rewrite ?elem_of_union, ?elem_of_difference, ?elem_of_union, ?elem_of_singleton;
  destruct (decide (x = node)); intuition congruence.

Lemma probeNode_self t a b node :
  (node ∈ unreachableQueryNodes (probeNode t a b node) ↔ is_healthy a = false)
  ∧ metricsUpdateTs (probeNode t a b node) !! node
    = if is_healthy a then Some t else metricsUpdateTs b !! node.
Proof.
  rewrite probeNode_eq. destruct (is_healthy a); cbn [unreachableQueryNodes metricsUpdateTs].
  - rewrite lookup_insert_eq. split; [|done].
    rewrite elem_of_difference, elem_of_singleton. intuition congruence.
  - split; [|done]. rewrite elem_of_union, elem_of_singleton. intuition.
Qed.

Lemma probeNode_other t a b node m :
  m ≠ node →
  (m ∈ unreachableQueryNodes (probeNode t a b node) ↔ m ∈ unreachableQueryNodes b)
  ∧ metricsUpdateTs (probeNode t a b node) !! m = metricsUpdateTs b !! m.
Proof.
  intros Hm. rewrite probeNode_eq.
  destruct (is_healthy a); cbn [unreachableQueryNodes metricsUpdateTs].
  - rewrite lookup_insert_ne by done. split; [|done].
    rewrite elem_of_difference, elem_of_singleton. intuition.
  - split; [|done]. rewrite elem_of_union, elem_of_singleton. intuition.
Qed.

Lemma probeNode_frame t a b node :
  metricsMap (probeNode t a b node) = metricsMap b
  ∧ executingTaskTotalNQ (probeNode t a b node) = executingTaskTotalNQ b.
Proof. rewrite probeNode_eq. by destruct (is_healthy a). Qed.

(** X13: probes of one node compose by "the last answer wins": after two
    probes the node is unreachable exactly when the second was unhealthy, and
    the Unreachability Set is the one the second probe alone would have left;
    when the second probe is healthy the whole balancer is.  An unhealthy
    probe leaves the time stamp alone, so a node that stays unhealthy keeps
    being probed.  Probing a node changes the bit and the time stamp of no
    other node. *)
Theorem probeNode_last_answer_wins t1 t2 a1 a2 b node :
  let b2 := probeNode t2 a2 (probeNode t1 a1 b node) node in
  (node ∈ unreachableQueryNodes b2 ↔ is_healthy a2 = false)
  ∧ unreachableQueryNodes b2 = unreachableQueryNodes (probeNode t2 a2 b node)
  ∧ (is_healthy a2 = true → b2 = probeNode t2 a2 b node)
  ∧ (is_healthy a2 = false →
     metricsUpdateTs b2 = metricsUpdateTs (probeNode t1 a1 b node))
  ∧ (∀ m, m ≠ node →
          (m ∈ unreachableQueryNodes b2 ↔ m ∈ unreachableQueryNodes b)
          ∧ metricsUpdateTs b2 !! m = metricsUpdateTs b !! m).
Proof.
  cbv zeta. split_and!.
  - apply probeNode_self.
  - rewrite !probeNode_eq.
    destruct (is_healthy a2), (is_healthy a1); cbn [unreachableQueryNodes];
      solve_set_eq node.
  - intros H2. rewrite !probeNode_eq, H2.
    destruct (is_healthy a1);
      cbn [metricsMap metricsUpdateTs executingTaskTotalNQ unreachableQueryNodes].
    + rewrite insert_insert_eq. f_equal. solve_set_eq node.
    + f_equal. solve_set_eq node.
  - intros H2. by rewrite (probeNode_eq t2), H2.
  - intros m Hm.
    destruct (probeNode_other t2 a2 (probeNode t1 a1 b node) node m Hm) as [U2 T2].
    destruct (probeNode_other t1 a1 b node m Hm) as [U1 T1].
    split; [by rewrite U2|by rewrite T2].
Qed.

(** ** The tick of the health loop *)

Lemma probeIfStale_frame now answers finish b entry :
  metricsMap (probeIfStale now answers finish b entry) = metricsMap b
  ∧ executingTaskTotalNQ (probeIfStale now answers finish b entry)
    = executingTaskTotalNQ b.
Proof.
  destruct entry as [k v]. unfold probeIfStale.
  destruct (needsProbe now v); [apply probeNode_frame|done].
Qed.

Lemma probeIfStale_other now answers finish b k v m :
  m ≠ k →
  (m ∈ unreachableQueryNodes (probeIfStale now answers finish b (k, v))
   ↔ m ∈ unreachableQueryNodes b)
  ∧ metricsUpdateTs (probeIfStale now answers finish b (k, v)) !! m
    = metricsUpdateTs b !! m.
Proof.
  intros Hm. unfold probeIfStale.
  destruct (needsProbe now v); [by apply probeNode_other|done].
Qed.

(** Visiting a list of entries with distinct keys: each node is decided by
    its own entry. *)
Lemma probes_spec now answers finish l : NoDup l.*1 → ∀ b,
  let b' := foldl (probeIfStale now answers finish) b l in
  metricsMap b' = metricsMap b
  ∧ executingTaskTotalNQ b' = executingTaskTotalNQ b
  ∧ (∀ m, m ∉ l.*1 →
          (m ∈ unreachableQueryNodes b' ↔ m ∈ unreachableQueryNodes b)
          ∧ metricsUpdateTs b' !! m = metricsUpdateTs b !! m)
  ∧ (∀ m v, (m, v) ∈ l →
            (m ∈ unreachableQueryNodes b'
             ↔ m ∈ unreachableQueryNodes (probeIfStale now answers finish b (m, v)))
            ∧ metricsUpdateTs b' !! m
              = metricsUpdateTs (probeIfStale now answers finish b (m, v)) !! m).
Proof.
  induction l as [|[k v0] l IH]; intros Hnd b.
  - cbn [foldl]. split_and!; try done. intros m v H. by apply elem_of_nil in H.
  - apply NoDup_cons in Hnd as [Hk Hnd]. cbn [foldl].
    destruct (IH Hnd (probeIfStale now answers finish b (k, v0))) as (I1 & I2 & I3 & I4).
    destruct (probeIfStale_frame now answers finish b (k, v0)) as [F1 F2].
    split_and!; try congruence.
    + intros m Hm. cbn [fmap list_fmap fst] in Hm. apply not_elem_of_cons in Hm as [Hmk Hml].
      destruct (I3 m Hml) as [U T].
      destruct (probeIfStale_other now answers finish b k v0 m Hmk) as [U' T'].
      split; [by rewrite U|by rewrite T].
    + intros m v Hin. apply elem_of_cons in Hin as [[= -> ->]|Hin].
      * apply (I3 k Hk).
      * assert (Hml : m ∈ l.*1) by (apply list_elem_of_fmap; by exists (m, v)).
        assert (Hmk : m ≠ k) by (intros ->; done).
        destruct (I4 m v Hin) as [U T].
        destruct (probeIfStale_other now answers finish b k v0 m Hmk) as [U' T'].
        unfold probeIfStale in *. destruct (needsProbe now v).
        -- destruct (probeNode_self (finish m) (answers m)
                       (if needsProbe now v0
                        then probeNode (finish k) (answers k) b k else b) m) as [S1 S2].
           destruct (probeNode_self (finish m) (answers m) b m) as [S1' S2'].
           split; [by rewrite U, S1, S1'|].
           rewrite T, S2, S2'. destruct (is_healthy (answers m)); [done|exact T'].
        -- split; [by rewrite U|by rewrite T].
Qed.

(** What one tick does, node by node. *)
Lemma tick_pointwise now answers finish b :
  let b' := tick now answers finish b in
  metricsMap b' = metricsMap b
  ∧ executingTaskTotalNQ b' = executingTaskTotalNQ b
  ∧ ∀ node,
      match metricsUpdateTs b !! node with
      | Some v =>
          if needsProbe now v then
            (node ∈ unreachableQueryNodes b' ↔ is_healthy (answers node) = false)
            ∧ metricsUpdateTs b' !! node
              = Some (if is_healthy (answers node) then finish node else v)
          else
            (node ∈ unreachableQueryNodes b' ↔ node ∈ unreachableQueryNodes b)
            ∧ metricsUpdateTs b' !! node = Some v
      | None =>
          (node ∈ unreachableQueryNodes b' ↔ node ∈ unreachableQueryNodes b)
          ∧ metricsUpdateTs b' !! node = None
      end.
Proof.
  cbv zeta. unfold tick.
  destruct (probes_spec now answers finish (map_to_list (metricsUpdateTs b))
              (NoDup_fst_map_to_list _) b) as (H1 & H2 & H3 & H4).
  split_and!; [done|done|]. intros node.
  destruct (metricsUpdateTs b !! node) as [v|] eqn:E.
  - destruct (H4 node v) as [U T]; [by apply elem_of_map_to_list|].
    change (probeIfStale now answers finish b (node, v))
      with (if needsProbe now v
            then probeNode (finish node) (answers node) b node else b) in U, T.
    destruct (needsProbe now v).
    + destruct (probeNode_self (finish node) (answers node) b node) as [S1 S2].
      split; [by rewrite U|]. rewrite T, S2, E. by destruct (is_healthy _).
    + split; [done|by rewrite T].
  - destruct (H3 node) as [U T]; [|split; [done|by rewrite T]].
    intros Hin. apply list_elem_of_fmap in Hin as ([k v] & -> & Hin).
    apply elem_of_map_to_list in Hin. simpl in E. congruence.
Qed.

Lemma balancer_eq b1 b2 :
  metricsMap b1 = metricsMap b2 →
  metricsUpdateTs b1 = metricsUpdateTs b2 →
  executingTaskTotalNQ b1 = executingTaskTotalNQ b2 →
  unreachableQueryNodes b1 = unreachableQueryNodes b2 →
  b1 = b2.
Proof. destruct b1, b2. simpl. by intros -> -> -> ->. Qed.

(** X15: the probes of one tick can be run in any order: visiting the
    entries of the time-stamp map in any order without repetition leaves the
    same balancer. *)
Theorem tick_order_irrelevant now answers finish b l :
  l ≡ₚ map_to_list (metricsUpdateTs b) →
  foldl (probeIfStale now answers finish) b l = tick now answers finish b.
Proof.
  intros Hp. unfold tick.
  pose proof (NoDup_fst_map_to_list (metricsUpdateTs b)) as Hnd.
  assert (Hnd' : NoDup l.*1) by (by rewrite Hp).
  destruct (probes_spec now answers finish _ Hnd b) as (H1 & H2 & H3 & H4).
  destruct (probes_spec now answers finish l Hnd' b) as (G1 & G2 & G3 & G4).
  assert (Hkeys : ∀ m, m ∈ l.*1 → ∃ v, (m, v) ∈ l
                              ∧ (m, v) ∈ map_to_list (metricsUpdateTs b)).
  { intros m Hm. apply list_elem_of_fmap in Hm as ([k v] & -> & Hin).
    exists v. split; [done|]. by rewrite <- Hp. }
  apply balancer_eq; try congruence.
  - apply map_eq. intros m. destruct (decide (m ∈ l.*1)) as [Hm|Hm].
    + destruct (Hkeys m Hm) as (v & Hl & Hmap).
      rewrite (proj2 (G4 m v Hl)), (proj2 (H4 m v Hmap)). done.
    + rewrite (proj2 (G3 m Hm)). symmetry. apply H3. by rewrite <- Hp.
  - apply set_eq. intros m. destruct (decide (m ∈ l.*1)) as [Hm|Hm].
    + destruct (Hkeys m Hm) as (v & Hl & Hmap).
      rewrite (proj1 (G4 m v Hl)), (proj1 (H4 m v Hmap)). done.
    + rewrite (proj1 (G3 m Hm)). symmetry. apply H3. by rewrite <- Hp.
Qed.

Lemma tick_order_irrelevant_witness :
  let b := mkBalancer ∅ {[1 := 100; 2 := 9900]} ∅ ∅ in
  foldl (probeIfStale 10000 (λ _, GetClientFailed) (λ _, 10001)) b
        (reverse (map_to_list (metricsUpdateTs b)))
  = tick 10000 (λ _, GetClientFailed) (λ _, 10001) b.
Proof.
  apply (tick_order_irrelevant 10000 (λ _, GetClientFailed) (λ _, 10001)
           (mkBalancer ∅ {[1 := 100; 2 := 9900]} ∅ ∅)).
  apply reverse_Permutation.
Defined.

(** ** Ticks and selection *)

(** X16: spec scenario 5 in general.  After a tick in which every candidate
    of a list was stale and failed its probe, or was already unreachable and
    not due for a probe, [SelectNode] on that list fails with
    ServiceUnavailable and changes nothing. *)
Theorem silent_unhealthy_nodes_unavailable now answers finish b l now' cost :
  (∀ n, n ∈ l →
     (∃ v, metricsUpdateTs b !! n = Some v ∧ needsProbe now v = true
           ∧ is_healthy (answers n) = false)
     ∨ (n ∈ unreachableQueryNodes b
        ∧ ∀ v, metricsUpdateTs b !! n = Some v → needsProbe now v = false)) →
  SelectNode now' (tick now answers finish b) l cost
  = (tick now answers finish b, inl unavailable).
Proof.
  intros H. unfold SelectNode. rewrite selectLoop_all_unreachable; [done|].
  intros n Hn Hs. apply Hs. clear Hs.
  destruct (tick_pointwise now answers finish b) as (_ & _ & Ht). specialize (Ht n).
  destruct (H n Hn) as [(v & E & Hstale & Hbad)|[Hu Hfresh]].
  - rewrite E, Hstale in Ht. by apply Ht.
  - destruct (metricsUpdateTs b !! n) as [v|]; [|by apply Ht].
    rewrite (Hfresh v eq_refl) in Ht. by apply Ht.
Qed.

Lemma silent_unhealthy_nodes_unavailable_witness :
  let b := mkBalancer ∅ {[11 := 0]} ∅ ∅ in
  SelectNode 10001 (tick 10000 (λ _, GetClientFailed) (λ _, 10000) b) [11] 1
  = (tick 10000 (λ _, GetClientFailed) (λ _, 10000) b, inl unavailable).
Proof.
  apply (silent_unhealthy_nodes_unavailable 10000 (λ _, GetClientFailed)
           (λ _, 10000) (mkBalancer ∅ {[11 := 0]} ∅ ∅) [11] 10001 1).
  intros n Hn. apply elem_of_cons in Hn as [->|Hn]; [|by apply elem_of_nil in Hn].
  left. exists 0. split_and!; reflexivity.
Defined.

(** X17: spec scenario 6 in general.  A stale node whose probe is healthy is
    reachable after the tick, whether or not it was before, with its time
    stamp set to the probe's clock; [SelectNode] on the list made of that
    node alone then returns it (its id not being -1). *)
Theorem recovered_node_is_selected now answers finish b n v now' cost :
  metricsUpdateTs b !! n = Some v → needsProbe now v = true →
  is_healthy (answers n) = true → n ≠ -1 →
  let b' := tick now answers finish b in
  (n ∉ unreachableQueryNodes b')
  ∧ metricsUpdateTs b' !! n = Some (finish n)
  ∧ (SelectNode now' b' [n] cost).2 = inr n.
Proof.
  intros E Hstale Hok Hn. cbv zeta.
  destruct (tick_pointwise now answers finish b) as (_ & _ & Ht). specialize (Ht n).
  rewrite E, Hstale, Hok in Ht. destruct Ht as [U T].
  assert (Hs : n ∉ unreachableQueryNodes (tick now answers finish b)).
  { intros Hin. apply U in Hin. done. }
  split_and!; [done|done|].
  apply SelectNode_head; [done|done|].
  intros m Hm. by apply elem_of_nil in Hm.
Qed.

Lemma recovered_node_is_selected_witness :
  let b := mkBalancer ∅ {[11 := 100]} ∅ {[11]} in
  let b' := tick 10000 (λ _, ComponentStates Healthy) (λ _, 10002) b in
  (11 ∉ unreachableQueryNodes b')
  ∧ metricsUpdateTs b' !! 11 = Some 10002
  ∧ (SelectNode 10003 b' [11] 1).2 = inr 11.
Proof.
  apply (recovered_node_is_selected 10000 (λ _, ComponentStates Healthy)
           (λ _, 10002) (mkBalancer ∅ {[11 := 100]} ∅ {[11]}) 11 100 10003 1);
    try reflexivity; lia.
Defined.

(** ** Invariants of every run *)

Lemma selectLoop_counter_origin now l b t s m v :
  executingTaskTotalNQ (selectLoop now l b t s).1.1 !! m = Some v →
  executingTaskTotalNQ b !! m = Some v ∨ v = 0.
Proof.
  intros H. destruct (selectLoop_state now l b t s) as (_ & _ & _ & H4 & H5 & H6).
  destruct (executingTaskTotalNQ b !! m) as [v0|] eqn:E.
  - left. rewrite (H4 m v0 E) in H. done.
  - right. destruct (decide (m ∈ l ∧ survives b m)) as [[? ?]|Hn].
    + rewrite H5 in H by done. by injection H.
    + rewrite H6 in H by done. done.
Qed.

Lemma in_range_0 : Int64.in_range 0.
Proof. unfold Int64.in_range, Int64.min_signed, Int64.max_signed. lia. Qed.

Lemma SelectNode_preserves now b l cost :
  let b' := (SelectNode now b l cost).1 in
  (int64_ledger b → int64_ledger b')
  ∧ (int64_telemetry b → int64_telemetry b')
  ∧ (unreachable_observed b → unreachable_observed b').
Proof.
  cbv zeta.
  destruct (selectLoop_state now l b (-1) MaxFloat64) as (H1 & H2 & H3 & _).
  assert (Hloop : int64_ledger b →
                  int64_ledger (selectLoop now l b (-1) MaxFloat64).1.1).
  { intros Hb m v Hm. apply selectLoop_counter_origin in Hm as [Hm| ->].
    - by apply (Hb m). - apply in_range_0. }
  destruct (SelectNode_unfold now b l cost) as [[_ E]|(_ & _ & _ & E)];
    rewrite E; cbn [fst]; split_and!.
  - done.
  - unfold int64_telemetry. by rewrite H1.
  - unfold unreachable_observed. by rewrite H2, H3.
  - intros Hb m v. cbn [executingTaskTotalNQ set_executingTaskTotalNQ].
    intros Hm. apply lookup_insert_Some in Hm as [[_ <-]|[_ Hm]].
    + apply wrap_range. + by apply (Hloop Hb m).
  - unfold int64_telemetry. cbn [metricsMap set_executingTaskTotalNQ]. by rewrite H1.
  - unfold unreachable_observed.
    cbn [metricsUpdateTs unreachableQueryNodes set_executingTaskTotalNQ].
    by rewrite H2, H3.
Qed.

Lemma CancelWorkload_preserves b node nq :
  let b' := CancelWorkload b node nq in
  (int64_ledger b → int64_ledger b')
  ∧ (int64_telemetry b → int64_telemetry b')
  ∧ (unreachable_observed b → unreachable_observed b').
Proof.
  cbv zeta. unfold CancelWorkload.
  destruct (executingTaskTotalNQ b !! node) as [v0|]; [|done].
  split_and!; [|done|done].
  intros Hb m v. cbn [executingTaskTotalNQ set_executingTaskTotalNQ].
  intros Hm. apply lookup_insert_Some in Hm as [[_ <-]|[_ Hm]].
  - apply wrap_range. - by apply (Hb m).
Qed.

Lemma UpdateCostMetrics_preserves t b node cost :
  let b' := UpdateCostMetrics t b node cost in
  (int64_ledger b → int64_ledger b')
  ∧ ((∀ c, cost = Some c → int64_cost c) → int64_telemetry b → int64_telemetry b')
  ∧ (unreachable_observed b → unreachable_observed b').
Proof.
  cbv zeta. split_and!; [done| |].
  - intros Hc Hb m c. cbn [UpdateCostMetrics metricsMap]. intros Hm.
    apply lookup_insert_Some in Hm as [[_ Hm]|[_ Hm]]; [by apply Hc|by apply (Hb m)].
  - intros Hb m Hm. cbn [UpdateCostMetrics metricsUpdateTs].
    destruct (decide (node = m)) as [->|Hne].
    + rewrite lookup_insert_eq. by eexists.
    + rewrite lookup_insert_ne by done. by apply Hb.
Qed.

Lemma tick_preserves now answers finish b :
  let b' := tick now answers finish b in
  (int64_ledger b → int64_ledger b')
  ∧ (int64_telemetry b → int64_telemetry b')
  ∧ (unreachable_observed b → unreachable_observed b').
Proof.
  cbv zeta. destruct (tick_pointwise now answers finish b) as (H1 & H2 & Ht).
  split_and!.
  - unfold int64_ledger. by rewrite H2.
  - unfold int64_telemetry. by rewrite H1.
  - intros Hb m Hm. specialize (Ht m).
    destruct (metricsUpdateTs b !! m) as [v|] eqn:E.
    + destruct (needsProbe now v); destruct Ht as [_ ->]; by eexists.
    + destruct Ht as [U _]. apply U, Hb in Hm. rewrite E in Hm. by destruct Hm.
Qed.

(** X18: three invariants hold after every sequence of [SelectNode],
    [CancelWorkload], [UpdateCostMetrics] and ticks started from
    [NewLookAsideBalancer], provided the aggregations handed to
    [UpdateCostMetrics] hold [int64] values: every counter of the ledger
    holds an [int64] value, every cached aggregation holds [int64] values,
    and every node of the Unreachability Set has a time stamp (only the tick
    inserts nodes, and only nodes it found in the time-stamp map, whose
    entries are never deleted). *)
Theorem run_invariants ops :
  Forall int64_operation ops →
  int64_ledger (run ops) ∧ int64_telemetry (run ops)
  ∧ unreachable_observed (run ops).
Proof.
  unfold run.
  assert (Hgen : ∀ b, int64_ledger b ∧ int64_telemetry b ∧ unreachable_observed b →
                      Forall int64_operation ops →
                      let b' := foldl perform b ops in
                      int64_ledger b' ∧ int64_telemetry b' ∧ unreachable_observed b').
  { induction ops as [|op ops IH]; intros b Hb Hops; [done|].
    apply Forall_cons in Hops as [Hop Hops]. cbn [foldl]. apply IH; [|done].
    destruct Hb as (L & T & U). destruct op as [now l cost|node nq|t node cost|now a f];
      cbn [perform].
    - destruct (SelectNode_preserves now b l cost) as (P1 & P2 & P3). auto.
    - destruct (CancelWorkload_preserves b node nq) as (P1 & P2 & P3). auto.
    - destruct (UpdateCostMetrics_preserves t b node cost) as (P1 & P2 & P3).
      split_and!; [auto| |auto]. apply P2; [|done].
      intros c ->. exact Hop.
    - destruct (tick_preserves now a f b) as (P1 & P2 & P3). auto. }
  apply Hgen. split_and!.
  - intros m v H. cbn [NewLookAsideBalancer executingTaskTotalNQ] in H.
    by rewrite lookup_empty in H.
  - intros m c H. cbn [NewLookAsideBalancer metricsMap] in H.
    by rewrite lookup_empty in H.
  - intros m H. cbn [NewLookAsideBalancer unreachableQueryNodes] in H.
    by apply not_elem_of_empty in H.
Qed.

Lemma run_invariants_witness :
  let ops := [OpUpdateCostMetrics 100 1 (Some Scenario.ordinary_cost);
              OpSelectNode 200 [1; 2] 5;
              OpTick 1000 (λ _, GetClientFailed) (λ _, 1000);
              OpCancelWorkload 2 5] in
  int64_ledger (run ops) ∧ int64_telemetry (run ops)
  ∧ unreachable_observed (run ops).
Proof.
  apply (run_invariants
           [OpUpdateCostMetrics 100 1 (Some Scenario.ordinary_cost);
            OpSelectNode 200 [1; 2] 5;
            OpTick 1000 (λ _, GetClientFailed) (λ _, 1000);
            OpCancelWorkload 2 5]).
  repeat constructor.
  all: unfold Int64.in_range, Int64.min_signed, Int64.max_signed; simpl; lia.
Defined.

(** ** Dispatch and cancellation with other work in between *)

Lemma perform_keeps_counter node b op v :
  quiet_for node b [op] →
  executingTaskTotalNQ b !! node = Some v →
  executingTaskTotalNQ (perform b op) !! node = Some v.
Proof.
  intros [Hq _] Hv. destruct op as [now l cost|m nq|t m cost|now a f]; cbn [perform].
  - destruct (selectLoop_state now l b (-1) MaxFloat64) as (_ & _ & _ & H4 & _).
    destruct (SelectNode_unfold now b l cost) as [[_ E]|(_ & _ & _ & E)];
      rewrite E in *; cbn [fst snd] in *.
    + by apply H4.
    + cbn [executingTaskTotalNQ set_executingTaskTotalNQ].
      rewrite lookup_insert_ne by (intros E'; apply Hq; by rewrite E').
      by apply H4.
  - unfold CancelWorkload. destruct (executingTaskTotalNQ b !! m); [|done].
    cbn [executingTaskTotalNQ set_executingTaskTotalNQ]. by rewrite lookup_insert_ne.
  - done.
  - destruct (tick_pointwise now a f b) as (_ & -> & _). done.
Qed.

Lemma quiet_run_keeps_counter node ops : ∀ b v,
  quiet_for node b ops →
  executingTaskTotalNQ b !! node = Some v →
  executingTaskTotalNQ (foldl perform b ops) !! node = Some v.
Proof.
  induction ops as [|op ops IH]; intros b v Hq Hv; [done|].
  destruct Hq as [Hop Hq]. cbn [foldl]. apply IH; [done|].
  apply perform_keeps_counter; [|done]. by split.
Qed.

(** X19: a dispatch and its cancellation frame any amount of other work.
    If [SelectNode] returns [n] for cost [c], and the operations that follow
    (dispatches to other nodes, failed dispatches, cancellations on other
    nodes, telemetry updates, ticks) neither dispatch to [n] nor cancel on
    it, then [CancelWorkload n c] brings the counter of [n] back to its value
    before the dispatch, and until then the counter holds that value plus
    [c]. *)
Theorem dispatch_cancel_round_trip now b l c n ops :
  (SelectNode now b l c).2 = inr n →
  Int64.in_range (inflight b n) →
  quiet_for n (SelectNode now b l c).1 ops →
  let b' := foldl perform (SelectNode now b l c).1 ops in
  inflight b' n = Int64.add (inflight b n) c
  ∧ inflight (CancelWorkload b' n c) n = inflight b n.
Proof.
  intros Hsel Hr Hq. cbv zeta.
  destruct (SelectNode now b l c) as [b1 r] eqn:E. simpl in Hsel. subst r.
  cbn [fst] in *.
  destruct (SelectNode_success _ _ _ _ _ _ E) as (_ & _ & _ & _ & Hb1).
  assert (H1 : executingTaskTotalNQ b1 !! n = Some (Int64.add (inflight b n) c)).
  { rewrite Hb1. simpl. by rewrite lookup_insert_eq. }
  pose proof (quiet_run_keeps_counter n ops b1 _ Hq H1) as H2.
  split.
  - unfold inflight at 1. by rewrite H2.
  - unfold CancelWorkload. rewrite H2. unfold inflight at 1. simpl.
    rewrite lookup_insert_eq. simpl. by apply sub_add_cancel.
Qed.

Lemma dispatch_cancel_round_trip_witness :
  let b := Scenario.loaded in
  let ops := [OpSelectNode 1 [9] 4; OpCancelWorkload 9 1;
              OpUpdateCostMetrics 2 5 None;
              OpTick 1000 (λ _, GetClientFailed) (λ _, 1000)] in
  let b' := foldl perform (SelectNode 0 b [5] 3).1 ops in
  inflight b' 5 = Int64.add (inflight b 5) 3
  ∧ inflight (CancelWorkload b' 5 3) 5 = inflight b 5.
Proof.
  apply (dispatch_cancel_round_trip 0 Scenario.loaded [5] 3 5
           [OpSelectNode 1 [9] 4; OpCancelWorkload 9 1;
            OpUpdateCostMetrics 2 5 None;
            OpTick 1000 (λ _, GetClientFailed) (λ _, 1000)]).
  - vm_compute. reflexivity.
  - vm_compute. split; discriminate.
  - cbn [quiet_for]. split_and!; try done; try lia.
Defined.

(** ** The tick as a whole *)

(** X14: one tick of the health loop.  Call a node stale when it has a time
    stamp older than [checkQueryNodeHealthInterval] = 500 ms at the start of
    the tick.  After the tick the Unreachability Set holds the stale nodes
    whose probe was unhealthy and the former members that were not stale;
    a stale node with a healthy probe has its time stamp set to the clock of
    its probe and every other time stamp is as before, so the tick neither
    creates nor deletes time stamps; the telemetry cache and the ledger are
    not touched. *)
Theorem tick_spec now answers finish b :
  let b' := tick now answers finish b in
  let stale n := ∃ v, metricsUpdateTs b !! n = Some v ∧ needsProbe now v = true in
  metricsMap b' = metricsMap b
  ∧ executingTaskTotalNQ b' = executingTaskTotalNQ b
  ∧ dom (metricsUpdateTs b') = dom (metricsUpdateTs b)
  ∧ (∀ n, n ∈ unreachableQueryNodes b' ↔
          (stale n ∧ is_healthy (answers n) = false)
          ∨ (n ∈ unreachableQueryNodes b ∧ ¬ stale n))
  ∧ (∀ n, stale n → is_healthy (answers n) = true →
          metricsUpdateTs b' !! n = Some (finish n))
  ∧ (∀ n, ¬ (stale n ∧ is_healthy (answers n) = true) →
          metricsUpdateTs b' !! n = metricsUpdateTs b !! n).
Proof.
  cbv zeta. destruct (tick_pointwise now answers finish b) as (H1 & H2 & Ht).
  split_and!; [done|done| | | |].
  - apply set_eq. intros n. rewrite !elem_of_dom. specialize (Ht n).
    destruct (metricsUpdateTs b !! n) as [v|].
    + destruct (needsProbe now v); destruct Ht as [_ ->];
        split; intros _; by eexists.
    + destruct Ht as [_ ->]. done.
  - intros n. specialize (Ht n).
    destruct (metricsUpdateTs b !! n) as [v|] eqn:E.
    + destruct (needsProbe now v) eqn:Hs; destruct Ht as [U _]; rewrite U.
      * split; [intros Hbad; left; split; [by exists v|done]|].
        intros [[_ ?]|[_ Hn]]; [done|]. exfalso. apply Hn. by exists v.
      * split; [intros Hu; right; split; [done|]|].
        -- intros (v' & [= <-] & Hs'). congruence.
        -- intros [[(v' & [= <-] & Hs') _]|[? _]]; [congruence|done].
    + destruct Ht as [U _]. rewrite U.
      split; [intros Hu; right; split; [done|]|].
      * intros (v' & ? & _). done.
      * intros [[(v' & ? & _) _]|[? _]]; done.
  - intros n (v & E & Hs) Hok. specialize (Ht n).
    rewrite E, Hs, Hok in Ht. by destruct Ht.
  - intros n Hn. specialize (Ht n).
    destruct (metricsUpdateTs b !! n) as [v|] eqn:E; [|by destruct Ht].
    destruct (needsProbe now v) eqn:Hs; [|by destruct Ht].
    destruct Ht as [_ ->]. destruct (is_healthy (answers n)) eqn:Hok; [|done].
    exfalso. apply Hn. split; [by exists v|done].
Qed.

(** X20: fresh telemetry shields a node from the prober, in both directions.
    After [UpdateCostMetrics] at time [t], a tick within
    [checkQueryNodeHealthInterval] = 500 ms does not probe the node: an
    unreachable node stays unreachable, and [SelectNode] keeps skipping it,
    even if its probe would have been healthy; a reachable node stays
    reachable even if its probe would have failed. *)
Theorem fresh_telemetry_is_not_probed t now answers finish b n cost :
  Int64.in_range (now - t) → now - t ≤ 500 →
  let b' := tick now answers finish (UpdateCostMetrics t b n cost) in
  (n ∈ unreachableQueryNodes b' ↔ n ∈ unreachableQueryNodes b)
  ∧ metricsUpdateTs b' !! n = Some t
  ∧ (n ∈ unreachableQueryNodes b →
     ∀ now' c, SelectNode now' b' [n] c = (b', inl unavailable)).
Proof.
  intros Hr Hle. cbv zeta.
  destruct (tick_pointwise now answers finish (UpdateCostMetrics t b n cost))
    as (_ & _ & Ht).
  specialize (Ht n). cbn [UpdateCostMetrics metricsUpdateTs] in Ht.
  rewrite lookup_insert_eq in Ht.
  assert (Hfresh : needsProbe now t = false).
  { unfold needsProbe, Int64.sub. rewrite wrap_in_range by done.
    apply Z.ltb_ge. unfold checkQueryNodeHealthInterval. lia. }
  rewrite Hfresh in Ht. destruct Ht as [U T]. cbn [unreachableQueryNodes] in U.
  split_and!; [done|done|].
  intros Hu now' c. unfold SelectNode. rewrite selectLoop_all_unreachable; [done|].
  intros m Hm Hs. apply Hs. apply elem_of_cons in Hm as [->|Hm].
  - by apply U.
  - by apply elem_of_nil in Hm.
Qed.

Lemma fresh_telemetry_is_not_probed_witness :
  let b := mkBalancer ∅ {[11 := 100]} ∅ {[11]} in
  let b' := tick 10300 (λ _, ComponentStates Healthy) (λ _, 10301)
              (UpdateCostMetrics 10000 b 11 (Some Scenario.ordinary_cost)) in
  (11 ∈ unreachableQueryNodes b' ↔ 11 ∈ unreachableQueryNodes b)
  ∧ metricsUpdateTs b' !! 11 = Some 10000
  ∧ (11 ∈ unreachableQueryNodes b →
     ∀ now' c, SelectNode now' b' [11] c = (b', inl unavailable)).
Proof.
  apply (fresh_telemetry_is_not_probed 10000 10300 (λ _, ComponentStates Healthy)
           (λ _, 10301) (mkBalancer ∅ {[11 := 100]} ∅ {[11]}) 11
           (Some Scenario.ordinary_cost)).
  - unfold Int64.in_range, Int64.min_signed, Int64.max_signed. simpl. lia.
  - lia.
Defined.
